(** * prom-query-stats: a shallow embedding of the aggregation pipeline

    The development follows the Go sources of the repository:
    - the percentile revision (the newest [main.go], with [percentile],
      [LogEntries] and a [LoadQueriesFromLog] that returns the filtered
      entries) is embedded at top level;
    - the load-statistics revision (the [main.go] that keeps a
      [LoadStats] record instead of the entry list) is embedded in
      [Module LoadStatsRev]; it shares the table printers, which are the
      same in both revisions, and [NewQuery].  That revision stores the
      records by value and keeps [&log], the address of the loop variable,
      as the maximum: it is read with a loop variable per iteration (Go
      1.22), where [&log] is a copy of the record, as in the percentile
      revision.

    Conventions.
    - Go's [int] is 64 bits wide: it is a [Z]; the sums of [avg] and the
      record counter wrap ([wrap64]), while lengths and the line counter,
      which stay far below [2^63], are plain integers.
    - [float64] is IEEE 754 binary64, taken from the standard library's
      executable specification ([SpecFloat], [prec = 53], [emax = 1024]).
    - [time.Time] is an instant: a [Z] counting nanoseconds from the zero
      [time.Time] (January 1, year 1, UTC); [Before] and [After] are the
      strict orders on instants.  A [*time.Time] is an [option].
    - A Go call either returns normally, returns a non-nil [error], or
      panics (nil dereference, index out of range): [outcome].
    - [json.Unmarshal] belongs to the Go standard library; it is a
      section variable of the loaders.  [bufio.Scanner] is represented by
      the list of lines it yields and by the error, if any, that
      [scanner.Err()] reports after the last of them.
    - Flag parsing, the version banner and the opening of the input are
      left out: [main] starts from the flag values and the scanned input. *)

From stdpp Require Import gmap strings list fin_maps sorting.
From Stdlib Require Import ZArith Ascii Floats.SpecFloat.

Local Open Scope Z_scope.

(** ** Outcomes of a Go call *)

Inductive error : Type :=
  | ErrPercentileOutOfRange (p : Z)   (* "percentile %d is out of range" *)
  | ErrSliceEmpty                     (* "the slice is empty" *)
  | ErrQueryEmpty                     (* "a query cannot be empty" *)
  | ErrNoLogEntries                   (* "a number of log entries must be greater than zero" *)
  | ErrParseLine (lineNum : Z)        (* "Failed to parse line %d: %w" *)
  | ErrTooLong                        (* bufio.ErrTooLong, "bufio.Scanner: token too long" *)
  | ErrRead (cause : string)          (* an error of the reader under the scanner *)
  | ErrCreateQuery (cause : error)    (* "Failed to create Query: %w" *)
  | FatalParseLog (cause : error)     (* log.Fatalf "Failed to parse the query log file: %s" *)
  | FatalNoQueries                    (* log.Fatalln "Loaded 0 queries" *)
  | FatalPercentile (cause : error)   (* log.Fatalf "Failed to calculate percentile: %s" *)
  | ExitBadPercentile.                (* os.Exit(1) after the rank check of main *)

Inductive panic : Type :=
  | NilDereference
  | IndexOutOfRange (i len : Z)
  | SliceBoundsOutOfRange (hi cap : Z).

Inductive outcome (A : Type) : Type :=
  | Ok (a : A)
  | Err (e : error)
  | Panic (p : panic).

Arguments Ok {A} a.
Arguments Err {A} e.
Arguments Panic {A} p.

Definition obind {A B : Type} (m : outcome A) (k : A → outcome B) : outcome B :=
  match m with
  | Ok a => k a
  | Err e => Err e
  | Panic p => Panic p
  end.

Notation "'do' x <- m ; k" := (obind m (λ x, k))
  (at level 10, x name, m at level 100, k at level 200,
   format "'[v' 'do'  x  <-  m ; '/' k ']'").

Notation "'do' ' pat <- m ; k" := (obind m (λ x, let 'pat := x in k))
  (at level 10, pat strict pattern, m at level 100, k at level 200,
   format "'[v' 'do'  ' pat  <-  m ; '/' k ']'").

Definition is_Panic {A : Type} (m : outcome A) : bool :=
  match m with Panic _ => true | _ => false end.

(** ** Machine numbers *)

Definition wrap64 (z : Z) : Z := (z + 2 ^ 63) `mod` 2 ^ 64 - 2 ^ 63.

Definition len {A : Type} (l : list A) : Z := Z.of_nat (length l).

Abbreviation float64 := spec_float.

Definition f64_of_int (z : Z) : float64 := binary_normalize 53 1024 z 0 false.
Definition f64_add : float64 → float64 → float64 := SFadd 53 1024.
Definition f64_mul : float64 → float64 → float64 := SFmul 53 1024.
Definition f64_div : float64 → float64 → float64 := SFdiv 53 1024.
Definition f64_lt : float64 → float64 → bool := SFltb.

Definition f64_isNaN (x : float64) : bool :=
  match x with S754_nan => true | _ => false end.

(** The signed integer [(-1)^s * m]. *)
Definition signed (s : bool) (m : positive) : Z := if s then Z.neg m else Z.pos m.

(** [math.Ceil]: the least integral value not below [x]; zeros, infinities
    and NaN are returned as they are. *)
Definition math_Ceil (x : float64) : float64 :=
  match x with
  | S754_finite s m e =>
      if 0 <=? e then x
      else
        let c := - ((- signed s m) `div` 2 ^ (- e)) in
        if c =? 0 then S754_zero s else binary_normalize 53 1024 c 0 s
  | _ => x
  end.

(** The conversion [int(x)] of a [float64]: the fraction is discarded.
    The language leaves the result open when the value does not fit;
    amd64 yields the least [int], which is what is written here. *)
Definition int_of_f64 (x : float64) : Z :=
  match x with
  | S754_zero _ => 0
  | S754_finite s m e =>
      let v := if 0 <=? e then signed s m * 2 ^ e
               else (signed s m) `quot` 2 ^ (- e) in
      if (- 2 ^ 63 <=? v) && (v <? 2 ^ 63) then v else - 2 ^ 63
  | _ => - 2 ^ 63
  end.

(** The type constraint [int | float64] of [avg] and [percentile]:
    the zero value, [+], the conversion [float64(x)] and [cmp.Less], the
    order [slices.Sort] sorts by. *)
Class Number (T : Type) : Type := {
  num_zero : T;
  num_add : T → T → T;
  num_float64 : T → float64;
  cmp_Less : T → T → bool
}.

#[global] Instance int_Number : Number Z := {|
  num_zero := 0;
  num_add := λ x y, wrap64 (x + y);
  num_float64 := f64_of_int;
  cmp_Less := Z.ltb
|}.

#[global] Instance float64_Number : Number float64 := {|
  num_zero := S754_zero false;
  num_add := f64_add;
  num_float64 := λ x, x;
  cmp_Less := λ x y, (f64_isNaN x && negb (f64_isNaN y)) || f64_lt x y
|}.

(** [l[i]]: panics when [i] is out of range. *)
Definition index {A : Type} (l : list A) (i : Z) : outcome A :=
  if (0 <=? i) && (i <? len l) then
    match l !! Z.to_nat i with
    | Some x => Ok x
    | None => Panic (IndexOutOfRange i (len l))
    end
  else Panic (IndexOutOfRange i (len l)).

(** [l[:hi]]: panics unless [0 <= hi <= cap(l)].  Every slice cut this way
    in the program has its capacity equal to its length. *)
Definition slice_to {A : Type} (l : list A) (hi : Z) : outcome (list A) :=
  if (0 <=? hi) && (hi <=? len l) then Ok (take (Z.to_nat hi) l)
  else Panic (SliceBoundsOutOfRange hi (len l)).

(** ** Percentile calculator *)

(** The index [kth] that [percentile] reads:
    [int(math.Ceil((float64(p)/100.0) * float64(len(nums))))]. *)
Definition percentile_index (p : Z) (n : Z) : Z :=
  let k := f64_mul (f64_div (f64_of_int p) (f64_of_int 100)) (f64_of_int n) in
  int_of_f64 (math_Ceil k).

Section Generic.
Context {T : Type} `{Number T}.

(** [a] may stand before [b] in an ascending slice. *)
Definition ascending (a b : T) : Prop := cmp_Less b a = false.

#[global] Instance ascending_dec a b : Decision (ascending a b).
Proof. unfold ascending. apply _. Defined.

(** [slices.Sort]: the library's sort, by its contract (an ascending
    rearrangement of the slice). *)
Definition slices_Sort (nums : list T) : list T := merge_sort ascending nums.

Definition avg (nums : list T) : float64 :=
  let sum := fold_left num_add nums num_zero in
  f64_div (num_float64 sum) (f64_of_int (len nums)).

Definition percentile (p : Z) (nums : list T) : outcome T :=
  if (p <=? 0) || (100 <? p) then Err (ErrPercentileOutOfRange p)
  else if len nums =? 0 then Err ErrSliceEmpty
  else
    let sorted := slices_Sort nums in
    let kth := percentile_index p (len nums) in
    index sorted kth.
End Generic.

(** ** Data model *)

Abbreviation Time := Z.

(** [time.Time{}] *)
Definition zeroTime : Time := 0.

(** [t.Before(u)] and [t.After(u)] through a [*time.Time] receiver: the
    methods take the receiver by value, so a nil pointer is dereferenced. *)
Definition Before (t : option Time) (u : Time) : outcome bool :=
  match t with
  | Some t => Ok (t <? u)
  | None => Panic NilDereference
  end.

Definition After (t : option Time) (u : Time) : outcome bool :=
  match t with
  | Some t => Ok (u <? t)
  | None => Panic NilDereference
  end.

Record Params : Type := {
  Query : string;
  Start : option Time;
  End_ : option Time;
  Step : Z
}.

Record Timings : Type := {
  EvalTotalTime : float64;
  ExecQueueTime : float64;
  ExecTotalTime : float64;
  InnerEvalTime : float64;
  QueryPreparationTime : float64;
  ResultSortTime : float64
}.

Record Samples : Type := {
  TotalQueryableSamples : Z;
  PeakSamples : Z
}.

Record Stats : Type := {
  timings : Timings;
  samples : Samples
}.

Record RuleGroup : Type := {
  Name : string;
  File : string
}.

Record LogEntry : Type := {
  params : Params;
  stats : Stats;
  ruleGroup : option RuleGroup;
  TS : option Time
}.

Definition entryQuery (e : LogEntry) : string := Query (params e).
Definition execTotalTime (e : LogEntry) : float64 := ExecTotalTime (timings (stats e)).
Definition totalQueryableSamples (e : LogEntry) : Z := TotalQueryableSamples (samples (stats e)).
Definition peakSamples (e : LogEntry) : Z := PeakSamples (samples (stats e)).

(** [LogEntries] and its value getters *)
Definition GetExecTotalTimeValues (le : list LogEntry) : list float64 := execTotalTime <$> le.
Definition GetTotalQueryableSamplesValues (le : list LogEntry) : list Z := totalQueryableSamples <$> le.
Definition GetPeakSamplesValues (le : list LogEntry) : list Z := peakSamples <$> le.

(** The Go struct [Query]. *)
Record QueryGroup : Type := {
  queryText : string;
  Logs : list LogEntry;
  AvgExecTotalTime : float64;
  AvgTotalQueryableSamples : float64;
  AvgPeakSamples : float64;
  MaxExecTotalTimeEntry : LogEntry;
  MaxTotalQueryableSamplesEntry : LogEntry;
  MaxPeakSamplesEntry : LogEntry
}.

(** ** Query groups *)

(** The variables the loop of [NewQuery] updates. *)
Record newQueryLoop : Type := {
  maxExecTotalTimeEntry : LogEntry;
  maxTotalQueryableSamplesEntry : LogEntry;
  maxPeakSamplesEntry : LogEntry;
  execTotalTimeVals : list float64;
  totalQueryableSamplesVals : list Z;
  peakSamplesVals : list Z
}.

(** One iteration of the loop of [NewQuery]; [a > b] is [b < a]. *)
Definition newQueryStep (v : newQueryLoop) (log : LogEntry) : newQueryLoop :=
  {| execTotalTimeVals := execTotalTimeVals v ++ [execTotalTime log];
     totalQueryableSamplesVals := totalQueryableSamplesVals v ++ [totalQueryableSamples log];
     peakSamplesVals := peakSamplesVals v ++ [peakSamples log];
     maxExecTotalTimeEntry :=
       if f64_lt (execTotalTime (maxExecTotalTimeEntry v)) (execTotalTime log)
       then log else maxExecTotalTimeEntry v;
     maxTotalQueryableSamplesEntry :=
       if totalQueryableSamples (maxTotalQueryableSamplesEntry v) <? totalQueryableSamples log
       then log else maxTotalQueryableSamplesEntry v;
     maxPeakSamplesEntry :=
       if peakSamples (maxPeakSamplesEntry v) <? peakSamples log
       then log else maxPeakSamplesEntry v |}.

Definition NewQuery (query : string) (logs : list LogEntry) : outcome QueryGroup :=
  if bool_decide (query = "") then Err ErrQueryEmpty
  else
    match logs with
    | [] => Err ErrNoLogEntries
    | first :: _ =>
        let v := fold_left newQueryStep logs
                   {| maxExecTotalTimeEntry := first;
                      maxTotalQueryableSamplesEntry := first;
                      maxPeakSamplesEntry := first;
                      execTotalTimeVals := [];
                      totalQueryableSamplesVals := [];
                      peakSamplesVals := [] |} in
        Ok {| queryText := query;
              Logs := logs;
              AvgExecTotalTime := avg (execTotalTimeVals v);
              AvgTotalQueryableSamples := avg (totalQueryableSamplesVals v);
              AvgPeakSamples := avg (peakSamplesVals v);
              MaxExecTotalTimeEntry := maxExecTotalTimeEntry v;
              MaxTotalQueryableSamplesEntry := maxTotalQueryableSamplesEntry v;
              MaxPeakSamplesEntry := maxPeakSamplesEntry v |}
    end.

(** ** Ranker and table printers *)

(** [sort.Sort(sort.Reverse(by))] where [less a b] is what [by.Less]
    computes on two elements: in the result no element is [less] than its
    successor.  The library's sort, by its contract. *)
Definition descending {A : Type} (less : A → A → bool) (a b : A) : Prop := less a b = false.

#[global] Instance descending_dec {A : Type} (less : A → A → bool) a b :
  Decision (descending less a b).
Proof. unfold descending. apply _. Defined.

Definition sort_Reverse {A : Type} (less : A → A → bool) (l : list A) : list A :=
  merge_sort (descending less) l.

Definition ByAvgExecTotalTime (a b : QueryGroup) : bool :=
  f64_lt (AvgExecTotalTime a) (AvgExecTotalTime b).
Definition ByMaxExecTotalTime (a b : QueryGroup) : bool :=
  f64_lt (execTotalTime (MaxExecTotalTimeEntry a)) (execTotalTime (MaxExecTotalTimeEntry b)).
Definition ByAvgTotalQueryableSamples (a b : QueryGroup) : bool :=
  f64_lt (AvgTotalQueryableSamples a) (AvgTotalQueryableSamples b).
Definition ByMaxTotalQueryableSamples (a b : QueryGroup) : bool :=
  totalQueryableSamples (MaxTotalQueryableSamplesEntry a)
    <? totalQueryableSamples (MaxTotalQueryableSamplesEntry b).
Definition ByAvgPeakSamples (a b : QueryGroup) : bool :=
  f64_lt (AvgPeakSamples a) (AvgPeakSamples b).
Definition ByMaxPeakSamples (a b : QueryGroup) : bool :=
  peakSamples (MaxPeakSamplesEntry a) <? peakSamples (MaxPeakSamplesEntry b).

(** [\s] of the regular expression of [removeNL]. *)
Definition is_space (c : Ascii.ascii) : bool :=
  bool_decide (c ∈ ["009"; "010"; "012"; "013"; " "]%char).

(** [removeNL]: every match of [\n\s*] is deleted; [skipping] says that
    the scan is inside a match. *)
Fixpoint removeNL_from (skipping : bool) (str : string) : string :=
  match str with
  | EmptyString => EmptyString
  | String c rest =>
      if bool_decide (c = "010"%char) then removeNL_from true rest
      else if skipping && is_space c then removeNL_from true rest
      else String c (removeNL_from false rest)
  end.

Definition removeNL (str : string) : string := removeNL_from false str.

(** The dynamic value a max table prints ([interface{}] holding an [int]
    or a [float64]). *)
Inductive value : Type :=
  | IntValue (v : Z)
  | FloatValue (v : float64).

(** A printed row: the arguments of its [Printf] calls. *)
Inductive row : Type :=
  | AvgRow (i n : Z) (v : float64) (query : string) (ruleName : option string)
  | MaxRow (i : Z) (t : Time) (v : value) (query : string) (ruleName : option string).

Inductive printed : Type :=
  | PercentileLine (p : Z) (v : value)
  | Table (title : string) (top : Z) (rows : list row).

(** [for i, query := range view], collecting what each iteration prints. *)
Fixpoint range_rows (body : Z → QueryGroup → outcome row) (i : Z)
    (view : list QueryGroup) : outcome (list row) :=
  match view with
  | [] => Ok []
  | query :: rest =>
      do r <- body i query;
      do rs <- range_rows body (i + 1) rest;
      Ok (r :: rs)
  end.

Definition printAvgTable (argTop : Z) (queries : list QueryGroup)
    (title : string) (getter : QueryGroup → float64) : outcome printed :=
  do view <- slice_to queries argTop;
  do rows <- range_rows (λ i query,
               do first <- index (Logs query) 0;
               Ok (AvgRow (i + 1) (len (Logs query)) (getter query)
                     (removeNL (queryText query)) (Name <$> ruleGroup first)))
             0 view;
  Ok (Table title argTop rows).

Definition printMaxTable (argTop : Z) (queries : list QueryGroup)
    (title : string) (valueGetter : QueryGroup → value)
    (tsGetter : QueryGroup → option Time) : outcome printed :=
  do view <- slice_to queries argTop;
  do rows <- range_rows (λ i query,
               match tsGetter query with
               | None => Panic NilDereference
               | Some t =>
                   do first <- index (Logs query) 0;
                   Ok (MaxRow (i + 1) t (valueGetter query)
                         (removeNL (queryText query)) (Name <$> ruleGroup first))
               end)
             0 view;
  Ok (Table title argTop rows).

(** The six sort-and-print steps of [main] (the slice is sorted in place,
    so each sort starts from the order the previous one left). *)
Definition avgExecTable (argTop : Z) (queries : list QueryGroup) :=
  let queries := sort_Reverse ByAvgExecTotalTime queries in
  do t <- printAvgTable argTop queries "average execution time" AvgExecTotalTime;
  Ok (queries, t).

Definition maxExecTable (argTop : Z) (queries : list QueryGroup) :=
  let queries := sort_Reverse ByMaxExecTotalTime queries in
  do t <- printMaxTable argTop queries "max execution time"
            (λ q, FloatValue (execTotalTime (MaxExecTotalTimeEntry q)))
            (λ q, TS (MaxExecTotalTimeEntry q));
  Ok (queries, t).

Definition avgTotalTable (argTop : Z) (queries : list QueryGroup) :=
  let queries := sort_Reverse ByAvgTotalQueryableSamples queries in
  do t <- printAvgTable argTop queries "average total queryable samples"
            AvgTotalQueryableSamples;
  Ok (queries, t).

Definition maxTotalTable (argTop : Z) (queries : list QueryGroup) :=
  let queries := sort_Reverse ByMaxTotalQueryableSamples queries in
  do t <- printMaxTable argTop queries "max total queryable samples"
            (λ q, IntValue (totalQueryableSamples (MaxTotalQueryableSamplesEntry q)))
            (λ q, TS (MaxTotalQueryableSamplesEntry q));
  Ok (queries, t).

Definition avgPeakTable (argTop : Z) (queries : list QueryGroup) :=
  let queries := sort_Reverse ByAvgPeakSamples queries in
  do t <- printAvgTable argTop queries "average peak samples" AvgPeakSamples;
  Ok (queries, t).

Definition maxPeakTable (argTop : Z) (queries : list QueryGroup) :=
  let queries := sort_Reverse ByMaxPeakSamples queries in
  do t <- printMaxTable argTop queries "max peak samples"
            (λ q, IntValue (peakSamples (MaxPeakSamplesEntry q)))
            (λ q, TS (MaxPeakSamplesEntry q));
  Ok (queries, t).

(** [if *argTop > len(queries) { *argTop = len(queries) }] *)
Definition clampTop (argTop : Z) (queries : list QueryGroup) : Z :=
  if len queries <? argTop then len queries else argTop.

(** ** Aggregator *)

(** What the program writes through package [log]. *)
Inductive log_line : Type :=
  | LogEmptyQuery (lineNum : Z)                 (* "Failed to parse line %d: empty query" *)
  | LogLoaded (n : Z) (from to : option Time).  (* "Loaded %d entries from [%v] to [%v]" *)

(** [append(qMap[query], entry)] stored back under [query]. *)
Definition appendTo (qMap : gmap string (list LogEntry)) (entry : LogEntry) :
    gmap string (list LogEntry) :=
  <[entryQuery entry := default [] (qMap !! entryQuery entry) ++ [entry]]> qMap.

(** The loop [for query, queryLogs := range qMap] over the pairs in the
    order the iteration visits them. *)
Fixpoint rangeNewQuery (pairs : list (string * list LogEntry))
    (queries : list QueryGroup) : outcome (list QueryGroup) :=
  match pairs with
  | [] => Ok queries
  | (query, queryLogs) :: rest =>
      match NewQuery query queryLogs with
      | Ok q => rangeNewQuery rest (queries ++ [q])
      | Err err => Err (ErrCreateQuery err)
      | Panic p => Panic p
      end
  end.

(** The two window tests of the loop body; [true] means [continue]. *)
Definition beforeFrom (from : option Time) (entry : LogEntry) : outcome bool :=
  match from with
  | None => Ok false
  | Some from => Before (TS entry) from
  end.

Definition afterTo (to : option Time) (entry : LogEntry) : outcome bool :=
  match to with
  | None => Ok false
  | Some to => After (TS entry) to
  end.

Section Loader.
(** [json.Unmarshal(line, &entry)] on a fresh [entry]: [None] when it
    returns an error. *)
Variable Unmarshal : string → option LogEntry.

(** The order in which [range] visits a map is not fixed by the
    language: any enumeration of the pairs. *)
Variable rangeOrder : gmap string (list LogEntry) → list (string * list LogEntry).

(** *** Percentile revision *)

Record loader : Type := {
  qMap : gmap string (list LogEntry);
  logs : list LogEntry;
  logged : list log_line
}.

(** The body of the scanning loop for one line. *)
Definition scanLine (from to : option Time) (lineNum : Z) (line : string)
    (st : loader) : outcome loader :=
  match Unmarshal line with
  | None => Err (ErrParseLine lineNum)
  | Some entry =>
      if bool_decide (entryQuery entry = "") then
        Ok {| qMap := qMap st; logs := logs st;
              logged := logged st ++ [LogEmptyQuery lineNum] |}
      else
        do early <- beforeFrom from entry;
        if early then Ok st
        else
          do late <- afterTo to entry;
          if late then Ok st
          else
            Ok {| qMap := appendTo (qMap st) entry;
                  logs := logs st ++ [entry];
                  logged := logged st |}
  end.

(** [for lineNum := 0; scanner.Scan(); lineNum++] *)
Fixpoint scanLines (from to : option Time) (lineNum : Z) (lines : list string)
    (st : loader) : outcome loader :=
  match lines with
  | [] => Ok st
  | line :: rest =>
      do st' <- scanLine from to lineNum line st;
      scanLines from to (lineNum + 1) rest st'
  end.

(** The file is what the scanner makes of it: the [lines] that
    [scanner.Scan()] yields, in order, and [scanErr], what [scanner.Err()]
    returns once [Scan] has returned false: [None] at the end of the file,
    [bufio.ErrTooLong] after a line of more than 64 KiB, or the error of
    the reader.  The lines yielded before an error have gone through the
    loop when the error is read. *)
Definition LoadQueriesFromLog (lines : list string) (scanErr : option error)
    (from to : option Time) :
    outcome (list QueryGroup * list LogEntry * list log_line) :=
  do st <- scanLines from to 0 lines {| qMap := ∅; logs := []; logged := [] |};
  match scanErr with
  | Some err => Err err
  | None =>
      do queries <- rangeNewQuery (rangeOrder (qMap st)) [];
      Ok (queries, logs st, logged st)
  end.

(** [sort.Sort(ByTime{logs})]: [Less] calls [TS.Before] of one entry on
    the dereferenced [TS] of the other, so it dereferences both
    timestamps; a sort of two or more elements compares each of them at
    least once, so a missing timestamp panics.  Otherwise the entries come
    out in ascending order of time (the library's sort, by its
    contract). *)
Definition byTime (a b : LogEntry) : bool := default 0 (TS a) <? default 0 (TS b).

Definition sortByTime (logs : list LogEntry) : outcome (list LogEntry) :=
  if (2 <=? len logs) && existsb (λ e, bool_decide (TS e = None)) logs
  then Panic NilDereference
  else Ok (merge_sort (descending (λ a b, byTime b a)) logs).

Record report : Type := {
  stdout : list printed;
  stderr : list log_line
}.

(** [log.Fatalf("Failed to calculate percentile: %s", err)] *)
Definition orFatal {A : Type} (m : outcome A) : outcome A :=
  match m with
  | Err err => Err (FatalPercentile err)
  | _ => m
  end.

(** [main] after the flags are parsed and the input is open. *)
Definition main (argFrom argTo : option Time) (argTop argPerc : Z)
    (lines : list string) (scanErr : option error) : outcome report :=
  if (argPerc <=? 0) || (100 <? argPerc) then Err ExitBadPercentile
  else
    match LoadQueriesFromLog lines scanErr argFrom argTo with
    | Err err => Err (FatalParseLog err)
    | Panic p => Panic p
    | Ok (queries, logs, logged) =>
        if len queries =? 0 then Err FatalNoQueries
        else
          do logs <- sortByTime logs;
          do first <- index logs 0;
          do last <- index logs (len logs - 1);
          let logged := logged ++ [LogLoaded (len logs) (TS first) (TS last)] in
          let argTop := clampTop argTop queries in
          do p1 <- orFatal (percentile argPerc (GetExecTotalTimeValues logs));
          do '(queries, t1) <- avgExecTable argTop queries;
          do '(queries, t2) <- maxExecTable argTop queries;
          do p2 <- orFatal (percentile argPerc (GetTotalQueryableSamplesValues logs));
          do '(queries, t3) <- avgTotalTable argTop queries;
          do '(queries, t4) <- maxTotalTable argTop queries;
          do p3 <- orFatal (percentile argPerc (GetPeakSamplesValues logs));
          do '(queries, t5) <- avgPeakTable argTop queries;
          do '(queries, t6) <- maxPeakTable argTop queries;
          Ok {| stdout := [PercentileLine argPerc (FloatValue p1); t1; t2;
                           PercentileLine argPerc (IntValue p2); t3; t4;
                           PercentileLine argPerc (IntValue p3); t5; t6];
                stderr := logged |}
    end.
End Loader.

(** *** Load-statistics revision *)

Module LoadStatsRev.

Record LoadStats : Type := {
  Num : Z;
  From : Time;
  To : Time
}.

Record loader : Type := {
  qMap : gmap string (list LogEntry);
  stats : LoadStats;
  logged : list log_line
}.

Section Loader.
Variable Unmarshal : string → option LogEntry.
Variable rangeOrder : gmap string (list LogEntry) → list (string * list LogEntry).

(** The statements of the loop body after the entry is stored. *)
Definition updateStats (stats : LoadStats) (entry : LogEntry) : outcome LoadStats :=
  let stats := {| Num := wrap64 (Num stats + 1); From := From stats; To := To stats |} in
  do isBefore <- Before (TS entry) (From stats);
  let stats := if isBefore
               then {| Num := Num stats; From := default 0 (TS entry); To := To stats |}
               else stats in
  do isAfter <- After (TS entry) (To stats);
  Ok (if isAfter
      then {| Num := Num stats; From := From stats; To := default 0 (TS entry) |}
      else stats).

Definition scanLine (from to : option Time) (lineNum : Z) (line : string)
    (st : loader) : outcome loader :=
  match Unmarshal line with
  | None => Err (ErrParseLine lineNum)
  | Some entry =>
      if bool_decide (entryQuery entry = "") then
        Ok {| qMap := qMap st; stats := stats st;
              logged := logged st ++ [LogEmptyQuery lineNum] |}
      else
        do early <- beforeFrom from entry;
        if early then Ok st
        else
          do late <- afterTo to entry;
          if late then Ok st
          else
            do stats' <- updateStats (stats st) entry;
            Ok {| qMap := appendTo (qMap st) entry;
                  stats := stats';
                  logged := logged st |}
  end.

Fixpoint scanLines (from to : option Time) (lineNum : Z) (lines : list string)
    (st : loader) : outcome loader :=
  match lines with
  | [] => Ok st
  | line :: rest =>
      do st' <- scanLine from to lineNum line st;
      scanLines from to (lineNum + 1) rest st'
  end.

(** [now] is what [time.Now()] returns when the loader starts; [lines]
    and [scanErr] are the file as the scanner sees it, as above. *)
Definition LoadQueriesFromLog (now : Time) (lines : list string)
    (scanErr : option error) (from to : option Time) :
    outcome (list QueryGroup * LoadStats * list log_line) :=
  do st <- scanLines from to 0 lines
             {| qMap := ∅;
                stats := {| Num := 0; From := now; To := zeroTime |};
                logged := [] |};
  match scanErr with
  | Some err => Err err
  | None =>
      do queries <- rangeNewQuery (rangeOrder (qMap st)) [];
      Ok (queries, stats st, logged st)
  end.

Definition main (now : Time) (argFrom argTo : option Time) (argTop : Z)
    (lines : list string) (scanErr : option error) : outcome report :=
  match LoadQueriesFromLog now lines scanErr argFrom argTo with
  | Err err => Err (FatalParseLog err)
  | Panic p => Panic p
  | Ok (queries, loadStats, logged) =>
      if len queries =? 0 then Err FatalNoQueries
      else
        let logged := logged ++ [LogLoaded (Num loadStats) (Some (From loadStats))
                                   (Some (To loadStats))] in
        let argTop := clampTop argTop queries in
        do '(queries, t1) <- avgExecTable argTop queries;
        do '(queries, t2) <- maxExecTable argTop queries;
        do '(queries, t3) <- avgTotalTable argTop queries;
        do '(queries, t4) <- maxTotalTable argTop queries;
        do '(queries, t5) <- avgPeakTable argTop queries;
        do '(queries, t6) <- maxPeakTable argTop queries;
        Ok {| stdout := [t1; t2; t3; t4; t5; t6]; stderr := logged |}
  end.
End Loader.

End LoadStatsRev.

(** ** Sample log lines

    A handful of query-log lines, written out as the JSON text the program
    reads, and the entries [json.Unmarshal] decodes them to (absent fields
    keep their zero values). *)

Module Sample.

Definition dq : string := String "034"%char EmptyString.
Definition str (s : string) : string := dq +:+ s +:+ dq.
Definition field (k v : string) : string := str k +:+ ":" +:+ v.
Definition obj (fields : list string) : string := "{" +:+ String.concat "," fields +:+ "}".

Definition logLine (query execTotalTime ts : string) : string :=
  obj [field "params" (obj [field "query" (str query)]);
       field "stats" (obj [field "timings" (obj [field "execTotalTime" execTotalTime])]);
       field "ts" (str ts)].

(** Seconds to instants. *)
Definition seconds (s : Z) : Time := s * 1000000000.

(** 2025-01-27T17:21:44Z *)
Definition t0 : Time := seconds 63873595304.

Definition entry (query : string) (execTotalTime : Z) (ts : option Time) : LogEntry :=
  {| params := {| Query := query; Start := None; End_ := None; Step := 0 |};
     stats := {| timings := {| EvalTotalTime := S754_zero false;
                               ExecQueueTime := S754_zero false;
                               ExecTotalTime := f64_of_int execTotalTime;
                               InnerEvalTime := S754_zero false;
                               QueryPreparationTime := S754_zero false;
                               ResultSortTime := S754_zero false |};
                 samples := {| TotalQueryableSamples := 0; PeakSamples := 0 |} |};
     ruleGroup := None;
     TS := ts |}.

Definition lineUp : string := logLine "up" "1" "2025-01-27T17:21:44Z".
Definition lineRate : string := logLine "rate(x[5m])" "2" "2025-01-27T17:22:44Z".
Definition lineUpLater : string := logLine "up" "3" "2025-01-27T17:23:44Z".
Definition lineEmptyQuery : string := logLine "" "4" "2025-01-27T17:24:44Z".
(** No [ts] member. *)
Definition lineNoTS : string := obj [field "params" (obj [field "query" (str "up")])].
(** Not JSON. *)
Definition lineGarbage : string := "level=info msg=started".

Definition entryUp : LogEntry := entry "up" 1 (Some t0).
Definition entryRate : LogEntry := entry "rate(x[5m])" 2 (Some (t0 + seconds 60)).
Definition entryUpLater : LogEntry := entry "up" 3 (Some (t0 + seconds 120)).
Definition entryEmptyQuery : LogEntry := entry "" 4 (Some (t0 + seconds 180)).
Definition entryNoTS : LogEntry := entry "up" 0 None.

(** [json.Unmarshal] on the sample lines. *)
Definition Unmarshal (line : string) : option LogEntry :=
  if bool_decide (line = lineUp) then Some entryUp
  else if bool_decide (line = lineRate) then Some entryRate
  else if bool_decide (line = lineUpLater) then Some entryUpLater
  else if bool_decide (line = lineEmptyQuery) then Some entryEmptyQuery
  else if bool_decide (line = lineNoTS) then Some entryNoTS
  else None.

(** One admissible iteration order. *)
Definition rangeOrder (m : gmap string (list LogEntry)) : list (string * list LogEntry) :=
  map_to_list m.

End Sample.

(** ** Specification-side definitions *)

(** From the specification: a record is excluded when [from] is set and
    its timestamp is before [from], or when [to] is set and its timestamp
    is after [to]; both bounds are inclusive. *)
Definition inWindow (from to : option Time) (t : Time) : bool :=
  match from with Some from => from <=? t | None => true end
  && match to with Some to => t <=? to | None => true end.

(** A record survives the aggregation filter: its query is not empty and
    its timestamp is inside the window. *)
Definition survives (from to : option Time) (e : LogEntry) : bool :=
  negb (bool_decide (entryQuery e = ""))
  && match TS e with Some t => inWindow from to t | None => false end.

(** [e] is the first record of [logs] that achieves the maximum of
    [metric]: no record is greater, and every earlier record is strictly
    smaller. *)
Definition firstMaxBy {M : Type} (lt : M → M → bool) (metric : LogEntry → M)
    (logs : list LogEntry) (e : LogEntry) : Prop :=
  ∃ i : nat,
    logs !! i = Some e
    ∧ (∀ (j : nat) e', logs !! j = Some e' → lt (metric e) (metric e') = false)
    ∧ (∀ (j : nat) e', (j < i)%nat → logs !! j = Some e' → lt (metric e') (metric e) = true).

(** The rows of a printed table. *)
Definition tableRows (t : printed) : list row :=
  match t with
  | Table _ _ rows => rows
  | PercentileLine _ _ => []
  end.

Definition rowQuery (r : row) : string :=
  match r with
  | AvgRow _ _ _ query _ => query
  | MaxRow _ _ _ query _ => query
  end.

(** The six ranking steps of [main]. *)
Definition rankedTables :
    list (Z → list QueryGroup → outcome (list QueryGroup * printed)) :=
  [avgExecTable; maxExecTable; avgTotalTable; maxTotalTable; avgPeakTable; maxPeakTable].

(** What the table printers dereference in a group: the first record, and
    the timestamps of the three maximum records. *)
Definition printable (q : QueryGroup) : Prop :=
  Logs q ≠ []
  ∧ is_Some (TS (MaxExecTotalTimeEntry q))
  ∧ is_Some (TS (MaxTotalQueryableSamplesEntry q))
  ∧ is_Some (TS (MaxPeakSamplesEntry q)).

(** The running maximum of one metric in the loop of [NewQuery]. *)
Definition pickMax {M : Type} (lt : M → M → bool) (metric : LogEntry → M)
    (cur log : LogEntry) : LogEntry :=
  if lt (metric cur) (metric log) then log else cur.

(** A key that orders the numbers of binary64 as [<] does: the class
    (infinities outside, zeros in the middle), then exponent and mantissa. *)
Definition f64_key (x : float64) : Z * Z * Z :=
  match x with
  | S754_zero _ => (0, 0, 0)
  | S754_infinity s => (if s then -2 else 2, 0, 0)
  | S754_nan => (0, 0, 0)
  | S754_finite s m e => if s then (-1, - e, Z.neg m) else (1, e, Z.pos m)
  end.

Definition lex_lt (a b : Z * Z * Z) : Prop :=
  a.1.1 < b.1.1
  ∨ (a.1.1 = b.1.1 ∧ (a.1.2 < b.1.2 ∨ (a.1.2 = b.1.2 ∧ a.2 < b.2))).

(** A decoded record with a non-empty query carries a timestamp. *)
Definition datedEntry (e : LogEntry) : Prop := entryQuery e ≠ "" → is_Some (TS e).

(** Whatever the line decodes to is dated. *)
Definition dated (Unmarshal : string → option LogEntry) (line : string) : Prop :=
  ∀ e, Unmarshal line = Some e → datedEntry e.

(** The lines decode, one by one, to the entries. *)
Definition decodesTo (Unmarshal : string → option LogEntry)
    (lines : list string) (es : list LogEntry) : Prop :=
  Forall2 (λ line e, Unmarshal line = Some e) lines es.

(** The warnings owed to the records with an empty query, the first record
    standing on line [lineNum]. *)
Fixpoint emptyQueryWarnings (lineNum : Z) (es : list LogEntry) : list log_line :=
  match es with
  | [] => []
  | e :: es =>
      (if bool_decide (entryQuery e = "") then [LogEmptyQuery lineNum] else [])
      ++ emptyQueryWarnings (lineNum + 1) es
  end.

(** Every bucket is stored under a non-empty key, is not empty, and holds
    records of that query only. *)
Definition bucketsOk (m : gmap string (list LogEntry)) : Prop :=
  map_Forall (λ k v, k ≠ "" ∧ v ≠ [] ∧ Forall (λ e, entryQuery e = k) v) m.

(** All records of all buckets. *)
Definition bucketRecords (pairs : list (string * list LogEntry)) : list LogEntry :=
  concat (pairs.*2).

(** The two ways the scanning loop changes its variables. *)
Definition keepEntry (st : loader) (e : LogEntry) : loader :=
  {| qMap := appendTo (qMap st) e; logs := logs st ++ [e]; logged := logged st |}.

Definition warnEmptyQuery (st : loader) (lineNum : Z) : loader :=
  {| qMap := qMap st; logs := logs st; logged := logged st ++ [LogEmptyQuery lineNum] |}.

(** The buckets hold exactly the filtered records. *)
Definition loaderOk (st : loader) : Prop :=
  bucketsOk (qMap st) ∧ bucketRecords (map_to_list (qMap st)) ≡ₚ logs st.

(** The lines decode and are dated: nothing in them stops the scan. *)
Definition clean (Unmarshal : string → option LogEntry) (line : string) : Prop :=
  is_Some (Unmarshal line) ∧ dated Unmarshal line.

(** The load statistics after one more record, stamped [t]. *)
Definition countEntry (stats : LoadStatsRev.LoadStats) (t : Time) : LoadStatsRev.LoadStats :=
  {| LoadStatsRev.Num := wrap64 (LoadStatsRev.Num stats + 1);
     LoadStatsRev.From := if t <? LoadStatsRev.From stats then t else LoadStatsRev.From stats;
     LoadStatsRev.To := if LoadStatsRev.To stats <? t then t else LoadStatsRev.To stats |}.

(** The nearest rank in exact arithmetic: the ceiling of [p * n / 100]. *)
Definition nearestRank (p n : Z) : Z := (p * n + 99) `div` 100.

(** What is checked of the index for one rank and one sample count: it is
    the nearest rank or one more, it is at most the count, and it is below
    the count exactly when [n * (100 - p)] reaches [100]. *)
Definition indexChecked (p n : Z) : bool :=
  let k := percentile_index p n in
  (nearestRank p n <=? k) && (k <=? nearestRank p n + 1) && (k <=? n)
  && bool_decide ((k <? n) = (100 <=? n * (100 - p))).

(** The sum of the numbers, in unbounded arithmetic. *)
Definition total (nums : list Z) : Z := foldr Z.add 0 nums.

(** Every bucket is the subsequence of the filtered records that carry
    its key, in arrival order. *)
Definition bucketsInOrder (st : loader) : Prop :=
  ∀ k, default [] (qMap st !! k) = filter (λ e, entryQuery e = k) (logs st).

(** The characters of a string, in order. *)
Fixpoint chars (str : string) : list Ascii.ascii :=
  match str with
  | EmptyString => []
  | String c rest => c :: chars rest
  end.

(** The line feed. *)
Definition LF : Ascii.ascii := "010"%char.

(** The six orders [main] sorts the groups by. *)
Definition rankings : list (QueryGroup → QueryGroup → bool) :=
  [ByAvgExecTotalTime; ByMaxExecTotalTime; ByAvgTotalQueryableSamples;
   ByMaxTotalQueryableSamples; ByAvgPeakSamples; ByMaxPeakSamples].

(** The four binary64 metrics of the group are numbers. *)
Definition numericGroup (q : QueryGroup) : Prop :=
  f64_isNaN (AvgExecTotalTime q) = false
  ∧ f64_isNaN (AvgTotalQueryableSamples q) = false
  ∧ f64_isNaN (AvgPeakSamples q) = false
  ∧ f64_isNaN (execTotalTime (MaxExecTotalTimeEntry q)) = false.

(** Every bucket has a key and a record, and every record a timestamp. *)
Definition stampedBuckets (m : gmap string (list LogEntry)) : Prop :=
  map_Forall (λ k v, k ≠ "" ∧ v ≠ [] ∧ Forall (λ e, is_Some (TS e)) v) m.

(** * Properties *)

(** ** Outcomes and indexing *)

Lemma index_Ok {A : Type} (l : list A) (i : Z) (x : A) :
  index l i = Ok x ↔ 0 ≤ i < len l ∧ l !! Z.to_nat i = Some x.
Proof.
  unfold index, len.
  destruct (0 <=? i) eqn:Hlo; destruct (i <? Z.of_nat (length l)) eqn:Hhi; simpl;
    try (split; [discriminate | intros [? _]; lia]).
  apply Z.leb_le in Hlo. apply Z.ltb_lt in Hhi.
  destruct (l !! Z.to_nat i) as [y|] eqn:Hy.
  - split; [intros [= ->]; split; [lia | done] | intros [_ [= ->]]; done].
  - split; [discriminate | intros [_ ?]; discriminate].
Qed.

Lemma index_in_range {A : Type} (l : list A) (i : Z) :
  0 ≤ i < len l → ∃ x, index l i = Ok x ∧ l !! Z.to_nat i = Some x.
Proof.
  intros Hi. unfold len in Hi.
  destruct (lookup_lt_is_Some_2 l (Z.to_nat i)) as [x Hx]; [lia |].
  exists x. split; [| done]. apply index_Ok. unfold len. done.
Qed.

Lemma index_out_of_range {A : Type} (l : list A) (i : Z) :
  ¬ (0 ≤ i < len l) → index l i = Panic (IndexOutOfRange i (len l)).
Proof.
  intros Hi. unfold index.
  destruct (0 <=? i) eqn:Hlo; destruct (i <? len l) eqn:Hhi; simpl; try done.
  apply Z.leb_le in Hlo. apply Z.ltb_lt in Hhi. lia.
Qed.

(** ** Percentile calculator *)

Lemma int_Less_asym (a b : Z) : cmp_Less a b = true → cmp_Less b a = false.
Proof. simpl. intros Hab. apply Z.ltb_lt in Hab. apply Z.ltb_ge. lia. Qed.

Lemma SFcompare_Lt_Gt (x y : float64) :
  SFcompare x y = Some Lt → SFcompare y x = Some Gt.
Proof.
  destruct x as [sx|sx| |sx mx ex], y as [sy|sy| |sy my ey]; simpl; try done;
    try (destruct sx; done); try (destruct sy; done);
    try (destruct sx, sy; done).
  destruct sx, sy; try done; rewrite (Z.compare_antisym ex ey);
    destruct (ex ?= ey) eqn:He; simpl; try done;
    change (PosDef.Pos.compare_cont Eq mx my) with (mx ?= my)%positive;
    change (PosDef.Pos.compare_cont Eq my mx) with (my ?= mx)%positive;
    rewrite (Pos.compare_antisym mx my);
    destruct (mx ?= my)%positive; simpl; done.
Qed.


Section PercentileFacts.
Context {T : Type} `{Number T}.
Hypothesis Less_asym : ∀ a b : T, cmp_Less a b = true → cmp_Less b a = false.

#[local] Instance ascending_total : Total (ascending (T:=T)).
Proof.
  intros a b. unfold ascending.
  destruct (cmp_Less b a) eqn:Hba; [right; by apply Less_asym | by left].
Qed.

Lemma slices_Sort_sorted (nums : list T) : Sorted ascending (slices_Sort nums).
Proof. apply (Sorted_merge_sort _). Qed.
End PercentileFacts.

Lemma slices_Sort_Permutation {T : Type} `{Number T} (nums : list T) :
  slices_Sort nums ≡ₚ nums.
Proof. apply merge_sort_Permutation. Qed.

Lemma slices_Sort_length {T : Type} `{Number T} (nums : list T) :
  len (slices_Sort nums) = len nums.
Proof. unfold len. by rewrite slices_Sort_Permutation. Qed.

(** Binary64 rounding shows in the index: [7.0/100.0*100.0] is just above
    [7], so the index read is [8]. *)
Lemma percentile_index_rounding : percentile_index 7 100 = 8.
Proof. vm_compute. reflexivity. Qed.

(** C1 (the code departs from the claim).  The claim asks that
    [percentile], for a non-empty sample list and a rank between 1 and
    100, returns an element of the list and never indexes out of bounds.
    The code reads the sorted samples at the 1-based nearest rank as if it
    were a 0-based index: with the default rank 95 and a single sample it
    reads index 1 of a one-element slice and panics; so does every valid
    rank on a single sample, and rank 100 on any list.  With the default
    rank, [main] panics on the sample log of three records. *)
Theorem percentile_valid_rank_out_of_range :
  percentile 95 [5] = Panic (IndexOutOfRange 1 1)
  ∧ Forall (λ p, percentile p [5] = Panic (IndexOutOfRange 1 1)) (seqZ 1 100)
  ∧ percentile 100 [3; 1; 2] = Panic (IndexOutOfRange 3 3)
  ∧ percentile (T:=float64) 95 (GetExecTotalTimeValues [Sample.entryUp; Sample.entryRate])
    = Panic (IndexOutOfRange 2 2)
  ∧ main Sample.Unmarshal Sample.rangeOrder None None 10 95
      [Sample.lineUp; Sample.lineRate; Sample.lineEmptyQuery; Sample.lineUpLater] None
    = Panic (IndexOutOfRange 3 3).
Proof.
  split; [by vm_compute |].
  split; [| repeat split; by vm_compute].
  apply Forall_forall. intros p Hp.
  apply elem_of_seqZ in Hp.
  assert (Hcases : forallb (λ p, percentile_index p 1 =? 1) (seqZ 1 100) = true)
    by (vm_compute; reflexivity).
  rewrite forallb_forall in Hcases.
  specialize (Hcases p (proj1 (list_elem_of_In _ _) (proj2 (elem_of_seqZ _ _ _) Hp))).
  apply Z.eqb_eq in Hcases.
  unfold percentile.
  replace ((p <=? 0) || (100 <? p)) with false
    by (symmetry; apply orb_false_iff; split; [apply Z.leb_gt | apply Z.ltb_ge]; lia).
  change (len [5]) with 1. simpl (1 =? 0). cbv iota.
  rewrite Hcases. reflexivity.
Qed.

(** The index checked by evaluation for every rank and every sample
    count up to 200. *)
Lemma indexChecked_upto_200 :
  forallb (λ p, forallb (λ n, indexChecked p n) (seqZ 1 200)) (seqZ 1 100) = true.
Proof. vm_compute. reflexivity. Qed.

Lemma indexChecked_spec (p n : Z) :
  1 ≤ p ≤ 100 → 1 ≤ n ≤ 200 →
  let k := percentile_index p n in
  nearestRank p n ≤ k ≤ nearestRank p n + 1
  ∧ k ≤ n
  ∧ (k < n ↔ 100 ≤ n * (100 - p)).
Proof.
  intros Hp Hn k.
  pose proof indexChecked_upto_200 as Hall.
  rewrite forallb_forall in Hall.
  assert (Hpin : p ∈ seqZ 1 100) by (apply elem_of_seqZ; lia).
  assert (Hnin : n ∈ seqZ 1 200) by (apply elem_of_seqZ; lia).
  specialize (Hall p (proj1 (list_elem_of_In _ _) Hpin)).
  rewrite forallb_forall in Hall.
  specialize (Hall n (proj1 (list_elem_of_In _ _) Hnin)).
  unfold indexChecked in Hall. fold k in Hall.
  apply andb_true_iff in Hall as [Hall Hiff].
  apply andb_true_iff in Hall as [Hall Hle].
  apply andb_true_iff in Hall as [Hlo Hhi].
  apply Z.leb_le in Hlo, Hhi, Hle. apply bool_decide_eq_true in Hiff.
  split; [lia |]. split; [done |].
  rewrite <- Z.ltb_lt, <- Z.leb_le. by rewrite Hiff.
Qed.




(** ** Query groups *)

Lemma f64_lt_key (x y : float64) :
  f64_isNaN x = false → f64_isNaN y = false →
  f64_lt x y = true ↔ lex_lt (f64_key x) (f64_key y).
Proof.
  intros Hx Hy. unfold f64_lt, SFltb, lex_lt.
  destruct x as [[]|[]| |[] mx ex], y as [[]|[]| |[] my ey]; try done; simpl;
    try (split; intros Hk; first [done | lia | exfalso; lia]).
  all: change (PosDef.Pos.compare_cont Eq mx my) with (mx ?= my)%positive;
    destruct (Z.compare_spec ex ey); destruct (Pos.compare_spec mx my); simpl;
    split; intros Hk; first [done | lia | exfalso; lia].
Qed.

Lemma f64_lt_asym (a b : float64) : f64_lt a b = true → f64_lt b a = false.
Proof.
  unfold f64_lt, SFltb. destruct (SFcompare a b) as [[]|] eqn:Hc; try done.
  by rewrite (SFcompare_Lt_Gt _ _ Hc).
Qed.

Lemma f64_lt_negtrans (a b c : float64) :
  f64_isNaN a = false → f64_isNaN b = false → f64_isNaN c = false →
  f64_lt b c = true → f64_lt b a = false → f64_lt a c = true.
Proof.
  intros Ha Hb Hc Hbc Hba.
  apply (f64_lt_key b c Hb Hc) in Hbc.
  apply (f64_lt_key a c Ha Hc).
  assert (Hnot : ¬ lex_lt (f64_key b) (f64_key a)).
  { intros Hlt. apply (f64_lt_key b a Hb Ha) in Hlt. congruence. }
  unfold lex_lt in *.
  destruct (f64_key a) as [[a1 a2] a3], (f64_key b) as [[b1 b2] b3],
    (f64_key c) as [[c1 c2] c3]. simpl in *. lia.
Qed.

Section FirstMax.
Context {M : Type} (lt : M → M → bool) (metric : LogEntry → M) (good : M → Prop).
Hypothesis lt_asym : ∀ a b, good a → good b → lt a b = true → lt b a = false.
Hypothesis lt_negtrans :
  ∀ a b c, good a → good b → good c → lt b c = true → lt b a = false → lt a c = true.

Lemma lt_irrefl a : good a → lt a a = false.
Proof.
  intros Ha. destruct (lt a a) eqn:Haa; [| done].
  pose proof (lt_asym a a Ha Ha Haa). congruence.
Qed.

Lemma firstMaxBy_snoc (pre : list LogEntry) (cur x : LogEntry) :
  Forall (λ e, good (metric e)) (pre ++ [x]) →
  firstMaxBy lt metric pre cur →
  firstMaxBy lt metric (pre ++ [x]) (pickMax lt metric cur x).
Proof.
  intros Hgood (i & Hi & Hmax & Hfirst).
  apply Forall_app in Hgood as [Hpre Hx]. apply Forall_inv in Hx.
  assert (Hcur : good (metric cur)).
  { rewrite Forall_forall in Hpre. apply Hpre. by eapply list_elem_of_lookup_2. }
  assert (Hin : ∀ (j : nat) e', pre !! j = Some e' → good (metric e')).
  { intros j e' Hj. rewrite Forall_forall in Hpre. apply Hpre.
    by eapply list_elem_of_lookup_2. }
  unfold pickMax. destruct (lt (metric cur) (metric x)) eqn:Hlt.
  - exists (length pre). split; [by rewrite list_lookup_middle |].
    assert (Hbelow : ∀ (j : nat) e', pre !! j = Some e' → lt (metric e') (metric x) = true).
    { intros j e' Hj.
      apply (lt_negtrans (metric e') (metric cur) (metric x)); eauto. }
    split.
    + intros j e' Hj. apply lookup_app_Some in Hj as [Hj | [_ Hj]].
      * apply lt_asym; eauto.
      * apply list_lookup_singleton_Some in Hj as [_ <-]. by apply lt_irrefl.
    + intros j e' Hlen Hj. rewrite lookup_app_l in Hj by done. eauto.
  - exists i. split; [by apply lookup_app_l_Some |].
    split.
    + intros j e' Hj. apply lookup_app_Some in Hj as [Hj | [_ Hj]]; [eauto |].
      by apply list_lookup_singleton_Some in Hj as [_ <-].
    + intros j e' Hlen Hj.
      assert (i < length pre)%nat by (by eapply lookup_lt_Some).
      rewrite lookup_app_l in Hj by lia. eauto.
Qed.

Lemma firstMaxBy_fold (rest pre : list LogEntry) (cur : LogEntry) :
  Forall (λ e, good (metric e)) (pre ++ rest) →
  firstMaxBy lt metric pre cur →
  firstMaxBy lt metric (pre ++ rest) (fold_left (pickMax lt metric) rest cur).
Proof.
  revert pre cur. induction rest as [|x rest IH]; intros pre cur Hgood Hcur; simpl.
  - by rewrite app_nil_r.
  - replace (pre ++ x :: rest) with ((pre ++ [x]) ++ rest) in *
      by (by rewrite <- (assoc_L (++))).
    apply IH; [done |].
    apply firstMaxBy_snoc; [| done].
    by apply Forall_app in Hgood as [? _].
Qed.

Lemma firstMaxBy_loop (first : LogEntry) (rest : list LogEntry) :
  Forall (λ e, good (metric e)) (first :: rest) →
  firstMaxBy lt metric (first :: rest)
    (fold_left (pickMax lt metric) (first :: rest) first).
Proof.
  intros Hgood. simpl.
  assert (Hfirst : good (metric first)) by (by apply Forall_cons in Hgood as [? _]).
  unfold pickMax at 2. rewrite (lt_irrefl _ Hfirst).
  apply (firstMaxBy_fold rest [first] first Hgood).
  exists 0%nat. split; [done |]. split.
  - intros [|j] e' Hj; simpl in Hj; [| done].
    injection Hj as <-. by apply lt_irrefl.
  - intros j e' Hj. lia.
Qed.
End FirstMax.

Lemma newQueryLoop_maxExec (logs : list LogEntry) (v : newQueryLoop) :
  maxExecTotalTimeEntry (fold_left newQueryStep logs v)
  = fold_left (pickMax f64_lt execTotalTime) logs (maxExecTotalTimeEntry v).
Proof. revert v. induction logs as [|log logs IH]; intros v; simpl; [done | by rewrite IH]. Qed.

Lemma newQueryLoop_maxTotal (logs : list LogEntry) (v : newQueryLoop) :
  maxTotalQueryableSamplesEntry (fold_left newQueryStep logs v)
  = fold_left (pickMax Z.ltb totalQueryableSamples) logs (maxTotalQueryableSamplesEntry v).
Proof. revert v. induction logs as [|log logs IH]; intros v; simpl; [done | by rewrite IH]. Qed.

Lemma newQueryLoop_maxPeak (logs : list LogEntry) (v : newQueryLoop) :
  maxPeakSamplesEntry (fold_left newQueryStep logs v)
  = fold_left (pickMax Z.ltb peakSamples) logs (maxPeakSamplesEntry v).
Proof. revert v. induction logs as [|log logs IH]; intros v; simpl; [done | by rewrite IH]. Qed.

Lemma firstMaxBy_int (metric : LogEntry → Z) (first : LogEntry) (rest : list LogEntry) :
  firstMaxBy Z.ltb metric (first :: rest)
    (fold_left (pickMax Z.ltb metric) (first :: rest) first).
Proof.
  apply (firstMaxBy_loop Z.ltb metric (λ _, True)).
  - intros a b _ _ Hab. apply Z.ltb_lt in Hab. apply Z.ltb_ge. lia.
  - intros a b c _ _ _ Hbc Hba. apply Z.ltb_lt in Hbc. apply Z.ltb_ge in Hba.
    apply Z.ltb_lt. lia.
  - by apply Forall_true.
Qed.

(** [NewQuery] succeeds on a non-empty query with at least one record, and
    keeps the query text and the records as given. *)
Lemma NewQuery_Ok (query : string) (logs : list LogEntry) :
  query ≠ "" → logs ≠ [] →
  ∃ q, NewQuery query logs = Ok q ∧ queryText q = query ∧ Logs q = logs.
Proof.
  intros Hq Hlogs. unfold NewQuery. rewrite bool_decide_eq_false_2 by done.
  destruct logs as [|first rest]; [done |]. eexists. split; [done |]. by simpl.
Qed.

(** C7.  For a non-empty record list, each max-metric provenance field of
    the group built by [NewQuery] is the first record, in input order,
    that achieves the maximum of its metric: no record is greater than it
    and every earlier record is strictly smaller (the comparison is the
    strict [>]).  Execution times are numbers, as decoded JSON always is. *)
Theorem NewQuery_max_entries_first_in_input_order (query : string) (logs : list LogEntry) :
  query ≠ "" →
  logs ≠ [] →
  Forall (λ e, f64_isNaN (execTotalTime e) = false) logs →
  ∃ q, NewQuery query logs = Ok q
    ∧ firstMaxBy f64_lt execTotalTime logs (MaxExecTotalTimeEntry q)
    ∧ firstMaxBy Z.ltb totalQueryableSamples logs (MaxTotalQueryableSamplesEntry q)
    ∧ firstMaxBy Z.ltb peakSamples logs (MaxPeakSamplesEntry q).
Proof.
  intros Hq Hlogs Hnum. unfold NewQuery. rewrite bool_decide_eq_false_2 by done.
  destruct logs as [|first rest]; [done |].
  eexists. split; [done |]. cbn [MaxExecTotalTimeEntry MaxTotalQueryableSamplesEntry
                                  MaxPeakSamplesEntry].
  rewrite newQueryLoop_maxExec, newQueryLoop_maxTotal, newQueryLoop_maxPeak.
  cbn [maxExecTotalTimeEntry maxTotalQueryableSamplesEntry maxPeakSamplesEntry].
  split; [| split; apply firstMaxBy_int].
  apply (firstMaxBy_loop f64_lt execTotalTime (λ x, f64_isNaN x = false)); [| | done].
  - intros a b _ _. apply f64_lt_asym.
  - apply f64_lt_negtrans.
Qed.

Lemma NewQuery_max_entries_first_in_input_order_witness :
  ∃ q, NewQuery "up" [Sample.entry "up" 2 (Some 10); Sample.entry "up" 2 (Some 20);
                      Sample.entry "up" 1 (Some 30)] = Ok q
    ∧ MaxExecTotalTimeEntry q = Sample.entry "up" 2 (Some 10).
Proof.
  destruct (NewQuery_max_entries_first_in_input_order "up"
              [Sample.entry "up" 2 (Some 10); Sample.entry "up" 2 (Some 20);
               Sample.entry "up" 1 (Some 30)])
    as (q & Hq & _); [done | done | by repeat constructor |].
  exists q. split; [exact Hq |].
  vm_compute in Hq. injection Hq as <-. reflexivity.
Defined.

(** ** Aggregator: buckets *)

Lemma appendTo_bucketsOk (m : gmap string (list LogEntry)) (e : LogEntry) :
  entryQuery e ≠ "" → bucketsOk m → bucketsOk (appendTo m e).
Proof.
  intros Hq Hm. unfold appendTo. apply map_Forall_insert_2; [| done].
  split; [done |]. split; [by destruct (default [] (m !! entryQuery e)) |].
  apply Forall_app. split; [| by apply Forall_singleton].
  destruct (m !! entryQuery e) as [v|] eqn:Hv; simpl; [| done].
  by destruct (Hm _ _ Hv) as (_ & _ & ?).
Qed.

Lemma appendTo_bucketRecords (m : gmap string (list LogEntry)) (e : LogEntry) :
  bucketRecords (map_to_list (appendTo m e)) ≡ₚ bucketRecords (map_to_list m) ++ [e].
Proof.
  unfold appendTo, bucketRecords.
  destruct (m !! entryQuery e) as [v|] eqn:Hv; simpl.
  - rewrite <- (insert_delete_eq m).
    rewrite map_to_list_insert by apply lookup_delete_eq.
    rewrite <- (map_to_list_delete m _ _ Hv).
    rewrite !fmap_cons. simpl.
    rewrite <- !(assoc_L (++)). apply Permutation_app_head, Permutation_app_comm.
  - rewrite map_to_list_insert by done.
    rewrite fmap_cons. simpl. apply Permutation_cons_append.
Qed.

Lemma rangeNewQuery_Ok (pairs : list (string * list LogEntry)) (acc : list QueryGroup) :
  Forall (λ kv, kv.1 ≠ "" ∧ kv.2 ≠ []) pairs →
  ∃ qs, rangeNewQuery pairs acc = Ok (acc ++ qs)
    ∧ Forall2 (λ kv q, queryText q = kv.1 ∧ Logs q = kv.2) pairs qs.
Proof.
  revert acc. induction pairs as [|[k v] pairs IH]; intros acc Hall; simpl.
  - exists []. by rewrite app_nil_r.
  - apply Forall_cons in Hall as [[Hk Hv] Hall]. simpl in Hk, Hv.
    destruct (NewQuery_Ok k v Hk Hv) as (q & -> & Hqk & Hqv).
    destruct (IH (acc ++ [q]) Hall) as (qs & -> & Hqs).
    exists (q :: qs). rewrite <- (assoc_L (++)). split; [done |].
    by constructor.
Qed.

Lemma rangeNewQuery_no_panic (pairs : list (string * list LogEntry))
    (acc : list QueryGroup) :
  is_Panic (rangeNewQuery pairs acc) = false.
Proof.
  revert acc. induction pairs as [|[k v] pairs IH]; intros acc; simpl; [done |].
  unfold NewQuery. case_bool_decide; [done |]. destruct v; [done | apply IH].
Qed.

Lemma groups_of_pairs (pairs : list (string * list LogEntry)) (qs : list QueryGroup) :
  Forall2 (λ kv q, queryText q = kv.1 ∧ Logs q = kv.2) pairs qs →
  queryText <$> qs = pairs.*1 ∧ Logs <$> qs = pairs.*2.
Proof.
  induction 1 as [|[k v] q pairs qs [Hk Hv] _ [IH1 IH2]]; [done |].
  rewrite !fmap_cons. simpl in Hk, Hv. simpl. by rewrite Hk, Hv, IH1, IH2.
Qed.

(** ** Aggregator: the scanning loop *)

Lemma survives_empty from to (e : LogEntry) :
  entryQuery e = "" → survives from to e = false.
Proof. intros Hq. unfold survives. by rewrite bool_decide_eq_true_2. Qed.

Lemma survives_dated from to (e : LogEntry) (t : Time) :
  entryQuery e ≠ "" → TS e = Some t → survives from to e = inWindow from to t.
Proof. intros Hq Ht. unfold survives. by rewrite bool_decide_eq_false_2, Ht. Qed.

Section LoaderFacts.
Variable Unmarshal : string → option LogEntry.
Implicit Types (st : loader) (from to : option Time) (lines : list string).

Lemma scanLine_decoded from to (n : Z) (line : string) st (e : LogEntry) :
  Unmarshal line = Some e →
  scanLine Unmarshal from to n line st =
    if bool_decide (entryQuery e = "") then Ok (warnEmptyQuery st n)
    else match TS e with
         | Some t => Ok (if inWindow from to t then keepEntry st e else st)
         | None =>
             match from, to with
             | None, None => Ok (keepEntry st e)
             | _, _ => Panic NilDereference
             end
         end.
Proof.
  intros He. unfold scanLine. rewrite He. case_bool_decide; [done |].
  unfold beforeFrom, afterTo, Before, After, inWindow, keepEntry.
  destruct from as [f|], to as [u|], (TS e) as [t|]; simpl; try done.
  - destruct (Z.ltb_spec t f), (Z.leb_spec f t); try lia; simpl; [done |].
    destruct (Z.ltb_spec u t), (Z.leb_spec t u); try lia; done.
  - destruct (Z.ltb_spec t f), (Z.leb_spec f t); try lia; done.
  - destruct (Z.ltb_spec u t), (Z.leb_spec t u); try lia; done.
Qed.

Lemma scanLine_malformed from to (n : Z) (line : string) st :
  Unmarshal line = None →
  scanLine Unmarshal from to n line st = Err (ErrParseLine n).
Proof. intros He. unfold scanLine. by rewrite He. Qed.

Lemma scanLines_app from to (n : Z) lines1 lines2 st :
  scanLines Unmarshal from to n (lines1 ++ lines2) st =
    do st' <- scanLines Unmarshal from to n lines1 st;
    scanLines Unmarshal from to (n + len lines1) lines2 st'.
Proof.
  revert n st. induction lines1 as [|line lines1 IH]; intros n st; simpl.
  - by rewrite Z.add_0_r.
  - destruct (scanLine Unmarshal from to n line st) as [st1| |]; simpl; [| done..].
    rewrite IH. unfold len. simpl length.
    by replace (n + 1 + Z.of_nat (length lines1)) with (n + Z.of_nat (S (length lines1))) by lia.
Qed.

(** A run over lines that decode to dated entries: what it keeps and what
    it logs. *)
Lemma scanLines_decoded from to (n : Z) lines (es : list LogEntry) st :
  decodesTo Unmarshal lines es →
  Forall datedEntry es →
  ∃ st', scanLines Unmarshal from to n lines st = Ok st'
    ∧ qMap st' = foldl appendTo (qMap st) (filter (λ e, survives from to e) es)
    ∧ logs st' = logs st ++ filter (λ e, survives from to e) es
    ∧ logged st' = logged st ++ emptyQueryWarnings n es.
Proof.
  intros Hdec. revert n st.
  induction Hdec as [|line e lines es He _ IH]; intros n st Hdated; simpl.
  - exists st. by rewrite !app_nil_r.
  - apply Forall_cons in Hdated as [Hdate Hdated].
    rewrite (scanLine_decoded _ _ _ _ _ _ He). unfold datedEntry in Hdate.
    case_bool_decide as Hq; simpl.
    + destruct (IH (n + 1) (warnEmptyQuery st n) Hdated) as (st' & -> & Hm & Hl & Hw).
      exists st'. rewrite filter_cons_False
        by (rewrite survives_empty by done; simpl; tauto).
      simpl in *. rewrite Hw, <- (assoc_L (++)). done.
    + destruct (Hdate Hq) as [t Ht]. rewrite Ht.
      destruct (inWindow from to t) eqn:Hwin; simpl.
      * destruct (IH (n + 1) (keepEntry st e) Hdated) as (st' & -> & Hm & Hl & Hw).
        exists st'. rewrite filter_cons_True
          by (rewrite (survives_dated _ _ _ t), Hwin by done; done).
        simpl in *. rewrite Hl, <- (assoc_L (++)). done.
      * destruct (IH (n + 1) st Hdated) as (st' & -> & Hm & Hl & Hw).
        exists st'. rewrite filter_cons_False
          by (rewrite (survives_dated _ _ _ t), Hwin by done; simpl; tauto).
        done.
Qed.

Lemma scanLine_loaderOk from to (n : Z) (line : string) st st' :
  scanLine Unmarshal from to n line st = Ok st' → loaderOk st → loaderOk st'.
Proof.
  intros Hstep [Hb Hc]. destruct (Unmarshal line) as [e|] eqn:He.
  - rewrite (scanLine_decoded _ _ _ _ _ _ He) in Hstep.
    assert (Hkeep : entryQuery e ≠ "" → loaderOk (keepEntry st e)).
    { intros Hq. split; simpl; [by apply appendTo_bucketsOk |].
      by rewrite appendTo_bucketRecords, Hc. }
    case_bool_decide as Hq; [by injection Hstep as <- |].
    destruct (TS e) as [t|].
    + injection Hstep as <-. destruct (inWindow from to t); [by apply Hkeep | done].
    + destruct from, to; try done. injection Hstep as <-. by apply Hkeep.
  - by rewrite scanLine_malformed in Hstep.
Qed.

Lemma scanLines_loaderOk from to (n : Z) lines st st' :
  scanLines Unmarshal from to n lines st = Ok st' → loaderOk st → loaderOk st'.
Proof.
  revert n st. induction lines as [|line lines IH]; intros n st; simpl.
  - by intros [= <-].
  - destruct (scanLine Unmarshal from to n line st) as [st1| |] eqn:Hstep; simpl; [| done..].
    intros Hrest Hok. eapply IH; [done |]. by eapply scanLine_loaderOk.
Qed.

(** Line numbers only show in the log and in the error: a step that
    succeeds on line [n] succeeds under any other line number, with the same
    buckets and records. *)
Lemma scanLine_renumber from to (n m : Z) (line : string) st1 st2 st1' :
  scanLine Unmarshal from to n line st1 = Ok st1' →
  qMap st2 = qMap st1 → logs st2 = logs st1 →
  ∃ st2' more, scanLine Unmarshal from to m line st2 = Ok st2'
    ∧ qMap st2' = qMap st1' ∧ logs st2' = logs st1'
    ∧ logged st2' = logged st2 ++ more.
Proof.
  intros Hstep Hm Hl.
  destruct (Unmarshal line) as [e|] eqn:He; [| by rewrite scanLine_malformed in Hstep].
  rewrite (scanLine_decoded _ _ _ _ _ _ He) in Hstep.
  rewrite (scanLine_decoded _ _ m _ st2 _ He).
  assert (Hkeep : ∃ st2' more, Ok (keepEntry st2 e) = Ok st2'
            ∧ qMap st2' = qMap (keepEntry st1 e) ∧ logs st2' = logs (keepEntry st1 e)
            ∧ logged st2' = logged st2 ++ more).
  { exists (keepEntry st2 e), []. simpl. by rewrite Hm, Hl, app_nil_r. }
  assert (Hsame : ∃ st2' more, Ok st2 = Ok st2'
            ∧ qMap st2' = qMap st1 ∧ logs st2' = logs st1
            ∧ logged st2' = logged st2 ++ more).
  { exists st2, []. by rewrite app_nil_r. }
  case_bool_decide as Hq.
  { injection Hstep as <-. by exists (warnEmptyQuery st2 m), [LogEmptyQuery m]. }
  destruct (TS e) as [t|].
  - injection Hstep as <-. by destruct (inWindow from to t).
  - destruct from, to; try done. by injection Hstep as <-.
Qed.

Lemma scanLines_renumber from to (n m : Z) lines st1 st2 st1' :
  scanLines Unmarshal from to n lines st1 = Ok st1' →
  qMap st2 = qMap st1 → logs st2 = logs st1 →
  ∃ st2' more, scanLines Unmarshal from to m lines st2 = Ok st2'
    ∧ qMap st2' = qMap st1' ∧ logs st2' = logs st1'
    ∧ logged st2' = logged st2 ++ more.
Proof.
  revert n m st1 st2. induction lines as [|line lines IH]; intros n m st1 st2; simpl.
  - intros [= <-] Hm Hl. exists st2, []. by rewrite app_nil_r.
  - destruct (scanLine Unmarshal from to n line st1) as [st1a| |] eqn:Hstep; simpl; [| done..].
    intros Hrest Hm Hl.
    destruct (scanLine_renumber _ _ _ m _ _ st2 _ Hstep Hm Hl)
      as (st2a & more1 & -> & Hma & Hla & Hwa). simpl.
    destruct (IH _ (m + 1) _ st2a Hrest Hma Hla) as (st2' & more & -> & ? & ? & Hw).
    exists st2', (more1 ++ more). rewrite Hw, Hwa, <- (assoc_L (++)). done.
Qed.

(** A run never panics on dated lines. *)
Lemma scanLines_dated_no_panic from to (n : Z) lines st :
  Forall (dated Unmarshal) lines →
  is_Panic (scanLines Unmarshal from to n lines st) = false.
Proof.
  revert n st. induction lines as [|line lines IH]; intros n st Hdated; simpl; [done |].
  apply Forall_cons in Hdated as [Hdate Hdated].
  destruct (Unmarshal line) as [e|] eqn:He; [| by rewrite scanLine_malformed].
  rewrite (scanLine_decoded _ _ _ _ _ _ He).
  case_bool_decide as Hq; simpl; [by apply IH |].
  destruct (Hdate e He Hq) as [t ->]. simpl. by apply IH.
Qed.
Lemma scanLines_clean from to (n : Z) lines st :
  Forall (clean Unmarshal) lines →
  ∃ st', scanLines Unmarshal from to n lines st = Ok st'.
Proof.
  revert n st. induction lines as [|line lines IH]; intros n st Hclean; simpl; [by eexists |].
  apply Forall_cons in Hclean as [[[e He] Hdate] Hclean].
  rewrite (scanLine_decoded _ _ _ _ _ _ He).
  case_bool_decide as Hq; simpl; [by apply IH |].
  destruct (Hdate e He Hq) as [t ->]. simpl. by apply IH.
Qed.
End LoaderFacts.

Section LoadStatsFacts.
Variable Unmarshal : string → option LogEntry.
Implicit Types (st : LoadStatsRev.loader) (from to : option Time) (lines : list string).

Lemma updateStats_dated (stats : LoadStatsRev.LoadStats) (e : LogEntry) (t : Time) :
  TS e = Some t → LoadStatsRev.updateStats stats e = Ok (countEntry stats t).
Proof.
  intros Ht. unfold LoadStatsRev.updateStats, countEntry, Before, After.
  rewrite Ht. simpl.
  destruct (t <? LoadStatsRev.From stats); simpl;
    by destruct (LoadStatsRev.To stats <? t).
Qed.

Lemma LoadStats_scanLine_decoded from to (n : Z) (line : string) st (e : LogEntry) :
  Unmarshal line = Some e →
  LoadStatsRev.scanLine Unmarshal from to n line st =
    if bool_decide (entryQuery e = "") then
      Ok {| LoadStatsRev.qMap := LoadStatsRev.qMap st;
            LoadStatsRev.stats := LoadStatsRev.stats st;
            LoadStatsRev.logged := LoadStatsRev.logged st ++ [LogEmptyQuery n] |}
    else match TS e with
         | Some t =>
             Ok (if inWindow from to t
                 then {| LoadStatsRev.qMap := appendTo (LoadStatsRev.qMap st) e;
                         LoadStatsRev.stats := countEntry (LoadStatsRev.stats st) t;
                         LoadStatsRev.logged := LoadStatsRev.logged st |}
                 else st)
         | None => Panic NilDereference
         end.
Proof.
  intros He. unfold LoadStatsRev.scanLine. rewrite He. case_bool_decide; [done |].
  destruct (TS e) as [t|] eqn:Ht.
  - rewrite (updateStats_dated _ _ _ Ht).
    unfold beforeFrom, afterTo, Before, After, inWindow. rewrite Ht.
    destruct from as [f|], to as [u|]; simpl; try done.
    + destruct (Z.ltb_spec t f), (Z.leb_spec f t); try lia; simpl; [done |].
      destruct (Z.ltb_spec u t), (Z.leb_spec t u); try lia; done.
    + destruct (Z.ltb_spec t f), (Z.leb_spec f t); try lia; done.
    + destruct (Z.ltb_spec u t), (Z.leb_spec t u); try lia; done.
  - unfold beforeFrom, afterTo, Before, After, LoadStatsRev.updateStats. rewrite Ht.
    by destruct from, to.
Qed.

Lemma LoadStats_scanLine_malformed from to (n : Z) (line : string) st :
  Unmarshal line = None →
  LoadStatsRev.scanLine Unmarshal from to n line st = Err (ErrParseLine n).
Proof. intros He. unfold LoadStatsRev.scanLine. by rewrite He. Qed.

Lemma LoadStats_scanLines_app from to (n : Z) lines1 lines2 st :
  LoadStatsRev.scanLines Unmarshal from to n (lines1 ++ lines2) st =
    do st' <- LoadStatsRev.scanLines Unmarshal from to n lines1 st;
    LoadStatsRev.scanLines Unmarshal from to (n + len lines1) lines2 st'.
Proof.
  revert n st. induction lines1 as [|line lines1 IH]; intros n st; simpl.
  - by rewrite Z.add_0_r.
  - destruct (LoadStatsRev.scanLine Unmarshal from to n line st) as [st1| |]; simpl;
      [| done..].
    rewrite IH. unfold len. simpl length.
    by replace (n + 1 + Z.of_nat (length lines1)) with (n + Z.of_nat (S (length lines1))) by lia.
Qed.

Lemma LoadStats_scanLines_clean from to (n : Z) lines st :
  Forall (clean Unmarshal) lines →
  ∃ st', LoadStatsRev.scanLines Unmarshal from to n lines st = Ok st'.
Proof.
  revert n st. induction lines as [|line lines IH]; intros n st Hclean; simpl; [by eexists |].
  apply Forall_cons in Hclean as [[[e He] Hdate] Hclean].
  rewrite (LoadStats_scanLine_decoded _ _ _ _ _ _ He).
  case_bool_decide as Hq; simpl; [by apply IH |].
  destruct (Hdate e He Hq) as [t ->]. simpl. by apply IH.
Qed.

Lemma LoadStats_scanLines_dated_no_panic from to (n : Z) lines st :
  Forall (dated Unmarshal) lines →
  is_Panic (LoadStatsRev.scanLines Unmarshal from to n lines st) = false.
Proof.
  revert n st. induction lines as [|line lines IH]; intros n st Hdated; simpl; [done |].
  apply Forall_cons in Hdated as [Hdate Hdated].
  destruct (Unmarshal line) as [e|] eqn:He; [| by rewrite LoadStats_scanLine_malformed].
  rewrite (LoadStats_scanLine_decoded _ _ _ _ _ _ He).
  case_bool_decide as Hq; simpl; [by apply IH |].
  destruct (Hdate e He Hq) as [t ->]. simpl. by apply IH.
Qed.
End LoadStatsFacts.

(** ** Aggregator: the whole load *)

Lemma LoadQueriesFromLog_scanned (Unmarshal : string → option LogEntry)
    (rangeOrder : gmap string (list LogEntry) → list (string * list LogEntry))
    (lines : list string) (from to : option Time) (st : loader) :
  scanLines Unmarshal from to 0 lines {| qMap := ∅; logs := []; logged := [] |} = Ok st →
  LoadQueriesFromLog Unmarshal rangeOrder lines None from to =
    do queries <- rangeNewQuery (rangeOrder (qMap st)) [];
    Ok (queries, logs st, logged st).
Proof. intros Hscan. unfold LoadQueriesFromLog. by rewrite Hscan. Qed.

(** A load that succeeds has read the file to its end. *)
Lemma LoadQueriesFromLog_Ok_scanErr (Unmarshal : string → option LogEntry)
    (rangeOrder : gmap string (list LogEntry) → list (string * list LogEntry))
    (lines : list string) (scanErr : option error) (from to : option Time) r :
  LoadQueriesFromLog Unmarshal rangeOrder lines scanErr from to = Ok r → scanErr = None.
Proof.
  unfold LoadQueriesFromLog.
  destruct (scanLines _ _ _ _ _ _) as [st| |]; simpl; [| done..].
  by destruct scanErr.
Qed.

Lemma LoadStats_LoadQueriesFromLog_Ok_scanErr (Unmarshal : string → option LogEntry)
    (rangeOrder : gmap string (list LogEntry) → list (string * list LogEntry))
    (now : Time) (lines : list string) (scanErr : option error) (from to : option Time) r :
  LoadStatsRev.LoadQueriesFromLog Unmarshal rangeOrder now lines scanErr from to = Ok r →
  scanErr = None.
Proof.
  unfold LoadStatsRev.LoadQueriesFromLog.
  destruct (LoadStatsRev.scanLines _ _ _ _ _ _) as [st| |]; simpl; [| done..].
  by destruct scanErr.
Qed.

Lemma LoadQueriesFromLog_Ok_inv (Unmarshal : string → option LogEntry)
    (rangeOrder : gmap string (list LogEntry) → list (string * list LogEntry))
    (lines : list string) (scanErr : option error) (from to : option Time) qs ls lg :
  LoadQueriesFromLog Unmarshal rangeOrder lines scanErr from to = Ok (qs, ls, lg) →
  ∃ st, scanLines Unmarshal from to 0 lines {| qMap := ∅; logs := []; logged := [] |} = Ok st
    ∧ rangeNewQuery (rangeOrder (qMap st)) [] = Ok qs
    ∧ ls = logs st ∧ lg = logged st.
Proof.
  unfold LoadQueriesFromLog.
  destruct (scanLines _ _ _ _ _ _) as [st| |] eqn:Hscan; simpl; [| done..].
  destruct scanErr; [done |].
  destruct (rangeNewQuery _ _) as [qs'| |] eqn:Hqs; simpl; [| done..].
  intros [= <- <- <-]. by exists st.
Qed.

Lemma loaderOk_initial : loaderOk {| qMap := ∅; logs := []; logged := [] |}.
Proof.
  split; simpl; [apply map_Forall_empty |].
  unfold bucketRecords. by rewrite map_to_list_empty.
Qed.

(** The groups built from the buckets of a sound loader state. *)
Lemma loaderOk_groups
    (rangeOrder : gmap string (list LogEntry) → list (string * list LogEntry))
    (st : loader) :
  (∀ m, rangeOrder m ≡ₚ map_to_list m) →
  loaderOk st →
  ∃ qs, rangeNewQuery (rangeOrder (qMap st)) [] = Ok qs
    ∧ concat (Logs <$> qs) ≡ₚ logs st
    ∧ NoDup (queryText <$> qs)
    ∧ Forall (λ q, Forall (λ e, entryQuery e = queryText q) (Logs q)) qs.
Proof.
  intros Hperm [Hb Hc].
  assert (Hpairs : Forall (λ kv, kv.1 ≠ "" ∧ kv.2 ≠ []
                            ∧ Forall (λ e, entryQuery e = kv.1) kv.2)
                     (rangeOrder (qMap st))).
  { rewrite Hperm. apply Forall_forall. intros [k v] Hkv.
    apply elem_of_map_to_list in Hkv. exact (Hb k v Hkv). }
  destruct (rangeNewQuery_Ok (rangeOrder (qMap st)) []) as (qs & Hqs & Hrel).
  { eapply Forall_impl; [exact Hpairs |]. intros kv (? & ? & _). done. }
  exists qs. split; [done |].
  destruct (groups_of_pairs _ _ Hrel) as [Hkeys Hlogs].
  split; [| split].
  - rewrite Hlogs, <- Hc. unfold bucketRecords. by rewrite Hperm.
  - rewrite Hkeys, Hperm. apply NoDup_fst_map_to_list.
  - clear Hqs Hkeys Hlogs. induction Hrel as [|[k v] q pairs qs' [Hk Hv] _ IH]; [done |].
    apply Forall_cons in Hpairs as [(_ & _ & Hall) Hpairs]. simpl in *.
    constructor; [by rewrite Hk, Hv | by apply IH].
Qed.

(** C6.  Whenever the load succeeds, the records held by the query groups,
    taken together, are the filtered record list up to order (none is
    duplicated or dropped), no two groups share a query text, and every
    record of a group has exactly the query text of that group: each
    surviving record lies in exactly one bucket, the one keyed by its
    query. *)
Theorem groups_partition_filtered_records
    (Unmarshal : string → option LogEntry)
    (rangeOrder : gmap string (list LogEntry) → list (string * list LogEntry))
    (lines : list string) (scanErr : option error) (from to : option Time)
    (queries : list QueryGroup) (logs : list LogEntry) (logged : list log_line) :
  (∀ m, rangeOrder m ≡ₚ map_to_list m) →
  LoadQueriesFromLog Unmarshal rangeOrder lines scanErr from to = Ok (queries, logs, logged) →
  concat (Logs <$> queries) ≡ₚ logs
  ∧ NoDup (queryText <$> queries)
  ∧ Forall (λ q, Forall (λ e, entryQuery e = queryText q) (Logs q)) queries
  ∧ (∀ e, e ∈ logs → ∃ q, q ∈ queries ∧ queryText q = entryQuery e ∧ e ∈ Logs q).
Proof.
  intros Hperm Hload.
  apply LoadQueriesFromLog_Ok_inv in Hload as (st & Hscan & Hqs & -> & ->).
  pose proof (scanLines_loaderOk _ _ _ _ _ _ _ Hscan loaderOk_initial) as Hok.
  destruct (loaderOk_groups rangeOrder st Hperm Hok) as (qs & Hqs' & Hcover & Hnodup & Hkeys).
  rewrite Hqs in Hqs'. injection Hqs' as <-.
  split; [done |]. split; [done |]. split; [done |].
  intros e He. rewrite <- Hcover in He.
  apply list_elem_of_In, in_concat in He as (l & Hl & He).
  apply list_elem_of_In in Hl, He.
  apply list_elem_of_fmap in Hl as (q & -> & Hq).
  exists q. split; [done |]. split; [| done].
  rewrite Forall_forall in Hkeys. specialize (Hkeys q Hq).
  rewrite Forall_forall in Hkeys. symmetry. by apply Hkeys.
Qed.

Lemma groups_partition_filtered_records_witness :
  ∃ queries logs logged,
    LoadQueriesFromLog Sample.Unmarshal Sample.rangeOrder
      [Sample.lineUp; Sample.lineRate; Sample.lineEmptyQuery; Sample.lineUpLater] None
      None None = Ok (queries, logs, logged)
    ∧ logs = [Sample.entryUp; Sample.entryRate; Sample.entryUpLater]
    ∧ concat (Logs <$> queries) ≡ₚ logs.
Proof.
  destruct (LoadQueriesFromLog Sample.Unmarshal Sample.rangeOrder
              [Sample.lineUp; Sample.lineRate; Sample.lineEmptyQuery; Sample.lineUpLater] None
              None None) as [[[queries logs] logged]| |] eqn:Hload;
    [| vm_compute in Hload; discriminate..].
  exists queries, logs, logged. split; [done |]. split.
  - vm_compute in Hload. by injection Hload as _ <- _.
  - eapply (groups_partition_filtered_records Sample.Unmarshal Sample.rangeOrder);
      [intros m; reflexivity | exact Hload].
Defined.

(** C3 (as stated, refuted).  The claim has the error carry the 1-based
    number of the malformed line.  The loop counts lines from 0: a first
    line that does not parse is reported as line 0, and a second one as
    line 1. *)
Lemma malformed_line_number_is_not_one_based :
  LoadQueriesFromLog Sample.Unmarshal Sample.rangeOrder [Sample.lineGarbage] None None None
    ≠ Err (ErrParseLine 1)
  ∧ LoadQueriesFromLog Sample.Unmarshal Sample.rangeOrder
      [Sample.lineUp; Sample.lineGarbage] None None None
    ≠ Err (ErrParseLine 2)
  ∧ LoadStatsRev.LoadQueriesFromLog Sample.Unmarshal Sample.rangeOrder Sample.t0
      [Sample.lineGarbage] None None None
    ≠ Err (ErrParseLine 1).
Proof. repeat split; vm_compute; discriminate. Qed.

(** C3 (amended).  When a line does not parse and the lines before it are
    clean, the load stops there and fails with an error that carries the
    0-based number of that line (the count of lines before it), whatever
    follows it: no later line is processed.  Both revisions. *)
Theorem malformed_line_aborts_with_zero_based_number
    (Unmarshal : string → option LogEntry)
    (rangeOrder : gmap string (list LogEntry) → list (string * list LogEntry))
    (now : Time) (before : list string) (bad : string) (after : list string)
    (scanErr : option error) (from to : option Time) :
  Forall (clean Unmarshal) before →
  Unmarshal bad = None →
  LoadQueriesFromLog Unmarshal rangeOrder (before ++ bad :: after) scanErr from to
    = Err (ErrParseLine (len before))
  ∧ LoadStatsRev.LoadQueriesFromLog Unmarshal rangeOrder now (before ++ bad :: after)
      scanErr from to
    = Err (ErrParseLine (len before)).
Proof.
  intros Hclean Hbad. split.
  - unfold LoadQueriesFromLog. rewrite scanLines_app.
    destruct (scanLines_clean Unmarshal from to 0 before
                {| qMap := ∅; logs := []; logged := [] |} Hclean) as [st ->].
    simpl. by rewrite scanLine_malformed.
  - unfold LoadStatsRev.LoadQueriesFromLog. rewrite LoadStats_scanLines_app.
    destruct (LoadStats_scanLines_clean Unmarshal from to 0 before
                {| LoadStatsRev.qMap := ∅;
                   LoadStatsRev.stats := {| LoadStatsRev.Num := 0; LoadStatsRev.From := now;
                                            LoadStatsRev.To := zeroTime |};
                   LoadStatsRev.logged := [] |} Hclean) as [st ->].
    simpl. by rewrite LoadStats_scanLine_malformed.
Qed.

Lemma sample_lines_clean :
  Forall (clean Sample.Unmarshal)
    [Sample.lineUp; Sample.lineRate; Sample.lineEmptyQuery; Sample.lineUpLater].
Proof.
  repeat constructor; try (by eexists);
    intros e He; vm_compute in He; injection He as <-; intros _; by eexists.
Qed.

Lemma malformed_line_aborts_with_zero_based_number_witness :
  LoadQueriesFromLog Sample.Unmarshal Sample.rangeOrder
    ([Sample.lineUp; Sample.lineRate; Sample.lineEmptyQuery; Sample.lineUpLater]
       ++ Sample.lineGarbage :: [Sample.lineUp]) None None None
  = Err (ErrParseLine 4).
Proof.
  exact (proj1 (malformed_line_aborts_with_zero_based_number
                  Sample.Unmarshal Sample.rangeOrder Sample.t0
                  [Sample.lineUp; Sample.lineRate; Sample.lineEmptyQuery; Sample.lineUpLater]
                  Sample.lineGarbage [Sample.lineUp] None None None
                  sample_lines_clean eq_refl)).
Defined.

(** C4.  A line that decodes to a record with an empty query is skipped
    with a warning and the run goes on: inserting such a line anywhere in
    an input that loads leaves the load successful, with the same groups
    and the same filtered records (the record is in neither), and the log
    gets the warning for that line. *)
Theorem empty_query_line_skipped_with_warning
    (Unmarshal : string → option LogEntry)
    (rangeOrder : gmap string (list LogEntry) → list (string * list LogEntry))
    (before : list string) (line : string) (after : list string) (entry : LogEntry)
    (scanErr : option error) (from to : option Time)
    (queries : list QueryGroup) (logs : list LogEntry) (logged : list log_line) :
  Unmarshal line = Some entry →
  entryQuery entry = "" →
  LoadQueriesFromLog Unmarshal rangeOrder (before ++ after) scanErr from to
    = Ok (queries, logs, logged) →
  ∃ logged',
    LoadQueriesFromLog Unmarshal rangeOrder (before ++ line :: after) scanErr from to
      = Ok (queries, logs, logged')
    ∧ LogEmptyQuery (len before) ∈ logged'.
Proof.
  intros He Hq Hload.
  pose proof (LoadQueriesFromLog_Ok_scanErr _ _ _ _ _ _ _ Hload) as ->.
  apply LoadQueriesFromLog_Ok_inv in Hload as (st & Hscan & Hqs & -> & ->).
  rewrite scanLines_app in Hscan.
  destruct (scanLines Unmarshal from to 0 before _) as [st1| |] eqn:Hbefore; simpl in Hscan;
    [| done..].
  destruct (scanLines_renumber Unmarshal from to _ (0 + len before + 1) after
              st1 (warnEmptyQuery st1 (0 + len before)) st Hscan eq_refl eq_refl)
    as (st' & more & Hafter & Hm & Hl & Hw).
  exists (logged st').
  unfold LoadQueriesFromLog. rewrite scanLines_app, Hbefore. simpl.
  rewrite (scanLine_decoded _ _ _ _ _ _ _ He), bool_decide_eq_true_2 by done. simpl.
  rewrite Hafter. simpl. rewrite Hm, Hqs. simpl. rewrite Hl.
  split; [done |]. rewrite Hw. simpl. set_solver.
Qed.

Lemma empty_query_line_skipped_with_warning_witness :
  LoadQueriesFromLog Sample.Unmarshal Sample.rangeOrder [Sample.lineEmptyQuery] None None None
  = Ok ([], [], [LogEmptyQuery 0]).
Proof.
  destruct (empty_query_line_skipped_with_warning Sample.Unmarshal Sample.rangeOrder
              [] Sample.lineEmptyQuery [] Sample.entryEmptyQuery None None None [] [] [])
    as (logged' & Hload & _); [done | done | done |].
  change ([] ++ [Sample.lineEmptyQuery]) with [Sample.lineEmptyQuery] in Hload.
  rewrite Hload. vm_compute in Hload. by injection Hload as <-.
Defined.

Lemma survives_iff from to (e : LogEntry) :
  datedEntry e →
  survives from to e = true ↔
    entryQuery e ≠ ""
    ∧ ∃ t, TS e = Some t ∧ (∀ f, from = Some f → f ≤ t) ∧ (∀ u, to = Some u → t ≤ u).
Proof.
  intros Hdate. destruct (decide (entryQuery e = "")) as [Hq | Hq].
  - rewrite survives_empty by done. split; [done | by intros [? _]].
  - destruct (Hdate Hq) as [t Ht]. rewrite (survives_dated _ _ _ t) by done.
    unfold inWindow. rewrite andb_true_iff. split.
    + intros [Hf Hu]. split; [done |]. exists t. split; [done |].
      split; [intros f -> | intros u ->]; by apply Z.leb_le.
    + intros (_ & t' & Ht' & Hf & Hu). rewrite Ht in Ht'. injection Ht' as <-.
      split; [destruct from as [f|] | destruct to as [u|]]; try done; apply Z.leb_le; auto.
Qed.

(** C5.  When the lines decode to dated records (and the scanner reaches
    the end of the file without an error), the load keeps exactly
    the records whose query is not empty and whose timestamp is inside the
    inclusive window, in arrival order: a timestamp equal to [from] or to
    [to] is kept, one before [from] or after [to] is dropped, from the
    filtered list and from the groups alike. *)
Theorem time_window_keeps_inclusive_range
    (Unmarshal : string → option LogEntry)
    (rangeOrder : gmap string (list LogEntry) → list (string * list LogEntry))
    (lines : list string) (entries : list LogEntry) (from to : option Time) :
  (∀ m, rangeOrder m ≡ₚ map_to_list m) →
  decodesTo Unmarshal lines entries →
  Forall datedEntry entries →
  let kept := filter (λ e, survives from to e) entries in
  ∃ queries logged,
    LoadQueriesFromLog Unmarshal rangeOrder lines None from to = Ok (queries, kept, logged)
    ∧ concat (Logs <$> queries) ≡ₚ kept
    ∧ (∀ e, e ∈ kept ↔
         e ∈ entries ∧ entryQuery e ≠ ""
         ∧ ∃ t, TS e = Some t ∧ (∀ f, from = Some f → f ≤ t) ∧ (∀ u, to = Some u → t ≤ u)).
Proof.
  intros Hperm Hdec Hdated kept.
  destruct (scanLines_decoded Unmarshal from to 0 lines entries
              {| qMap := ∅; logs := []; logged := [] |} Hdec Hdated)
    as (st & Hscan & _ & Hlogs & _).
  simpl in Hlogs. fold kept in Hlogs.
  pose proof (scanLines_loaderOk _ _ _ _ _ _ _ Hscan loaderOk_initial) as Hok.
  destruct (loaderOk_groups rangeOrder st Hperm Hok) as (qs & Hqs & Hcover & _).
  exists qs, (logged st). rewrite (LoadQueriesFromLog_scanned _ _ _ _ _ _ Hscan), Hqs. simpl.
  rewrite Hlogs in *. split; [done |]. split; [done |].
  intros e. unfold kept. rewrite list_elem_of_filter. split.
  - intros [Hs He]. split; [done |].
    apply survives_iff; [| by apply Is_true_true].
    rewrite Forall_forall in Hdated. by apply Hdated.
  - intros (He & Hrest). split; [| done].
    apply Is_true_true. apply survives_iff; [| done].
    rewrite Forall_forall in Hdated. by apply Hdated.
Qed.

Lemma time_window_keeps_inclusive_range_witness :
  ∃ queries logged,
    LoadQueriesFromLog Sample.Unmarshal Sample.rangeOrder
      [Sample.lineUp; Sample.lineRate; Sample.lineEmptyQuery; Sample.lineUpLater] None
      (Some Sample.t0) (Some (Sample.t0 + Sample.seconds 60))
    = Ok (queries, [Sample.entryUp; Sample.entryRate], logged).
Proof.
  destruct (time_window_keeps_inclusive_range Sample.Unmarshal Sample.rangeOrder
              [Sample.lineUp; Sample.lineRate; Sample.lineEmptyQuery; Sample.lineUpLater]
              [Sample.entryUp; Sample.entryRate; Sample.entryEmptyQuery; Sample.entryUpLater]
              (Some Sample.t0) (Some (Sample.t0 + Sample.seconds 60)))
    as (queries & logged & Hload & _).
  - intros m. reflexivity.
  - repeat constructor.
  - repeat constructor; intros _; by eexists.
  - exists queries, logged. exact Hload.
Defined.

(** ** Aggregator: missing timestamps *)

Lemma LoadQueriesFromLog_dated_no_panic
    (Unmarshal : string → option LogEntry)
    (rangeOrder : gmap string (list LogEntry) → list (string * list LogEntry))
    (lines : list string) (scanErr : option error) (from to : option Time) :
  Forall (dated Unmarshal) lines →
  is_Panic (LoadQueriesFromLog Unmarshal rangeOrder lines scanErr from to) = false.
Proof.
  intros Hdated. unfold LoadQueriesFromLog.
  pose proof (scanLines_dated_no_panic Unmarshal from to 0 lines
                {| qMap := ∅; logs := []; logged := [] |} Hdated) as Hscan.
  destruct (scanLines _ _ _ _ _ _) as [st| |]; simpl; [| done..].
  destruct scanErr; [done |].
  pose proof (rangeNewQuery_no_panic (rangeOrder (qMap st)) []) as Hqs.
  by destruct (rangeNewQuery _ _).
Qed.

Lemma LoadStats_LoadQueriesFromLog_dated_no_panic
    (Unmarshal : string → option LogEntry)
    (rangeOrder : gmap string (list LogEntry) → list (string * list LogEntry))
    (now : Time) (lines : list string) (scanErr : option error) (from to : option Time) :
  Forall (dated Unmarshal) lines →
  is_Panic (LoadStatsRev.LoadQueriesFromLog Unmarshal rangeOrder now lines scanErr from to)
    = false.
Proof.
  intros Hdated. unfold LoadStatsRev.LoadQueriesFromLog.
  pose proof (LoadStats_scanLines_dated_no_panic Unmarshal from to 0 lines
                {| LoadStatsRev.qMap := ∅;
                   LoadStatsRev.stats := {| LoadStatsRev.Num := 0; LoadStatsRev.From := now;
                                            LoadStatsRev.To := zeroTime |};
                   LoadStatsRev.logged := [] |} Hdated) as Hscan.
  destruct (LoadStatsRev.scanLines _ _ _ _ _ _) as [st| |]; simpl; [| done..].
  destruct scanErr; [done |].
  pose proof (rangeNewQuery_no_panic (rangeOrder (LoadStatsRev.qMap st)) []) as Hqs.
  by destruct (rangeNewQuery _ _).
Qed.

(** C10.  The load never panics when every decoded record with a non-empty
    query carries a timestamp.  Without that it is not total: a line that
    decodes to a record with a non-empty query and no [ts] makes the run
    panic on a nil dereference, in the window test whenever [from] or [to]
    is set, and in the load-statistics revision in the timestamp update
    even when no bound is set. *)
Theorem missing_timestamp_panics_unless_dated
    (Unmarshal : string → option LogEntry)
    (rangeOrder : gmap string (list LogEntry) → list (string * list LogEntry))
    (now : Time) :
  (∀ lines scanErr from to,
     Forall (dated Unmarshal) lines →
     is_Panic (LoadQueriesFromLog Unmarshal rangeOrder lines scanErr from to) = false
     ∧ is_Panic (LoadStatsRev.LoadQueriesFromLog Unmarshal rangeOrder now lines scanErr from to)
       = false)
  ∧ (∀ before line after entry scanErr from to,
       Forall (clean Unmarshal) before →
       Unmarshal line = Some entry →
       entryQuery entry ≠ "" →
       TS entry = None →
       (is_Some from ∨ is_Some to →
        LoadQueriesFromLog Unmarshal rangeOrder (before ++ line :: after) scanErr from to
          = Panic NilDereference)
       ∧ LoadStatsRev.LoadQueriesFromLog Unmarshal rangeOrder now (before ++ line :: after)
           scanErr from to
         = Panic NilDereference).
Proof.
  split.
  - intros lines scanErr from to Hdated. split.
    + by apply LoadQueriesFromLog_dated_no_panic.
    + by apply LoadStats_LoadQueriesFromLog_dated_no_panic.
  - intros before line after entry scanErr from to Hclean He Hq Hts. split.
    + intros Hbound. unfold LoadQueriesFromLog. rewrite scanLines_app.
      destruct (scanLines_clean Unmarshal from to 0 before
                  {| qMap := ∅; logs := []; logged := [] |} Hclean) as [st ->].
      simpl. rewrite (scanLine_decoded _ _ _ _ _ _ _ He), bool_decide_eq_false_2, Hts by done.
      destruct from, to; try done. by destruct Hbound as [[]|[]].
    + unfold LoadStatsRev.LoadQueriesFromLog. rewrite LoadStats_scanLines_app.
      destruct (LoadStats_scanLines_clean Unmarshal from to 0 before
                  {| LoadStatsRev.qMap := ∅;
                     LoadStatsRev.stats := {| LoadStatsRev.Num := 0; LoadStatsRev.From := now;
                                              LoadStatsRev.To := zeroTime |};
                     LoadStatsRev.logged := [] |} Hclean) as [st ->].
      simpl.
      by rewrite (LoadStats_scanLine_decoded _ _ _ _ _ _ _ He), bool_decide_eq_false_2, Hts.
Qed.

Lemma missing_timestamp_panics_unless_dated_witness :
  LoadQueriesFromLog Sample.Unmarshal Sample.rangeOrder
    ([Sample.lineUp; Sample.lineRate; Sample.lineEmptyQuery; Sample.lineUpLater]
       ++ Sample.lineNoTS :: [Sample.lineUp]) None (Some Sample.t0) None
  = Panic NilDereference
  ∧ LoadStatsRev.LoadQueriesFromLog Sample.Unmarshal Sample.rangeOrder Sample.t0
      ([Sample.lineUp; Sample.lineRate; Sample.lineEmptyQuery; Sample.lineUpLater]
         ++ Sample.lineNoTS :: [Sample.lineUp]) None None None
    = Panic NilDereference
  ∧ is_Panic (LoadQueriesFromLog Sample.Unmarshal Sample.rangeOrder
                [Sample.lineUp; Sample.lineRate; Sample.lineEmptyQuery; Sample.lineUpLater] None
                (Some Sample.t0) None) = false.
Proof.
  pose proof (missing_timestamp_panics_unless_dated Sample.Unmarshal Sample.rangeOrder
                Sample.t0) as [Htotal Hcrash].
  split; [| split].
  - apply (Hcrash _ _ _ Sample.entryNoTS None (Some Sample.t0) None sample_lines_clean);
      [done | done | done | left; by eexists].
  - apply (Hcrash _ _ _ Sample.entryNoTS None None None sample_lines_clean); done.
  - apply Htotal. eapply Forall_impl; [exact sample_lines_clean | by intros l [_ ?]].
Defined.

(** ** Load summary *)

(** C9 (the code departs from the claim).  The claim has the summary
    report the least and greatest timestamp of the surviving records.  The
    load-statistics revision starts [From] at [time.Now()] and only lowers
    it: a single surviving record stamped after the start of the run leaves
    [From] at the start time, which is the timestamp of no record. *)
Theorem load_summary_from_is_start_time :
  ∃ queries logged,
    LoadStatsRev.LoadQueriesFromLog Sample.Unmarshal Sample.rangeOrder Sample.t0
      [Sample.lineUpLater] None None None
    = Ok (queries,
          {| LoadStatsRev.Num := 1;
             LoadStatsRev.From := Sample.t0;
             LoadStatsRev.To := Sample.t0 + Sample.seconds 120 |},
          logged)
    ∧ Logs <$> queries = [[Sample.entryUpLater]]
    ∧ TS Sample.entryUpLater = Some (Sample.t0 + Sample.seconds 120)
    ∧ Sample.t0 ≠ Sample.t0 + Sample.seconds 120.
Proof.
  eexists _, _. split; [vm_compute; reflexivity |].
  split; [by vm_compute |]. split; [by vm_compute |]. by vm_compute.
Qed.

(** ** Ranker *)

Lemma clampTop_min (argTop : Z) (queries : list QueryGroup) :
  clampTop argTop queries = Z.min argTop (len queries).
Proof. unfold clampTop. destruct (Z.ltb_spec (len queries) argTop); lia. Qed.

Lemma slice_to_Ok {A : Type} (l : list A) (hi : Z) :
  0 ≤ hi ≤ len l → slice_to l hi = Ok (take (Z.to_nat hi) l).
Proof.
  intros Hhi. unfold slice_to.
  destruct (Z.leb_spec 0 hi), (Z.leb_spec hi (len l)); simpl; try lia; done.
Qed.

Lemma sort_Reverse_Permutation {A : Type} (less : A → A → bool) (l : list A) :
  sort_Reverse less l ≡ₚ l.
Proof. apply merge_sort_Permutation. Qed.

Lemma len_Permutation {A : Type} (l k : list A) : l ≡ₚ k → len l = len k.
Proof. intros Hperm. unfold len. by rewrite Hperm. Qed.

Lemma len_take {A : Type} (l : list A) (n : Z) :
  0 ≤ n ≤ len l → len (take (Z.to_nat n) l) = n.
Proof. unfold len. intros Hn. rewrite length_take. lia. Qed.

Lemma first_log (q : QueryGroup) :
  Logs q ≠ [] → ∃ first, index (Logs q) 0 = Ok first.
Proof.
  intros Hlogs. destruct (index_in_range (Logs q) 0) as (first & Hfirst & _).
  - unfold len. destruct (Logs q); [done | simpl; lia].
  - by exists first.
Qed.

Lemma range_rows_Ok (body : Z → QueryGroup → outcome row) (i : Z) (view : list QueryGroup) :
  (∀ j q, q ∈ view → ∃ r, body j q = Ok r ∧ rowQuery r = removeNL (queryText q)) →
  ∃ rows, range_rows body i view = Ok rows
    ∧ rowQuery <$> rows = (λ q, removeNL (queryText q)) <$> view.
Proof.
  revert i. induction view as [|q view IH]; intros i Hbody; simpl; [by exists [] |].
  destruct (Hbody i q) as (r & -> & Hr); [by left |]. simpl.
  destruct (IH (i + 1)) as (rows & -> & Hrows).
  { intros j q' Hq'. apply Hbody. by right. }
  exists (r :: rows). split; [done |]. rewrite !fmap_cons. by rewrite Hr, Hrows.
Qed.

Lemma rows_len (rows : list row) (view : list QueryGroup) :
  rowQuery <$> rows = (λ q, removeNL (queryText q)) <$> view → len rows = len view.
Proof.
  intros Heq. unfold len. f_equal.
  rewrite <- (length_fmap rowQuery rows), Heq. apply length_fmap.
Qed.

Lemma printAvgTable_Ok (argTop : Z) (queries : list QueryGroup) (title : string)
    (getter : QueryGroup → float64) :
  0 ≤ argTop ≤ len queries →
  Forall printable queries →
  ∃ rows, printAvgTable argTop queries title getter = Ok (Table title argTop rows)
    ∧ rowQuery <$> rows = (λ q, removeNL (queryText q)) <$> take (Z.to_nat argTop) queries.
Proof.
  intros Htop Hprint. unfold printAvgTable. rewrite slice_to_Ok by done. simpl.
  destruct (range_rows_Ok
              (λ i query, do first <- index (Logs query) 0;
                          Ok (AvgRow (i + 1) (len (Logs query)) (getter query)
                                (removeNL (queryText query)) (Name <$> ruleGroup first)))
              0 (take (Z.to_nat argTop) queries)) as (rows & -> & Hrows).
  - intros j q Hq. apply (subseteq_take (Z.to_nat argTop) queries) in Hq.
    rewrite Forall_forall in Hprint. destruct (Hprint q Hq) as (Hlogs & _).
    destruct (first_log q Hlogs) as [first ->]. simpl. by eexists.
  - by exists rows.
Qed.

Lemma printMaxTable_Ok (argTop : Z) (queries : list QueryGroup) (title : string)
    (valueGetter : QueryGroup → value) (tsGetter : QueryGroup → option Time) :
  0 ≤ argTop ≤ len queries →
  Forall printable queries →
  Forall (λ q, is_Some (tsGetter q)) queries →
  ∃ rows, printMaxTable argTop queries title valueGetter tsGetter
          = Ok (Table title argTop rows)
    ∧ rowQuery <$> rows = (λ q, removeNL (queryText q)) <$> take (Z.to_nat argTop) queries.
Proof.
  intros Htop Hprint Hts. unfold printMaxTable. rewrite slice_to_Ok by done. simpl.
  destruct (range_rows_Ok
              (λ i query,
                 match tsGetter query with
                 | None => Panic NilDereference
                 | Some t =>
                     do first <- index (Logs query) 0;
                     Ok (MaxRow (i + 1) t (valueGetter query)
                           (removeNL (queryText query)) (Name <$> ruleGroup first))
                 end)
              0 (take (Z.to_nat argTop) queries)) as (rows & -> & Hrows).
  - intros j q Hq. apply (subseteq_take (Z.to_nat argTop) queries) in Hq.
    rewrite Forall_forall in Hprint, Hts. destruct (Hprint q Hq) as (Hlogs & _).
    destruct (Hts q Hq) as [t ->].
    destruct (first_log q Hlogs) as [first ->]. simpl. by eexists.
  - by exists rows.
Qed.

Ltac ranked_avg_step Htop Hprint :=
  match goal with
  | |- context [printAvgTable ?top (sort_Reverse ?less ?qs) ?title ?getter] =>
      let rows := fresh "rows" in
      let Hrows := fresh "Hrows" in
      destruct (printAvgTable_Ok top (sort_Reverse less qs) title getter)
        as (rows & -> & Hrows);
      [ by rewrite (len_Permutation _ _ (sort_Reverse_Permutation less qs))
      | by rewrite (sort_Reverse_Permutation less qs)
      | simpl; eexists _, _; split; [done |];
        split; [apply sort_Reverse_Permutation | exact Hrows] ]
  end.

Ltac ranked_max_step Htop Hprint :=
  match goal with
  | |- context [printMaxTable ?top (sort_Reverse ?less ?qs) ?title ?vg ?tg] =>
      let rows := fresh "rows" in
      let Hrows := fresh "Hrows" in
      destruct (printMaxTable_Ok top (sort_Reverse less qs) title vg tg)
        as (rows & -> & Hrows);
      [ by rewrite (len_Permutation _ _ (sort_Reverse_Permutation less qs))
      | by rewrite (sort_Reverse_Permutation less qs)
      | rewrite (sort_Reverse_Permutation less qs);
        eapply Forall_impl; [exact Hprint | by intros ? (? & ? & ? & ?)]
      | simpl; eexists _, _; split; [done |];
        split; [apply sort_Reverse_Permutation | exact Hrows] ]
  end.

(** One ranking step of [main] on a count already clamped. *)
Lemma ranked_step_Ok (argTop : Z) (queries : list QueryGroup)
    (table : Z → list QueryGroup → outcome (list QueryGroup * printed)) :
  0 ≤ argTop ≤ len queries →
  Forall printable queries →
  table ∈ rankedTables →
  ∃ queries' t, table argTop queries = Ok (queries', t)
    ∧ queries' ≡ₚ queries
    ∧ rowQuery <$> tableRows t
      = (λ q, removeNL (queryText q)) <$> take (Z.to_nat argTop) queries'.
Proof.
  intros Htop Hprint Htable. unfold rankedTables in Htable.
  repeat (apply elem_of_cons in Htable as [-> | Htable]);
    [| | | | | | by apply elem_of_nil in Htable].
  - unfold avgExecTable. ranked_avg_step Htop Hprint.
  - unfold maxExecTable. ranked_max_step Htop Hprint.
  - unfold avgTotalTable. ranked_avg_step Htop Hprint.
  - unfold maxTotalTable. ranked_max_step Htop Hprint.
  - unfold avgPeakTable. ranked_avg_step Htop Hprint.
  - unfold maxPeakTable. ranked_max_step Htop Hprint.
Qed.

Lemma ranked_step_rows (argTop : Z) (queries queries' : list QueryGroup) (t : printed) :
  0 ≤ argTop →
  queries' ≡ₚ queries →
  rowQuery <$> tableRows t
    = (λ q, removeNL (queryText q))
        <$> take (Z.to_nat (clampTop argTop queries)) queries' →
  len (tableRows t) = Z.min argTop (len queries).
Proof.
  intros Htop Hperm Hrows. rewrite (rows_len _ _ Hrows), len_take.
  - apply clampTop_min.
  - rewrite clampTop_min, (len_Permutation _ _ Hperm). unfold len. lia.
Qed.

(** [main] of the load-statistics revision prints its six tables once the
    load has produced printable groups. *)
Lemma LoadStats_main_tables
    (Unmarshal : string → option LogEntry)
    (rangeOrder : gmap string (list LogEntry) → list (string * list LogEntry))
    (now : Time) (from to : option Time) (argTop : Z) (lines : list string)
    (scanErr : option error)
    (queries : list QueryGroup) (loadStats : LoadStatsRev.LoadStats)
    (logged : list log_line) :
  0 ≤ argTop →
  LoadStatsRev.LoadQueriesFromLog Unmarshal rangeOrder now lines scanErr from to
    = Ok (queries, loadStats, logged) →
  queries ≠ [] →
  Forall printable queries →
  ∃ rep, LoadStatsRev.main Unmarshal rangeOrder now from to argTop lines scanErr = Ok rep
    ∧ length (stdout rep) = 6%nat
    ∧ Forall (λ t, len (tableRows t) = Z.min argTop (len queries)) (stdout rep).
Proof.
  intros Htop Hload Hne Hprint. unfold LoadStatsRev.main. rewrite Hload.
  replace (len queries =? 0) with false
    by (symmetry; apply Z.eqb_neq; unfold len; destruct queries; [done | simpl; lia]).
  assert (Hclamp : 0 ≤ clampTop argTop queries ≤ len queries)
    by (rewrite clampTop_min; unfold len; lia).
  set (top := clampTop argTop queries) in *.
  assert (Hstep : ∀ qs table, qs ≡ₚ queries → table ∈ rankedTables →
            ∃ qs' t, table top qs = Ok (qs', t) ∧ qs' ≡ₚ queries
              ∧ len (tableRows t) = Z.min argTop (len queries)).
  { intros qs table Hperm Htable.
    destruct (ranked_step_Ok top qs table) as (qs' & t & Hrun & Hperm' & Hrows);
      [by rewrite (len_Permutation _ _ Hperm) | by rewrite Hperm | done |].
    exists qs', t. split; [done |]. split; [by rewrite Hperm' |].
    apply (ranked_step_rows argTop queries qs' t Htop); [by rewrite Hperm' | done]. }
  destruct (Hstep queries avgExecTable) as (q1 & t1 & -> & Hp1 & Hr1);
    [done | unfold rankedTables; repeat constructor |]. simpl.
  destruct (Hstep q1 maxExecTable) as (q2 & t2 & -> & Hp2 & Hr2);
    [done | unfold rankedTables; repeat constructor |]. simpl.
  destruct (Hstep q2 avgTotalTable) as (q3 & t3 & -> & Hp3 & Hr3);
    [done | unfold rankedTables; repeat constructor |]. simpl.
  destruct (Hstep q3 maxTotalTable) as (q4 & t4 & -> & Hp4 & Hr4);
    [done | unfold rankedTables; repeat constructor |]. simpl.
  destruct (Hstep q4 avgPeakTable) as (q5 & t5 & -> & Hp5 & Hr5);
    [done | unfold rankedTables; repeat constructor |]. simpl.
  destruct (Hstep q5 maxPeakTable) as (q6 & t6 & -> & Hp6 & Hr6);
    [done | unfold rankedTables; repeat constructor |]. simpl.
  eexists. split; [done |]. simpl. split; [done |]. by repeat constructor.
Qed.

Lemma range_rows_length (body : Z → QueryGroup → outcome row) (i : Z)
    (view : list QueryGroup) (rows : list row) :
  range_rows body i view = Ok rows → length rows = length view.
Proof.
  revert i rows. induction view as [|q view IH]; intros i rows; simpl.
  - by intros [= <-].
  - destruct (body i q) as [r| |]; simpl; [| done..].
    destruct (range_rows body (i + 1) view) as [rs| |] eqn:Hrs; simpl; [| done..].
    intros [= <-]. simpl. f_equal. by eapply IH.
Qed.

Lemma slice_to_inv {A : Type} (l view : list A) (hi : Z) :
  slice_to l hi = Ok view → 0 ≤ hi ≤ len l ∧ view = take (Z.to_nat hi) l.
Proof.
  unfold slice_to.
  destruct (Z.leb_spec 0 hi), (Z.leb_spec hi (len l)); simpl; try done.
  intros [= <-]. split; [lia | done].
Qed.

Lemma printAvgTable_inv (argTop : Z) (queries : list QueryGroup) (title : string)
    (getter : QueryGroup → float64) (t : printed) :
  printAvgTable argTop queries title getter = Ok t →
  0 ≤ argTop ≤ len queries ∧ ∃ rows, t = Table title argTop rows ∧ len rows = argTop.
Proof.
  unfold printAvgTable.
  destruct (slice_to queries argTop) as [view| |] eqn:Hview; simpl; [| done..].
  apply slice_to_inv in Hview as [Htop ->].
  destruct (range_rows _ _ _) as [rows| |] eqn:Hrows; simpl; [| done..].
  intros [= <-]. split; [done |]. exists rows. split; [done |].
  apply range_rows_length in Hrows. unfold len in *. rewrite Hrows, length_take. lia.
Qed.

Lemma printMaxTable_inv (argTop : Z) (queries : list QueryGroup) (title : string)
    (valueGetter : QueryGroup → value) (tsGetter : QueryGroup → option Time) (t : printed) :
  printMaxTable argTop queries title valueGetter tsGetter = Ok t →
  0 ≤ argTop ≤ len queries ∧ ∃ rows, t = Table title argTop rows ∧ len rows = argTop.
Proof.
  unfold printMaxTable.
  destruct (slice_to queries argTop) as [view| |] eqn:Hview; simpl; [| done..].
  apply slice_to_inv in Hview as [Htop ->].
  destruct (range_rows _ _ _) as [rows| |] eqn:Hrows; simpl; [| done..].
  intros [= <-]. split; [done |]. exists rows. split; [done |].
  apply range_rows_length in Hrows. unfold len in *. rewrite Hrows, length_take. lia.
Qed.

Ltac ranked_step_inv_avg :=
  match goal with
  | |- context [printAvgTable ?top ?qs ?title ?getter] =>
      let t := fresh "t" in
      let Ht := fresh "Ht" in
      destruct (printAvgTable top qs title getter) as [t| |] eqn:Ht; simpl; [| done..];
      apply printAvgTable_inv in Ht as (Ht & rows & -> & Hrows);
      intros [= <- <-];
      rewrite (len_Permutation _ _ (sort_Reverse_Permutation _ _)) in Ht;
      split; [apply sort_Reverse_Permutation | split; [done | by eexists _, _]]
  end.

Ltac ranked_step_inv_max :=
  match goal with
  | |- context [printMaxTable ?top ?qs ?title ?vg ?tg] =>
      let t := fresh "t" in
      let Ht := fresh "Ht" in
      destruct (printMaxTable top qs title vg tg) as [t| |] eqn:Ht; simpl; [| done..];
      apply printMaxTable_inv in Ht as (Ht & rows & -> & Hrows);
      intros [= <- <-];
      rewrite (len_Permutation _ _ (sort_Reverse_Permutation _ _)) in Ht;
      split; [apply sort_Reverse_Permutation | split; [done | by eexists _, _]]
  end.

(** A ranking step that returns has cut a view of exactly [argTop] rows. *)
Lemma ranked_step_inv (argTop : Z) (queries queries' : list QueryGroup) (t : printed)
    (table : Z → list QueryGroup → outcome (list QueryGroup * printed)) :
  table ∈ rankedTables →
  table argTop queries = Ok (queries', t) →
  queries' ≡ₚ queries ∧ 0 ≤ argTop ≤ len queries
  ∧ ∃ title rows, t = Table title argTop rows ∧ len rows = argTop.
Proof.
  intros Htable. unfold rankedTables in Htable.
  repeat (apply elem_of_cons in Htable as [-> | Htable]);
    [| | | | | | by apply elem_of_nil in Htable].
  - unfold avgExecTable. ranked_step_inv_avg.
  - unfold maxExecTable. ranked_step_inv_max.
  - unfold avgTotalTable. ranked_step_inv_avg.
  - unfold maxTotalTable. ranked_step_inv_max.
  - unfold avgPeakTable. ranked_step_inv_avg.
  - unfold maxPeakTable. ranked_step_inv_max.
Qed.

Ltac main_ranked_step table H :=
  match goal with
  | |- context [table ?top ?qs] =>
      let q := fresh "q" in
      let t := fresh "t" in
      destruct (table top qs) as [[q t]| |] eqn:H; simpl; [| done..];
      apply ranked_step_inv in H as (_ & _ & ? & ? & -> & H);
      [| unfold rankedTables; repeat constructor]
  end.

Ltac main_percentile_step :=
  match goal with
  | |- context [orFatal ?m] =>
      let p := fresh "p" in destruct (orFatal m) as [p| |]; simpl; [| done..]
  end.

(** Whenever [main] of the percentile revision returns, every table it
    has printed has the clamped count of rows. *)
Lemma main_tables
    (Unmarshal : string → option LogEntry)
    (rangeOrder : gmap string (list LogEntry) → list (string * list LogEntry))
    (from to : option Time) (argTop argPerc : Z) (lines : list string)
    (scanErr : option error) (rep : report) :
  main Unmarshal rangeOrder from to argTop argPerc lines scanErr = Ok rep →
  ∃ queries logs logged,
    LoadQueriesFromLog Unmarshal rangeOrder lines scanErr from to = Ok (queries, logs, logged)
    ∧ ∀ title top rows, Table title top rows ∈ stdout rep →
        top = Z.min argTop (len queries) ∧ len rows = top.
Proof.
  unfold main. destruct ((argPerc <=? 0) || (100 <? argPerc)); [done |].
  destruct (LoadQueriesFromLog Unmarshal rangeOrder lines scanErr from to)
    as [[[queries logs] logged]| |]; [| done..].
  destruct (len queries =? 0); [done |].
  destruct (sortByTime logs) as [sorted| |]; simpl; [| done..].
  destruct (index sorted 0) as [first| |]; simpl; [| done..].
  destruct (index sorted (len sorted - 1)) as [last| |]; simpl; [| done..].
  rewrite clampTop_min.
  main_percentile_step. main_ranked_step avgExecTable H1. main_ranked_step maxExecTable H2.
  main_percentile_step. main_ranked_step avgTotalTable H3. main_ranked_step maxTotalTable H4.
  main_percentile_step. main_ranked_step avgPeakTable H5. main_ranked_step maxPeakTable H6.
  intros [= <-]. exists queries, logs, logged. split; [done |].
  intros title top rows Hin. simpl in Hin.
  repeat (apply elem_of_cons in Hin as [Hin | Hin]); try done;
    try (by apply elem_of_nil in Hin); by injection Hin as -> -> ->.
Qed.

(** C8 (as stated, refuted).  The claim covers every requested count.  The
    clamp only lowers a count that exceeds the number of groups: a negative
    count passes through it and the slice expression panics, so no view of
    any length is printed. *)
Lemma negative_count_is_not_clamped :
  LoadStatsRev.main Sample.Unmarshal Sample.rangeOrder Sample.t0 None None (-1)
    [Sample.lineUp; Sample.lineRate; Sample.lineEmptyQuery; Sample.lineUpLater] None
  = Panic (SliceBoundsOutOfRange (-1) 2)
  ∧ main Sample.Unmarshal Sample.rangeOrder None None (-1) 50
      [Sample.lineUp; Sample.lineRate; Sample.lineEmptyQuery; Sample.lineUpLater] None
    = Panic (SliceBoundsOutOfRange (-1) 2).
Proof. split; by vm_compute. Qed.

(** C8 (amended).  For every non-negative requested count and every
    collection of printable groups, each of the six ranking steps, run on
    the clamped count, prints a view of exactly [min count (number of
    groups)] rows, which are the leading groups of the re-sorted
    collection, one row each: no padding, no slice out of bounds.  So
    [main] of the load-statistics revision prints six such tables, and
    every table that [main] of the percentile revision prints has that
    many rows. *)
Theorem ranked_views_have_min_count_rows
    (Unmarshal : string → option LogEntry)
    (rangeOrder : gmap string (list LogEntry) → list (string * list LogEntry))
    (argTop : Z) (queries : list QueryGroup) :
  0 ≤ argTop →
  Forall printable queries →
  (∀ table, table ∈ rankedTables →
     ∃ queries' t, table (clampTop argTop queries) queries = Ok (queries', t)
       ∧ queries' ≡ₚ queries
       ∧ len (tableRows t) = Z.min argTop (len queries)
       ∧ rowQuery <$> tableRows t
         = (λ q, removeNL (queryText q))
             <$> take (Z.to_nat (Z.min argTop (len queries))) queries')
  ∧ (∀ now from to lines scanErr loadStats logged,
       LoadStatsRev.LoadQueriesFromLog Unmarshal rangeOrder now lines scanErr from to
         = Ok (queries, loadStats, logged) →
       queries ≠ [] →
       ∃ rep, LoadStatsRev.main Unmarshal rangeOrder now from to argTop lines scanErr = Ok rep
         ∧ length (stdout rep) = 6%nat
         ∧ Forall (λ t, len (tableRows t) = Z.min argTop (len queries)) (stdout rep))
  ∧ (∀ from to argPerc lines scanErr logs logged rep,
       LoadQueriesFromLog Unmarshal rangeOrder lines scanErr from to
         = Ok (queries, logs, logged) →
       main Unmarshal rangeOrder from to argTop argPerc lines scanErr = Ok rep →
       ∀ title top rows, Table title top rows ∈ stdout rep →
         top = Z.min argTop (len queries) ∧ len rows = top).
Proof.
  intros Htop Hprint. split; [| split].
  - intros table Htable.
    destruct (ranked_step_Ok (clampTop argTop queries) queries table)
      as (queries' & t & Hrun & Hperm & Hrows);
      [rewrite clampTop_min; unfold len; lia | done | done |].
    exists queries', t. split; [done |]. split; [done |].
    split; [by apply (ranked_step_rows argTop queries queries' t) |].
    by rewrite <- clampTop_min.
  - intros now from to lines scanErr loadStats logged Hload Hne.
    by eapply LoadStats_main_tables.
  - intros from to argPerc lines scanErr logs logged rep Hload Hmain.
    destruct (main_tables _ _ _ _ _ _ _ _ _ Hmain)
      as (queries' & logs' & logged' & Hload' & Hrows).
    rewrite Hload in Hload'. by injection Hload' as <- <- <-.
Qed.

Lemma ranked_views_have_min_count_rows_witness :
  ∃ rep,
    LoadStatsRev.main Sample.Unmarshal Sample.rangeOrder Sample.t0 None None 10
      [Sample.lineUp; Sample.lineRate; Sample.lineEmptyQuery; Sample.lineUpLater] None = Ok rep
    ∧ Forall (λ t, len (tableRows t) = 2) (stdout rep).
Proof.
  destruct (LoadStatsRev.LoadQueriesFromLog Sample.Unmarshal Sample.rangeOrder Sample.t0
              [Sample.lineUp; Sample.lineRate; Sample.lineEmptyQuery; Sample.lineUpLater] None
              None None) as [[[queries loadStats] logged]| |] eqn:Hload;
    [| vm_compute in Hload; discriminate..].
  assert (Hqueries : Forall printable queries ∧ queries ≠ [] ∧ Z.min 10 (len queries) = 2).
  { vm_compute in Hload. injection Hload as <- _ _.
    split; [| split; [done | reflexivity]].
    repeat constructor; try done; by eexists. }
  destruct Hqueries as (Hprint & Hne & Hmin).
  destruct (proj1 (proj2 (ranked_views_have_min_count_rows Sample.Unmarshal
                            Sample.rangeOrder 10 queries ltac:(lia) Hprint))
              Sample.t0 None None _ None loadStats logged Hload Hne)
    as (rep & Hmain & _ & Hrows).
  exists rep. split; [exact Hmain |]. by rewrite Hmin in Hrows.
Defined.

(** * Further properties *)

(** ** Percentile calculator *)

Lemma percentile_valid {T : Type} `{Number T} (p : Z) (nums : list T) :
  0 < p ≤ 100 → nums ≠ [] →
  percentile p nums = index (slices_Sort nums) (percentile_index p (len nums)).
Proof.
  intros Hp Hne. unfold percentile.
  replace ((p <=? 0) || (100 <? p)) with false
    by (symmetry; apply orb_false_iff; split; [apply Z.leb_gt | apply Z.ltb_ge]; lia).
  replace (len nums =? 0) with false; [done |].
  symmetry. apply Z.eqb_neq. unfold len. destruct nums; [done | simpl; lia].
Qed.

Lemma index_not_Err {A : Type} (l : list A) (i : Z) (e : error) : index l i ≠ Err e.
Proof.
  unfold index. destruct ((0 <=? i) && (i <? len l)); [| done].
  by destruct (l !! Z.to_nat i).
Qed.

(** X1.  The errors of [percentile]: the rank is checked first, then the
    emptiness of the samples, and nothing else is reported as an error. *)
Theorem percentile_errors {T : Type} `{Number T} (p : Z) (nums : list T) (e : error) :
  percentile p nums = Err e ↔
    (e = ErrPercentileOutOfRange p ∧ (p ≤ 0 ∨ 100 < p))
    ∨ (e = ErrSliceEmpty ∧ 0 < p ≤ 100 ∧ nums = []).
Proof.
  destruct (decide (0 < p ≤ 100)) as [Hp | Hp].
  - destruct nums as [|x nums].
    + unfold percentile.
      replace ((p <=? 0) || (100 <? p)) with false
        by (symmetry; apply orb_false_iff; split; [apply Z.leb_gt | apply Z.ltb_ge]; lia).
      simpl. split; [intros [= <-]; by right | intros [[_ ?] | [-> _]]; [lia | done]].
    + rewrite percentile_valid by done. split.
      * intros Herr. by apply index_not_Err in Herr.
      * intros [[_ ?] | (_ & _ & ?)]; [lia | done].
  - unfold percentile.
    replace ((p <=? 0) || (100 <? p)) with true
      by (symmetry; apply orb_true_iff;
          destruct (Z.leb_spec p 0); [by left | right; apply Z.ltb_lt; lia]).
    split; [intros [= <-]; left; split; [done | lia] |].
    intros [[-> _] | (_ & ? & _)]; [done | lia].
Qed.

(** X2.  Whatever [percentile] returns is one of the samples it was given. *)
Theorem percentile_returns_a_sample {T : Type} `{Number T} (p : Z) (nums : list T) (x : T) :
  percentile p nums = Ok x → x ∈ nums.
Proof.
  intros Hok.
  destruct (decide (0 < p ≤ 100)) as [Hp | Hp]; [destruct nums as [|y nums] |].
  - unfold percentile in Hok.
    by destruct ((p <=? 0) || (100 <? p)).
  - rewrite percentile_valid in Hok by done.
    apply index_Ok in Hok as [_ Hx]. apply list_elem_of_lookup_2 in Hx.
    by rewrite slices_Sort_Permutation in Hx.
  - unfold percentile in Hok.
    replace ((p <=? 0) || (100 <? p)) with true in Hok; [done |].
    symmetry. apply orb_true_iff.
    destruct (Z.leb_spec p 0); [by left | right; apply Z.ltb_lt; lia].
Qed.

Lemma percentile_returns_a_sample_witness : (4 : Z) ∈ [5; 1; 4; 2].
Proof. apply (percentile_returns_a_sample 50 [5; 1; 4; 2] 4). by vm_compute. Defined.

#[local] Instance int_ascending_trans : Transitive (ascending (T:=Z)).
Proof.
  intros a b c. unfold ascending. simpl. rewrite !Z.ltb_ge. lia.
Qed.

#[local] Instance int_ascending_antisym : AntiSymm (=) (ascending (T:=Z)).
Proof.
  intros a b. unfold ascending. simpl. rewrite !Z.ltb_ge. lia.
Qed.

(** X3.  On integer samples [percentile] depends on the samples only, not on
    the order in which the slice holds them. *)
Theorem percentile_int_order_independent (p : Z) (nums nums' : list Z) :
  nums ≡ₚ nums' → percentile p nums = percentile p nums'.
Proof.
  intros Hperm.
  assert (Hsorted : slices_Sort nums = slices_Sort nums').
  { apply (Sorted_unique ascending).
    - apply slices_Sort_sorted, int_Less_asym.
    - apply slices_Sort_sorted, int_Less_asym.
    - by rewrite !slices_Sort_Permutation. }
  unfold percentile. rewrite Hsorted, (len_Permutation _ _ Hperm). done.
Qed.

Lemma percentile_int_order_independent_witness :
  percentile 50 [5; 1; 4; 2] = percentile 50 [1; 2; 4; 5].
Proof.
  apply percentile_int_order_independent.
  change [5; 1; 4; 2] with ([5] ++ [1; 4; 2]).
  rewrite (Permutation_app_comm [5] [1; 4; 2]). simpl.
  do 1 apply perm_skip. apply perm_swap.
Defined.

(** X4.  On up to 200 samples and for a rank between 1 and 100: the index read
    is the exact nearest rank [ceil(p * n / 100)] or one more (binary64
    rounding), and [percentile] returns a value exactly when
    [n * (100 - p) >= 100]; in every other case the read is one past the
    end and panics. *)
Theorem percentile_returns_iff_room {T : Type} `{Number T} (p : Z) (nums : list T) :
  1 ≤ p ≤ 100 →
  nums ≠ [] →
  len nums ≤ 200 →
  let k := percentile_index p (len nums) in
  nearestRank p (len nums) ≤ k ≤ nearestRank p (len nums) + 1
  ∧ ((∃ x, percentile p nums = Ok x) ↔ 100 ≤ len nums * (100 - p))
  ∧ (len nums * (100 - p) < 100 →
     percentile p nums = Panic (IndexOutOfRange (len nums) (len nums))).
Proof.
  intros Hp Hne Hlen k.
  assert (Hn : 1 ≤ len nums) by (unfold len; destruct nums; [done | simpl; lia]).
  assert (Hbound : 1 ≤ len nums ≤ 200) by lia.
  destruct (indexChecked_spec p (len nums) Hp Hbound) as (Hrank & Hle & Hiff).
  fold k in Hrank, Hle, Hiff.
  assert (Hrank0 : 0 ≤ nearestRank p (len nums))
    by (unfold nearestRank; apply Z.div_pos; nia).
  assert (Hk0 : 0 ≤ k) by lia.
  rewrite (percentile_valid p nums) by (done || lia). fold k.
  split; [done |]. split; [split |].
  - intros [x Hx]. apply index_Ok in Hx as [Hx _].
    rewrite slices_Sort_length in Hx. apply Hiff. lia.
  - intros Hroom. apply Hiff in Hroom.
    destruct (index_in_range (slices_Sort nums) k) as (x & Hx & _).
    + rewrite slices_Sort_length. lia.
    + by exists x.
  - intros Hroom.
    assert (k = len nums) as -> by lia.
    rewrite index_out_of_range by (rewrite slices_Sort_length; lia).
    by rewrite slices_Sort_length.
Qed.

Lemma percentile_returns_iff_room_witness :
  (∃ x, percentile 95 (seqZ 1 20) = Ok x)
  ∧ percentile 95 (seqZ 1 19) = Panic (IndexOutOfRange 19 19).
Proof.
  split.
  - apply (percentile_returns_iff_room 95 (seqZ 1 20)); [lia | done | by vm_compute |].
    by vm_compute.
  - apply (percentile_returns_iff_room 95 (seqZ 1 19)); [lia | done | by vm_compute |].
    by vm_compute.
Defined.

(** ** Averages *)

Lemma wrap64_small (z : Z) : - 2 ^ 63 ≤ z < 2 ^ 63 → wrap64 z = z.
Proof. intros Hz. unfold wrap64. rewrite Z.mod_small; lia. Qed.

Lemma int_sum_no_overflow (nums : list Z) (acc : Z) :
  0 ≤ acc → Forall (λ x, 0 ≤ x) nums → acc + total nums < 2 ^ 63 →
  fold_left num_add nums acc = acc + total nums.
Proof.
  revert acc. induction nums as [|x nums IH]; intros acc Hacc Hpos Hsum; simpl in *.
  - lia.
  - apply Forall_cons in Hpos as [Hx Hpos].
    assert (Htotal : 0 ≤ total nums).
    { clear -Hpos. induction Hpos; simpl; [done | lia]. }
    rewrite wrap64_small by lia. rewrite IH; [lia | lia | done | lia].
Qed.

(** X5.  The average of non-negative integers whose sum fits the [int] type is
    the binary64 quotient of their exact sum and their number: the running
    sum does not wrap. *)
Theorem avg_int_is_quotient_of_exact_sum (nums : list Z) :
  Forall (λ x, 0 ≤ x) nums →
  total nums < 2 ^ 63 →
  avg nums = f64_div (f64_of_int (total nums)) (f64_of_int (len nums)).
Proof.
  intros Hpos Hsum. unfold avg.
  change (fold_left num_add nums num_zero) with (fold_left num_add nums 0).
  by rewrite int_sum_no_overflow.
Qed.

Lemma avg_int_is_quotient_of_exact_sum_witness :
  avg [10; 0; 4; 1] = f64_div (f64_of_int 15) (f64_of_int 4).
Proof.
  apply (avg_int_is_quotient_of_exact_sum [10; 0; 4; 1]).
  - repeat constructor; lia.
  - by vm_compute.
Defined.

(** ** Query groups *)

(** X6.  [NewQuery] fails exactly on an empty query text or an empty record
    list, the query text being checked first; otherwise it returns a group
    that keeps the query text and the records as they were given. *)
Theorem NewQuery_errors (query : string) (logs : list LogEntry) :
  (NewQuery query logs = Err ErrQueryEmpty ↔ query = "")
  ∧ (NewQuery query logs = Err ErrNoLogEntries ↔ query ≠ "" ∧ logs = [])
  ∧ ((∃ q, NewQuery query logs = Ok q) ↔ query ≠ "" ∧ logs ≠ [])
  ∧ (∀ q, NewQuery query logs = Ok q → queryText q = query ∧ Logs q = logs).
Proof.
  unfold NewQuery. case_bool_decide as Hq.
  - split; [done |]. split; [split; [done | by intros [? _]] |].
    split; [split; [by intros [? ?] | by intros [? _]] | done].
  - destruct logs as [|first rest].
    + split; [done |]. split; [done |].
      split; [split; [by intros [? ?] | by intros [_ ?]] | done].
    + split; [done |]. split; [split; [done | by intros [_ ?]] |].
      split; [split; [done | by eexists] |].
      by intros q [= <-].
Qed.

Lemma pickMax_fold_in {M : Type} (lt : M → M → bool) (metric : LogEntry → M)
    (logs : list LogEntry) (cur : LogEntry) :
  fold_left (pickMax lt metric) logs cur ∈ cur :: logs.
Proof.
  revert cur. induction logs as [|log logs IH]; intros cur; simpl; [by left |].
  specialize (IH (pickMax lt metric cur log)). unfold pickMax in *.
  destruct (lt (metric cur) (metric log)).
  - by right.
  - apply elem_of_cons in IH as [-> | IH]; [by left | by do 2 right].
Qed.

(** X7.  The three maximum records of a group are records of the group, whatever
    the values of the metrics. *)
Theorem NewQuery_max_entries_are_group_records (query : string) (logs : list LogEntry)
    (q : QueryGroup) :
  NewQuery query logs = Ok q →
  MaxExecTotalTimeEntry q ∈ Logs q
  ∧ MaxTotalQueryableSamplesEntry q ∈ Logs q
  ∧ MaxPeakSamplesEntry q ∈ Logs q.
Proof.
  unfold NewQuery. case_bool_decide as Hq; [done |].
  destruct logs as [|first rest]; [done |]. intros [= <-].
  cbn [MaxExecTotalTimeEntry MaxTotalQueryableSamplesEntry MaxPeakSamplesEntry Logs].
  rewrite newQueryLoop_maxExec, newQueryLoop_maxTotal, newQueryLoop_maxPeak.
  cbn [maxExecTotalTimeEntry maxTotalQueryableSamplesEntry maxPeakSamplesEntry].
  assert (Hin : ∀ {M : Type} (lt : M → M → bool) (metric : LogEntry → M),
            fold_left (pickMax lt metric) (first :: rest) first ∈ first :: rest).
  { intros M lt metric.
    pose proof (pickMax_fold_in lt metric (first :: rest) first) as Hin.
    apply elem_of_cons in Hin as [-> | Hin]; [by left | done]. }
  repeat split; apply Hin.
Qed.

Lemma NewQuery_max_entries_are_group_records_witness :
  ∃ q, NewQuery "up" [Sample.entryUp; Sample.entryUpLater] = Ok q
    ∧ MaxExecTotalTimeEntry q ∈ [Sample.entryUp; Sample.entryUpLater].
Proof.
  destruct (NewQuery "up" [Sample.entryUp; Sample.entryUpLater]) as [q| |] eqn:Hq;
    [| vm_compute in Hq; discriminate..].
  exists q. split; [done |].
  destruct (NewQuery_max_entries_are_group_records _ _ _ Hq) as (Hin & _).
  destruct (NewQuery_Ok "up" [Sample.entryUp; Sample.entryUpLater]) as (q' & Hq' & _ & Hlogs);
    [done | done |].
  rewrite Hq in Hq'. injection Hq' as <-. by rewrite Hlogs in Hin.
Defined.

(** ** Aggregator: order, errors and warnings *)

Lemma keepEntry_bucketsInOrder (st : loader) (e : LogEntry) :
  bucketsInOrder st → bucketsInOrder (keepEntry st e).
Proof.
  intros Hord k. unfold keepEntry, appendTo. simpl. rewrite filter_app.
  destruct (decide (entryQuery e = k)) as [<- | Hne].
  - rewrite lookup_insert_eq. simpl. rewrite Hord.
    by rewrite (filter_cons_True _ e []).
  - rewrite lookup_insert_ne by done. rewrite Hord.
    rewrite (filter_cons_False _ e []) by done. by rewrite app_nil_r.
Qed.

Lemma scanLine_bucketsInOrder (Unmarshal : string → option LogEntry)
    (from to : option Time) (n : Z) (line : string) (st st' : loader) :
  scanLine Unmarshal from to n line st = Ok st' → bucketsInOrder st → bucketsInOrder st'.
Proof.
  intros Hstep Hord. destruct (Unmarshal line) as [e|] eqn:He.
  - rewrite (scanLine_decoded _ _ _ _ _ _ _ He) in Hstep.
    case_bool_decide as Hq; [by injection Hstep as <- |].
    destruct (TS e) as [t|].
    + injection Hstep as <-.
      destruct (inWindow from to t); [by apply keepEntry_bucketsInOrder | done].
    + destruct from, to; try done. injection Hstep as <-.
      by apply keepEntry_bucketsInOrder.
  - by rewrite scanLine_malformed in Hstep.
Qed.

Lemma scanLines_bucketsInOrder (Unmarshal : string → option LogEntry)
    (from to : option Time) (n : Z) (lines : list string) (st st' : loader) :
  scanLines Unmarshal from to n lines st = Ok st' → bucketsInOrder st → bucketsInOrder st'.
Proof.
  revert n st. induction lines as [|line lines IH]; intros n st; simpl.
  - by intros [= <-].
  - destruct (scanLine Unmarshal from to n line st) as [st1| |] eqn:Hstep; simpl; [| done..].
    intros Hrest Hord. eapply IH; [done |]. by eapply scanLine_bucketsInOrder.
Qed.

Lemma Forall2_groups_in_pairs (pairs : list (string * list LogEntry))
    (qs : list QueryGroup) :
  Forall2 (λ kv q, queryText q = kv.1 ∧ Logs q = kv.2) pairs qs →
  Forall (λ q, (queryText q, Logs q) ∈ pairs) qs.
Proof.
  induction 1 as [|[k v] q pairs qs [Hk Hv] _ IH]; [done |].
  simpl in Hk, Hv. constructor.
  - rewrite Hk, Hv. by left.
  - eapply Forall_impl; [exact IH |]. intros q' Hq'. by right.
Qed.

(** What a successful load leaves behind: the final loop state and the
    groups, one per bucket. *)
Lemma load_Ok_state (Unmarshal : string → option LogEntry)
    (rangeOrder : gmap string (list LogEntry) → list (string * list LogEntry))
    (lines : list string) (scanErr : option error) (from to : option Time)
    (queries : list QueryGroup) (logs' : list LogEntry) (logged' : list log_line) :
  (∀ m, rangeOrder m ≡ₚ map_to_list m) →
  LoadQueriesFromLog Unmarshal rangeOrder lines scanErr from to = Ok (queries, logs', logged') →
  ∃ st, scanLines Unmarshal from to 0 lines {| qMap := ∅; logs := []; logged := [] |} = Ok st
    ∧ logs' = logs st ∧ logged' = logged st
    ∧ loaderOk st ∧ bucketsInOrder st
    ∧ Forall (λ q, qMap st !! queryText q = Some (Logs q)) queries
    ∧ length queries = length (map_to_list (qMap st)).
Proof.
  intros Hperm Hload.
  apply LoadQueriesFromLog_Ok_inv in Hload as (st & Hscan & Hqs & -> & ->).
  exists st. split; [done |]. split; [done |]. split; [done |].
  pose proof (scanLines_loaderOk _ _ _ _ _ _ _ Hscan loaderOk_initial) as Hok.
  split; [done |].
  split.
  { apply (scanLines_bucketsInOrder _ _ _ _ _ _ _ Hscan). intros k. simpl.
    by rewrite lookup_empty. }
  destruct Hok as [Hb _].
  destruct (rangeNewQuery_Ok (rangeOrder (qMap st)) []) as (qs & Hqs' & Hrel).
  { rewrite Hperm. apply Forall_forall. intros [k v] Hkv.
    apply elem_of_map_to_list in Hkv. destruct (Hb k v Hkv) as (? & ? & _). done. }
  rewrite Hqs in Hqs'. injection Hqs' as ->. split.
  - eapply Forall_impl; [exact (Forall2_groups_in_pairs _ _ Hrel) |].
    intros q Hq. simpl in Hq. rewrite Hperm in Hq. by apply elem_of_map_to_list in Hq.
  - rewrite <- (Forall2_length _ _ _ Hrel). by rewrite Hperm.
Qed.

(** X8.  Whenever the load succeeds, every group has a non-empty query text and
    at least one record, and its records are the filtered records of that
    query in arrival order. *)
Theorem groups_keep_arrival_order
    (Unmarshal : string → option LogEntry)
    (rangeOrder : gmap string (list LogEntry) → list (string * list LogEntry))
    (lines : list string) (scanErr : option error) (from to : option Time)
    (queries : list QueryGroup) (logs : list LogEntry) (logged : list log_line) :
  (∀ m, rangeOrder m ≡ₚ map_to_list m) →
  LoadQueriesFromLog Unmarshal rangeOrder lines scanErr from to = Ok (queries, logs, logged) →
  Forall (λ q, queryText q ≠ "" ∧ Logs q ≠ []
               ∧ Logs q = filter (λ e, entryQuery e = queryText q) logs) queries.
Proof.
  intros Hperm Hload.
  destruct (load_Ok_state _ _ _ _ _ _ _ _ _ Hperm Hload)
    as (st & _ & -> & _ & [Hb _] & Hord & Hqs & _).
  eapply Forall_impl; [exact Hqs |]. intros q Hq. simpl in Hq.
  destruct (Hb _ _ Hq) as (Hk & Hv & _).
  split; [done |]. split; [done |].
  specialize (Hord (queryText q)). by rewrite Hq in Hord.
Qed.

Lemma groups_keep_arrival_order_witness :
  ∃ queries logs logged,
    LoadQueriesFromLog Sample.Unmarshal Sample.rangeOrder
      [Sample.lineUp; Sample.lineRate; Sample.lineEmptyQuery; Sample.lineUpLater] None
      None None = Ok (queries, logs, logged)
    ∧ Forall (λ q, Logs q = filter (λ e, entryQuery e = queryText q) logs) queries.
Proof.
  destruct (LoadQueriesFromLog Sample.Unmarshal Sample.rangeOrder
              [Sample.lineUp; Sample.lineRate; Sample.lineEmptyQuery; Sample.lineUpLater] None
              None None) as [[[queries logs] logged]| |] eqn:Hload;
    [| vm_compute in Hload; discriminate..].
  exists queries, logs, logged. split; [done |].
  eapply Forall_impl.
  - eapply (groups_keep_arrival_order Sample.Unmarshal Sample.rangeOrder);
      [intros m; reflexivity | exact Hload].
  - by intros q (_ & _ & ?).
Defined.

Lemma scanLines_Err_inv (Unmarshal : string → option LogEntry)
    (from to : option Time) (n : Z) (lines : list string) (st : loader) (e : error) :
  scanLines Unmarshal from to n lines st = Err e →
  ∃ (i : nat) line,
    e = ErrParseLine (n + Z.of_nat i)
    ∧ lines !! i = Some line ∧ Unmarshal line = None
    ∧ ∀ (j : nat) l, (j < i)%nat → lines !! j = Some l → is_Some (Unmarshal l).
Proof.
  revert n st. induction lines as [|line lines IH]; intros n st; simpl; [done |].
  destruct (Unmarshal line) as [entry|] eqn:He.
  - destruct (scanLine Unmarshal from to n line st) as [st1| |] eqn:Hstep; simpl.
    + intros Hrest. destruct (IH _ _ Hrest) as (i & l & -> & Hl & Hnone & Hbefore).
      exists (S i), l. split; [f_equal; lia |]. split; [done |]. split; [done |].
      intros [|j] l' Hj Hl'; simpl in Hl'.
      * injection Hl' as <-. by eexists.
      * apply (Hbefore j); [lia | done].
    + rewrite (scanLine_decoded _ _ _ _ _ _ _ He) in Hstep.
      case_bool_decide; [done |]. destruct (TS entry); [done |]. by destruct from, to.
    + done.
  - rewrite scanLine_malformed by done. simpl. intros [= <-].
    exists 0%nat, line. split; [f_equal; lia |]. split; [done |]. split; [done |].
    intros j l Hj. lia.
Qed.

Lemma scanLines_Ok_decoded (Unmarshal : string → option LogEntry)
    (from to : option Time) (n : Z) (lines : list string) (st st' : loader) :
  scanLines Unmarshal from to n lines st = Ok st' →
  Forall (λ line, is_Some (Unmarshal line)) lines.
Proof.
  revert n st. induction lines as [|line lines IH]; intros n st; simpl; [done |].
  destruct (scanLine Unmarshal from to n line st) as [st1| |] eqn:Hstep; simpl; [| done..].
  intros Hrest. constructor; [| by eapply IH].
  unfold scanLine in Hstep. destruct (Unmarshal line); [by eexists | done].
Qed.

(** X9.  The load returns two kinds of error and no other.  Either a line
    does not decode: the error is the parse error with the 0-based number
    of the first such line, raised inside the loop, whatever the scanner
    reports afterwards.  Or every line the scanner has yielded decodes and
    the error is the one [scanner.Err()] reports (a line too long, a read
    error), returned as it is and without a line number; on clean lines
    every such error is returned.  The load never fails to create a query
    group. *)
Theorem load_error_is_parse_or_scanner_error
    (Unmarshal : string → option LogEntry)
    (rangeOrder : gmap string (list LogEntry) → list (string * list LogEntry))
    (lines : list string) (scanErr : option error) (from to : option Time) :
  (∀ m, rangeOrder m ≡ₚ map_to_list m) →
  (∀ e, LoadQueriesFromLog Unmarshal rangeOrder lines scanErr from to = Err e →
     (∃ (i : nat) line,
        e = ErrParseLine (Z.of_nat i)
        ∧ lines !! i = Some line ∧ Unmarshal line = None
        ∧ ∀ (j : nat) l, (j < i)%nat → lines !! j = Some l → is_Some (Unmarshal l))
     ∨ (scanErr = Some e ∧ Forall (λ line, is_Some (Unmarshal line)) lines))
  ∧ (∀ err, scanErr = Some err → Forall (clean Unmarshal) lines →
       LoadQueriesFromLog Unmarshal rangeOrder lines scanErr from to = Err err).
Proof.
  intros Hperm. split.
  - intros e. unfold LoadQueriesFromLog.
    destruct (scanLines Unmarshal from to 0 lines _) as [st| |] eqn:Hscan; simpl.
    + destruct scanErr as [err|].
      * intros [= <-]. right. split; [done |]. by eapply scanLines_Ok_decoded.
      * pose proof (scanLines_loaderOk _ _ _ _ _ _ _ Hscan loaderOk_initial) as Hok.
        destruct (loaderOk_groups rangeOrder st Hperm Hok) as (qs & -> & _). done.
    + intros [= <-]. left. by apply scanLines_Err_inv in Hscan.
    + done.
  - intros err -> Hclean. unfold LoadQueriesFromLog.
    by destruct (scanLines_clean Unmarshal from to 0 lines
                   {| qMap := ∅; logs := []; logged := [] |} Hclean) as [st ->].
Qed.

Lemma load_error_is_parse_or_scanner_error_witness :
  (∃ (i : nat) line,
     ErrParseLine 1 = ErrParseLine (Z.of_nat i)
     ∧ [Sample.lineUp; Sample.lineGarbage; Sample.lineRate] !! i = Some line
     ∧ Sample.Unmarshal line = None)
  ∧ LoadQueriesFromLog Sample.Unmarshal Sample.rangeOrder
      [Sample.lineUp; Sample.lineRate; Sample.lineEmptyQuery; Sample.lineUpLater]
      (Some ErrTooLong) None None
    = Err ErrTooLong.
Proof.
  split.
  - destruct (proj1 (load_error_is_parse_or_scanner_error Sample.Unmarshal
                       Sample.rangeOrder [Sample.lineUp; Sample.lineGarbage; Sample.lineRate]
                       (Some ErrTooLong) None None ltac:(intros m; reflexivity))
                (ErrParseLine 1) ltac:(by vm_compute))
      as [(i & line & Hi & Hline & Hnone & _) | [Herr _]]; [| done].
    by exists i, line.
  - exact (proj2 (load_error_is_parse_or_scanner_error Sample.Unmarshal
                    Sample.rangeOrder _ (Some ErrTooLong) None None
                    ltac:(intros m; reflexivity))
             ErrTooLong eq_refl sample_lines_clean).
Defined.

Lemma bucketRecords_length (pairs : list (string * list LogEntry)) :
  Forall (λ kv, kv.2 ≠ []) pairs → (length pairs ≤ length (bucketRecords pairs))%nat.
Proof.
  unfold bucketRecords. induction 1 as [|[k v] pairs Hv _ IH]; [done |].
  rewrite fmap_cons. simpl in *. rewrite length_app.
  destruct v; [done | simpl; lia].
Qed.

(** X10.  A successful load yields no group exactly when no record survived, and
    never more groups than surviving records. *)
Theorem no_groups_iff_no_survivors
    (Unmarshal : string → option LogEntry)
    (rangeOrder : gmap string (list LogEntry) → list (string * list LogEntry))
    (lines : list string) (scanErr : option error) (from to : option Time)
    (queries : list QueryGroup) (logs : list LogEntry) (logged : list log_line) :
  (∀ m, rangeOrder m ≡ₚ map_to_list m) →
  LoadQueriesFromLog Unmarshal rangeOrder lines scanErr from to = Ok (queries, logs, logged) →
  (queries = [] ↔ logs = []) ∧ len queries ≤ len logs.
Proof.
  intros Hperm Hload.
  destruct (load_Ok_state _ _ _ _ _ _ _ _ _ Hperm Hload)
    as (st & Hscan & -> & _ & [Hb Hc] & _ & Hqs & Hlen).
  assert (Hsize : (length (map_to_list (qMap st)) ≤ length (logs st))%nat).
  { rewrite <- Hc. apply bucketRecords_length.
    apply Forall_forall. intros [k v] Hkv. apply elem_of_map_to_list in Hkv.
    by destruct (Hb k v Hkv) as (_ & ? & _). }
  split; [| unfold len; lia].
  split.
  - intros ->. simpl in Hlen.
    assert (Hnil : map_to_list (qMap st) = []) by (by destruct (map_to_list (qMap st))).
    rewrite Hnil in Hc. by apply Permutation.Permutation_nil in Hc.
  - intros Hnil. rewrite Hnil in Hsize. simpl in Hsize.
    destruct queries; [done | simpl in Hlen; lia].
Qed.

Lemma no_groups_iff_no_survivors_witness :
  ∃ logged,
    LoadQueriesFromLog Sample.Unmarshal Sample.rangeOrder
      [Sample.lineUp; Sample.lineEmptyQuery] None (Some (Sample.t0 + 1)) None
    = Ok ([], [], logged).
Proof.
  destruct (LoadQueriesFromLog Sample.Unmarshal Sample.rangeOrder
              [Sample.lineUp; Sample.lineEmptyQuery] None (Some (Sample.t0 + 1)) None)
    as [[[queries logs] logged]| |] eqn:Hload; [| vm_compute in Hload; discriminate..].
  destruct (no_groups_iff_no_survivors Sample.Unmarshal Sample.rangeOrder _ _ _ _ _ _ _
              ltac:(intros m; reflexivity) Hload) as [Hiff _].
  assert (Hlogs : logs = []) by (vm_compute in Hload; by injection Hload as _ <- _).
  exists logged. by rewrite (proj2 Hiff Hlogs), Hlogs.
Defined.

Lemma scanLines_logged (Unmarshal : string → option LogEntry)
    (from to : option Time) (n : Z) (lines : list string) (es : list LogEntry)
    (st st' : loader) :
  decodesTo Unmarshal lines es →
  scanLines Unmarshal from to n lines st = Ok st' →
  logged st' = logged st ++ emptyQueryWarnings n es.
Proof.
  intros Hdec. revert n st.
  induction Hdec as [|line e lines es He _ IH]; intros n st; simpl.
  - intros [= <-]. by rewrite app_nil_r.
  - rewrite (scanLine_decoded _ _ _ _ _ _ _ He).
    case_bool_decide as Hq; simpl.
    + intros Hrest. rewrite (IH _ _ Hrest). simpl. by rewrite <- (assoc_L (++)).
    + destruct (TS e) as [t|]; simpl.
      * destruct (inWindow from to t); intros Hrest; by rewrite (IH _ _ Hrest).
      * destruct from, to; try done. simpl. intros Hrest. by rewrite (IH _ _ Hrest).
Qed.

Lemma emptyQueryWarnings_elem (n m : Z) (es : list LogEntry) :
  LogEmptyQuery m ∈ emptyQueryWarnings n es ↔
    ∃ (i : nat) e, m = n + Z.of_nat i ∧ es !! i = Some e ∧ entryQuery e = "".
Proof.
  revert n. induction es as [|e es IH]; intros n; simpl.
  - split; [by intros ?%elem_of_nil | by intros (i & e & _ & ? & _)].
  - rewrite elem_of_app, IH. split.
    + intros [Hhere | (i & e' & -> & Hi & Hq)].
      * case_bool_decide as Hq; [| by apply elem_of_nil in Hhere].
        apply list_elem_of_singleton in Hhere. injection Hhere as ->.
        exists 0%nat, e. split; [lia | done].
      * exists (S i), e'. split; [lia | done].
    + intros ([|i] & e' & -> & Hi & Hq); simpl in Hi.
      * injection Hi as <-. left. rewrite bool_decide_eq_true_2 by done.
        apply list_elem_of_singleton. f_equal. lia.
      * right. exists i, e'. split; [lia | done].
Qed.

Lemma emptyQueryWarnings_length (n : Z) (es : list LogEntry) :
  length (emptyQueryWarnings n es) = length (filter (λ e, entryQuery e = "") es).
Proof.
  revert n. induction es as [|e es IH]; intros n; simpl; [done |].
  rewrite length_app, IH. case_bool_decide as Hq.
  - by rewrite filter_cons_True.
  - by rewrite filter_cons_False.
Qed.

(** X11.  A successful load logs one warning for each record with an empty query
    and nothing else, in input order, each warning carrying the 0-based
    number of the line of its record. *)
Theorem one_warning_per_empty_query
    (Unmarshal : string → option LogEntry)
    (rangeOrder : gmap string (list LogEntry) → list (string * list LogEntry))
    (lines : list string) (scanErr : option error) (entries : list LogEntry) (from to : option Time)
    (queries : list QueryGroup) (logs : list LogEntry) (logged : list log_line) :
  decodesTo Unmarshal lines entries →
  LoadQueriesFromLog Unmarshal rangeOrder lines scanErr from to = Ok (queries, logs, logged) →
  logged = emptyQueryWarnings 0 entries
  ∧ (∀ n, LogEmptyQuery n ∈ logged ↔
       ∃ (i : nat) e, n = Z.of_nat i ∧ entries !! i = Some e ∧ entryQuery e = "")
  ∧ length logged = length (filter (λ e, entryQuery e = "") entries).
Proof.
  intros Hdec Hload.
  apply LoadQueriesFromLog_Ok_inv in Hload as (st & Hscan & _ & _ & ->).
  rewrite (scanLines_logged _ _ _ _ _ _ _ _ Hdec Hscan). simpl.
  split; [done |]. split; [| apply emptyQueryWarnings_length].
  intros n. rewrite emptyQueryWarnings_elem.
  split; intros (i & e & Hn & ?); exists i, e; (split; [lia | done]).
Qed.

Lemma one_warning_per_empty_query_witness :
  ∃ queries logs,
    LoadQueriesFromLog Sample.Unmarshal Sample.rangeOrder
      [Sample.lineUp; Sample.lineEmptyQuery; Sample.lineRate; Sample.lineEmptyQuery] None
      None None
    = Ok (queries, logs, [LogEmptyQuery 1; LogEmptyQuery 3]).
Proof.
  destruct (LoadQueriesFromLog Sample.Unmarshal Sample.rangeOrder
              [Sample.lineUp; Sample.lineEmptyQuery; Sample.lineRate; Sample.lineEmptyQuery] None
              None None) as [[[queries logs] logged]| |] eqn:Hload;
    [| vm_compute in Hload; discriminate..].
  assert (Hdec : decodesTo Sample.Unmarshal
            [Sample.lineUp; Sample.lineEmptyQuery; Sample.lineRate; Sample.lineEmptyQuery]
            [Sample.entryUp; Sample.entryEmptyQuery; Sample.entryRate;
             Sample.entryEmptyQuery]) by (repeat constructor).
  destruct (one_warning_per_empty_query Sample.Unmarshal Sample.rangeOrder _ _ _ _ _ _ _ _
              Hdec Hload) as (-> & _).
  by exists queries, logs.
Defined.

(** ** Load statistics *)

Lemma LoadStats_scanLines_decoded (Unmarshal : string → option LogEntry)
    (from to : option Time) (n : Z) (lines : list string) (es : list LogEntry)
    (st : LoadStatsRev.loader) :
  decodesTo Unmarshal lines es →
  Forall datedEntry es →
  ∃ st', LoadStatsRev.scanLines Unmarshal from to n lines st = Ok st'
    ∧ LoadStatsRev.qMap st'
      = foldl appendTo (LoadStatsRev.qMap st) (filter (λ e, survives from to e) es)
    ∧ LoadStatsRev.stats st'
      = foldl countEntry (LoadStatsRev.stats st)
          (omap TS (filter (λ e, survives from to e) es))
    ∧ LoadStatsRev.logged st' = LoadStatsRev.logged st ++ emptyQueryWarnings n es.
Proof.
  intros Hdec. revert n st.
  induction Hdec as [|line e lines es He _ IH]; intros n st Hdated; simpl.
  - exists st. by rewrite !app_nil_r.
  - apply Forall_cons in Hdated as [Hdate Hdated].
    rewrite (LoadStats_scanLine_decoded _ _ _ _ _ _ _ He). unfold datedEntry in Hdate.
    case_bool_decide as Hq; simpl.
    + match goal with
      | |- context [LoadStatsRev.scanLines _ _ _ _ _ ?s] =>
          destruct (IH (n + 1) s Hdated) as (st' & -> & Hm & Hs & Hw)
      end.
      exists st'. rewrite filter_cons_False
        by (rewrite survives_empty by done; simpl; tauto).
      simpl in *. rewrite Hw, <- (assoc_L (++)). done.
    + destruct (Hdate Hq) as [t Ht]. rewrite Ht.
      destruct (inWindow from to t) eqn:Hwin; simpl.
      * match goal with
        | |- context [LoadStatsRev.scanLines _ _ _ _ _ ?s] =>
            destruct (IH (n + 1) s Hdated) as (st' & -> & Hm & Hs & Hw)
        end.
        exists st'. rewrite filter_cons_True
          by (rewrite (survives_dated _ _ _ t), Hwin by done; done).
        simpl in *. rewrite Ht. simpl. done.
      * destruct (IH (n + 1) st Hdated) as (st' & -> & Hm & Hs & Hw).
        exists st'. rewrite filter_cons_False
          by (rewrite (survives_dated _ _ _ t), Hwin by done; simpl; tauto).
        done.
Qed.

Lemma countEntry_fold (ts : list Time) (stats : LoadStatsRev.LoadStats) :
  let stats' := foldl countEntry stats ts in
  (0 ≤ LoadStatsRev.Num stats → LoadStatsRev.Num stats + len ts < 2 ^ 63 →
   LoadStatsRev.Num stats' = LoadStatsRev.Num stats + len ts)
  ∧ LoadStatsRev.From stats' ≤ LoadStatsRev.From stats
  ∧ LoadStatsRev.To stats ≤ LoadStatsRev.To stats'
  ∧ (∀ t, t ∈ ts → LoadStatsRev.From stats' ≤ t ≤ LoadStatsRev.To stats')
  ∧ (LoadStatsRev.From stats' = LoadStatsRev.From stats ∨ LoadStatsRev.From stats' ∈ ts)
  ∧ (LoadStatsRev.To stats' = LoadStatsRev.To stats ∨ LoadStatsRev.To stats' ∈ ts).
Proof.
  revert stats. induction ts as [|t ts IH]; intros stats; simpl.
  - split; [intros; unfold len; simpl; lia |]. split; [lia |]. split; [lia |].
    split; [by intros ? ?%elem_of_nil |]. split; by left.
  - destruct (IH (countEntry stats t)) as (Hnum & Hfrom & Hto & Hall & Hf & Hu).
    simpl in *.
    assert (Hf1 : (if t <? LoadStatsRev.From stats then t else LoadStatsRev.From stats)
                  ≤ LoadStatsRev.From stats
                  ∧ (if t <? LoadStatsRev.From stats then t else LoadStatsRev.From stats) ≤ t)
      by (destruct (Z.ltb_spec t (LoadStatsRev.From stats)); lia).
    assert (Hu1 : LoadStatsRev.To stats
                  ≤ (if LoadStatsRev.To stats <? t then t else LoadStatsRev.To stats)
                  ∧ t ≤ (if LoadStatsRev.To stats <? t then t else LoadStatsRev.To stats))
      by (destruct (Z.ltb_spec (LoadStatsRev.To stats) t); lia).
    split; [| split; [lia | split; [lia | split; [| split]]]].
    + intros Hn0 Hlen. unfold len in *. simpl length in *.
      rewrite Hnum; rewrite wrap64_small; lia.
    + intros t' [-> | Hin]%elem_of_cons; [lia | by apply Hall].
    + destruct Hf as [-> | Hin]; [| by right; right].
      destruct (Z.ltb_spec t (LoadStatsRev.From stats)); [right; by left | by left].
    + destruct Hu as [-> | Hin]; [| by right; right].
      destruct (Z.ltb_spec (LoadStatsRev.To stats) t); [right; by left | by left].
Qed.

Lemma survivors_have_timestamps from to (es : list LogEntry) :
  Forall (λ e, is_Some (TS e)) (filter (λ e, survives from to e) es).
Proof.
  apply Forall_forall. intros e [Hs He]%list_elem_of_filter.
  apply Is_true_true in Hs. unfold survives in Hs.
  destruct (TS e); [by eexists | by rewrite andb_false_r in Hs].
Qed.

Lemma stamps_length (l : list LogEntry) :
  Forall (λ e, is_Some (TS e)) l → length (omap TS l) = length l.
Proof.
  induction 1 as [|e l [t Ht] _ IH]; [done |].
  cbn [omap list_omap]. rewrite Ht. simpl. by rewrite IH.
Qed.

Lemma LoadStats_load_decoded
    (Unmarshal : string → option LogEntry)
    (rangeOrder : gmap string (list LogEntry) → list (string * list LogEntry))
    (now : Time) (lines : list string) (es : list LogEntry) (from to : option Time) :
  decodesTo Unmarshal lines es →
  Forall datedEntry es →
  LoadStatsRev.LoadQueriesFromLog Unmarshal rangeOrder now lines None from to =
    do queries <- rangeNewQuery
                    (rangeOrder (foldl appendTo ∅ (filter (λ e, survives from to e) es))) [];
    Ok (queries,
        foldl countEntry
          {| LoadStatsRev.Num := 0; LoadStatsRev.From := now; LoadStatsRev.To := zeroTime |}
          (omap TS (filter (λ e, survives from to e) es)),
        emptyQueryWarnings 0 es).
Proof.
  intros Hdec Hdated. unfold LoadStatsRev.LoadQueriesFromLog.
  destruct (LoadStats_scanLines_decoded Unmarshal from to 0 lines es
              {| LoadStatsRev.qMap := ∅;
                 LoadStatsRev.stats := {| LoadStatsRev.Num := 0; LoadStatsRev.From := now;
                                          LoadStatsRev.To := zeroTime |};
                 LoadStatsRev.logged := [] |} Hdec Hdated) as (st & -> & Hm & Hs & Hw).
  simpl in *. by rewrite Hm, Hs, Hw.
Qed.

(** X12.  The load statistics of the load-statistics revision, on lines that
    decode to dated records: [Num] counts the surviving records; [From] is
    at most the start time and [To] at least the zero time; every
    surviving timestamp lies between them; and [From] is the least
    surviving timestamp as soon as one of them is not after the start of
    the run, [To] the greatest as soon as one is not before the zero
    time. *)
Theorem load_stats_bound_surviving_timestamps
    (Unmarshal : string → option LogEntry)
    (rangeOrder : gmap string (list LogEntry) → list (string * list LogEntry))
    (now : Time) (lines : list string) (scanErr : option error) (entries : list LogEntry)
    (from to : option Time)
    (queries : list QueryGroup) (loadStats : LoadStatsRev.LoadStats)
    (logged : list log_line) :
  decodesTo Unmarshal lines entries →
  Forall datedEntry entries →
  LoadStatsRev.LoadQueriesFromLog Unmarshal rangeOrder now lines scanErr from to
    = Ok (queries, loadStats, logged) →
  let stamps := omap TS (filter (λ e, survives from to e) entries) in
  (len stamps < 2 ^ 63 → LoadStatsRev.Num loadStats = len stamps)
  ∧ len stamps = len (filter (λ e, survives from to e) entries)
  ∧ LoadStatsRev.From loadStats ≤ now
  ∧ zeroTime ≤ LoadStatsRev.To loadStats
  ∧ (∀ t, t ∈ stamps → LoadStatsRev.From loadStats ≤ t ≤ LoadStatsRev.To loadStats)
  ∧ (Exists (λ t, t ≤ now) stamps → LoadStatsRev.From loadStats ∈ stamps)
  ∧ (Exists (λ t, zeroTime ≤ t) stamps → LoadStatsRev.To loadStats ∈ stamps).
Proof.
  intros Hdec Hdated Hload stamps.
  pose proof (LoadStats_LoadQueriesFromLog_Ok_scanErr _ _ _ _ _ _ _ _ Hload) as ->.
  rewrite (LoadStats_load_decoded _ _ _ _ _ _ _ Hdec Hdated) in Hload.
  destruct (rangeNewQuery _ _) as [qs| |]; simpl in Hload; [| done..].
  injection Hload as _ <- _. fold stamps.
  destruct (countEntry_fold stamps
              {| LoadStatsRev.Num := 0; LoadStatsRev.From := now; LoadStatsRev.To := zeroTime |})
    as (Hnum & Hfrom & Hto & Hall & Hf & Hu). simpl in *.
  split; [intros Hlen; rewrite Hnum; lia |].
  split.
  { unfold stamps, len. f_equal. apply stamps_length, survivors_have_timestamps. }
  split; [done |]. split; [done |]. split; [done |].
  split.
  - intros [t [Hin Ht]]%Exists_exists. destruct Hf as [Heq | ?]; [| done].
    specialize (Hall t Hin). assert (t = now) as -> by lia. by rewrite Heq.
  - intros [t [Hin Ht]]%Exists_exists. destruct Hu as [Heq | ?]; [| done].
    specialize (Hall t Hin). assert (t = zeroTime) as -> by lia. by rewrite Heq.
Qed.

Lemma load_stats_bound_surviving_timestamps_witness :
  ∃ queries logged,
    LoadStatsRev.LoadQueriesFromLog Sample.Unmarshal Sample.rangeOrder
      (Sample.t0 + Sample.seconds 3600)
      [Sample.lineUp; Sample.lineRate; Sample.lineEmptyQuery; Sample.lineUpLater]
      None None None
    = Ok (queries,
          {| LoadStatsRev.Num := 3;
             LoadStatsRev.From := Sample.t0;
             LoadStatsRev.To := Sample.t0 + Sample.seconds 120 |},
          logged).
Proof.
  destruct (LoadStatsRev.LoadQueriesFromLog Sample.Unmarshal Sample.rangeOrder
              (Sample.t0 + Sample.seconds 3600)
              [Sample.lineUp; Sample.lineRate; Sample.lineEmptyQuery; Sample.lineUpLater]
              None None None) as [[[queries loadStats] logged]| |] eqn:Hload;
    [| vm_compute in Hload; discriminate..].
  assert (Hdec : decodesTo Sample.Unmarshal
            [Sample.lineUp; Sample.lineRate; Sample.lineEmptyQuery; Sample.lineUpLater]
            [Sample.entryUp; Sample.entryRate; Sample.entryEmptyQuery; Sample.entryUpLater])
    by (repeat constructor).
  assert (Hdated : Forall datedEntry
            [Sample.entryUp; Sample.entryRate; Sample.entryEmptyQuery; Sample.entryUpLater])
    by (repeat constructor; intros _; by eexists).
  pose proof (load_stats_bound_surviving_timestamps _ _ _ _ _ _ _ _ _ _ _
                Hdec Hdated Hload) as (Hnum & _).
  exists queries, logged. vm_compute in Hload. by injection Hload as <- <- <-.
Defined.

(** ** The two revisions *)

(** X13.  On lines that decode to dated records, read to the end of the file
    without a scanner error, the two revisions of the loader agree: both
    succeed, with the same groups and the same warnings, and the record
    counter of the one is the length of the record list of the other. *)
Theorem revisions_load_the_same_groups
    (Unmarshal : string → option LogEntry)
    (rangeOrder : gmap string (list LogEntry) → list (string * list LogEntry))
    (now : Time) (lines : list string) (entries : list LogEntry) (from to : option Time) :
  (∀ m, rangeOrder m ≡ₚ map_to_list m) →
  decodesTo Unmarshal lines entries →
  Forall datedEntry entries →
  ∃ queries logs loadStats logged,
    LoadQueriesFromLog Unmarshal rangeOrder lines None from to = Ok (queries, logs, logged)
    ∧ LoadStatsRev.LoadQueriesFromLog Unmarshal rangeOrder now lines None from to
      = Ok (queries, loadStats, logged)
    ∧ (len logs < 2 ^ 63 → LoadStatsRev.Num loadStats = len logs).
Proof.
  intros Hperm Hdec Hdated.
  destruct (scanLines_decoded Unmarshal from to 0 lines entries
              {| qMap := ∅; logs := []; logged := [] |} Hdec Hdated)
    as (st & Hscan & Hm & Hl & Hw). simpl in Hm, Hl, Hw.
  pose proof (scanLines_loaderOk _ _ _ _ _ _ _ Hscan loaderOk_initial) as Hok.
  destruct (loaderOk_groups rangeOrder st Hperm Hok) as (qs & Hqs & _).
  exists qs, (logs st), (foldl countEntry
                 {| LoadStatsRev.Num := 0; LoadStatsRev.From := now;
                    LoadStatsRev.To := zeroTime |}
                 (omap TS (filter (λ e, survives from to e) entries))),
    (logged st).
  split; [by rewrite (LoadQueriesFromLog_scanned _ _ _ _ _ _ Hscan), Hqs |].
  split.
  - rewrite (LoadStats_load_decoded _ _ _ _ _ _ _ Hdec Hdated), <- Hm, Hqs. simpl.
    by rewrite Hw.
  - intros Hlen.
    destruct (countEntry_fold (omap TS (filter (λ e, survives from to e) entries))
                {| LoadStatsRev.Num := 0; LoadStatsRev.From := now;
                   LoadStatsRev.To := zeroTime |}) as (Hnum & _). simpl in Hnum.
    assert (Hstamps : len (omap TS (filter (λ e, survives from to e) entries)) = len (logs st)).
    { rewrite Hl. unfold len. f_equal. apply stamps_length, survivors_have_timestamps. }
    rewrite Hnum; lia.
Qed.

Lemma revisions_load_the_same_groups_witness :
  ∃ queries logs loadStats logged,
    LoadQueriesFromLog Sample.Unmarshal Sample.rangeOrder
      [Sample.lineUp; Sample.lineRate; Sample.lineEmptyQuery; Sample.lineUpLater] None
      (Some Sample.t0) None = Ok (queries, logs, logged)
    ∧ LoadStatsRev.LoadQueriesFromLog Sample.Unmarshal Sample.rangeOrder Sample.t0
        [Sample.lineUp; Sample.lineRate; Sample.lineEmptyQuery; Sample.lineUpLater] None
        (Some Sample.t0) None = Ok (queries, loadStats, logged).
Proof.
  destruct (revisions_load_the_same_groups Sample.Unmarshal Sample.rangeOrder Sample.t0
              [Sample.lineUp; Sample.lineRate; Sample.lineEmptyQuery; Sample.lineUpLater]
              [Sample.entryUp; Sample.entryRate; Sample.entryEmptyQuery; Sample.entryUpLater]
              (Some Sample.t0) None)
    as (queries & logs & loadStats & logged & H1 & H2 & _).
  - intros m. reflexivity.
  - repeat constructor.
  - repeat constructor; intros _; by eexists.
  - exists queries, logs, loadStats, logged. exact (conj H1 H2).
Defined.

(** ** Row formatting *)

Lemma removeNL_from_no_LF (skipping : bool) (str : string) :
  LF ∉ chars (removeNL_from skipping str).
Proof.
  revert skipping. induction str as [|c rest IH]; intros skipping; simpl.
  - apply not_elem_of_nil.
  - case_bool_decide as Hc; [apply IH |].
    destruct (skipping && is_space c); [apply IH |].
    simpl. apply not_elem_of_cons. split; [by intros <- | apply IH].
Qed.

Lemma removeNL_from_sublist (skipping : bool) (str : string) :
  chars (removeNL_from skipping str) `sublist_of` chars str.
Proof.
  revert skipping. induction str as [|c rest IH]; intros skipping; simpl; [done |].
  case_bool_decide as Hc; [by apply sublist_cons |].
  destruct (skipping && is_space c); [by apply sublist_cons |].
  simpl. by apply sublist_skip.
Qed.

Lemma removeNL_from_fixed (str : string) :
  LF ∉ chars str → removeNL_from false str = str.
Proof.
  induction str as [|c rest IH]; simpl; [done |].
  intros [Hc Hrest]%not_elem_of_cons.
  rewrite bool_decide_eq_false_2 by (by intros ->). simpl. by rewrite IH.
Qed.

(** X14.  [removeNL] only deletes characters, and what it returns contains no
    line feed. *)
Theorem removeNL_deletes_every_line_feed (str : string) :
  (LF ∉ chars (removeNL str)) ∧ (chars (removeNL str) `sublist_of` chars str).
Proof.
  split; [apply removeNL_from_no_LF | apply removeNL_from_sublist].
Qed.

(** X15.  A string without line feed is returned as it is, leading and inner
    blanks included. *)
Theorem removeNL_keeps_single_line (str : string) :
  LF ∉ chars str → removeNL str = str.
Proof. apply removeNL_from_fixed. Qed.

Lemma removeNL_keeps_single_line_witness :
  removeNL "  sum by (job) (rate(x[5m]))" = "  sum by (job) (rate(x[5m]))".
Proof.
  apply removeNL_keeps_single_line. simpl.
  intros Hin. repeat (apply elem_of_cons in Hin as [Hin | Hin]; [discriminate |]).
  by apply elem_of_nil in Hin.
Defined.

(** X16.  Applying [removeNL] twice changes nothing more. *)
Theorem removeNL_idempotent (str : string) :
  removeNL (removeNL str) = removeNL str.
Proof. apply removeNL_from_fixed, removeNL_from_no_LF. Qed.

(** ** Ranker: order of the rows *)

Lemma descending_total {A : Type} (less : A → A → bool) :
  (∀ a b, less a b = true → less b a = false) → Total (descending less).
Proof.
  intros Hasym a b. unfold descending.
  destruct (less a b) eqn:Hab; [right; by apply Hasym | by left].
Qed.

Lemma Sorted_StronglySorted_on {A : Type} (R : relation A) (l : list A) :
  (∀ a b c, a ∈ l → b ∈ l → c ∈ l → R a b → R b c → R a c) →
  Sorted R l → StronglySorted R l.
Proof.
  intros Htrans Hsorted.
  induction Hsorted as [|x l Hl IH Hhd]; [constructor |].
  assert (Hstrong : StronglySorted R l).
  { apply IH. intros a b c Ha Hb Hc. apply Htrans; by right. }
  constructor; [done |].
  destruct Hhd as [|y l' Hxy]; [done |].
  apply StronglySorted_inv in Hstrong as [_ Hall].
  apply Forall_forall. intros z [-> | Hz]%elem_of_cons; [done |].
  rewrite Forall_forall in Hall.
  apply (Htrans x y z); [by left | by right; left | by do 2 right | done | by apply Hall].
Qed.

Lemma StronglySorted_lookup_lt {A : Type} (R : relation A) (l : list A)
    (i j : nat) (a b : A) :
  StronglySorted R l → (i < j)%nat → l !! i = Some a → l !! j = Some b → R a b.
Proof.
  intros Hsorted. revert i j.
  induction Hsorted as [|x l _ IH Hall]; intros i j Hij Hi Hj.
  - by rewrite lookup_nil in Hi.
  - destruct j as [|j]; [lia |]. simpl in Hj. destruct i as [|i]; simpl in Hi.
    + injection Hi as <-. rewrite Forall_forall in Hall.
      apply Hall. by eapply list_elem_of_lookup_2.
    + apply (IH i j); [lia | done | done].
Qed.

Lemma f64_lt_chain (a b c : float64) :
  f64_isNaN a = false → f64_isNaN b = false → f64_isNaN c = false →
  f64_lt a b = false → f64_lt b c = false → f64_lt a c = false.
Proof.
  intros Ha Hb Hc Hab Hbc. destruct (f64_lt a c) eqn:Hac; [| done].
  pose proof (f64_lt_negtrans b a c Hb Ha Hc Hac Hab). congruence.
Qed.

Lemma ranking_asym (less : QueryGroup → QueryGroup → bool) :
  less ∈ rankings → ∀ a b, less a b = true → less b a = false.
Proof.
  intros Hless a b. unfold rankings in Hless.
  repeat (apply elem_of_cons in Hless as [-> | Hless]);
    [| | | | | | by apply elem_of_nil in Hless];
    unfold ByAvgExecTotalTime, ByMaxExecTotalTime, ByAvgTotalQueryableSamples,
      ByMaxTotalQueryableSamples, ByAvgPeakSamples, ByMaxPeakSamples;
    first [apply f64_lt_asym | (rewrite Z.ltb_lt, Z.ltb_ge; lia)].
Qed.

Lemma ranking_chain (less : QueryGroup → QueryGroup → bool) (a b c : QueryGroup) :
  less ∈ rankings → numericGroup a → numericGroup b → numericGroup c →
  less a b = false → less b c = false → less a c = false.
Proof.
  intros Hless (Ha1 & Ha2 & Ha3 & Ha4) (Hb1 & Hb2 & Hb3 & Hb4) (Hc1 & Hc2 & Hc3 & Hc4).
  unfold rankings in Hless.
  repeat (apply elem_of_cons in Hless as [-> | Hless]);
    [| | | | | | by apply elem_of_nil in Hless];
    unfold ByAvgExecTotalTime, ByMaxExecTotalTime, ByAvgTotalQueryableSamples,
      ByMaxTotalQueryableSamples, ByAvgPeakSamples, ByMaxPeakSamples;
    first [by apply f64_lt_chain | (rewrite !Z.ltb_ge; lia)].
Qed.

(** X17.  Each of the six sorts of [main] rearranges the groups so that no group
    is smaller, by the metric sorted on, than any group after it: the
    first [n] groups of the sorted collection, which are the rows of the
    table, are the [n] greatest, and their rows come in non-increasing
    order.  The binary64 metrics are numbers. *)
Theorem ranking_puts_greatest_first (less : QueryGroup → QueryGroup → bool)
    (queries : list QueryGroup) (n : nat) :
  less ∈ rankings →
  Forall numericGroup queries →
  let sorted := sort_Reverse less queries in
  sorted ≡ₚ queries
  ∧ (∀ (i j : nat) a b, (i < j)%nat → sorted !! i = Some a → sorted !! j = Some b →
       less a b = false)
  ∧ (∀ a b, a ∈ take n sorted → b ∈ drop n sorted → less a b = false).
Proof.
  intros Hless Hnum sorted.
  assert (Hperm : sorted ≡ₚ queries) by apply sort_Reverse_Permutation.
  assert (Hstrong : StronglySorted (descending less) sorted).
  { apply Sorted_StronglySorted_on.
    - intros a b c Ha Hb Hc. rewrite Hperm in Ha, Hb, Hc.
      rewrite Forall_forall in Hnum. apply (ranking_chain less a b c); auto.
    - apply (Sorted_merge_sort _ (Total0 := descending_total less (ranking_asym less Hless))). }
  assert (Hpair : ∀ (i j : nat) a b, (i < j)%nat → sorted !! i = Some a →
            sorted !! j = Some b → less a b = false).
  { intros i j a b Hij Hi Hj.
    exact (StronglySorted_lookup_lt _ _ i j a b Hstrong Hij Hi Hj). }
  split; [done |]. split; [done |].
  intros a b [i [Hi Hin]]%elem_of_take [j Hj]%list_elem_of_lookup.
  rewrite lookup_drop in Hj. apply (Hpair i (n + j)%nat); [lia | done | done].
Qed.

Lemma ranking_puts_greatest_first_witness :
  ∃ queries logs logged,
    LoadQueriesFromLog Sample.Unmarshal Sample.rangeOrder
      [Sample.lineUp; Sample.lineRate; Sample.lineEmptyQuery; Sample.lineUpLater] None
      None None = Ok (queries, logs, logged)
    ∧ Forall numericGroup queries
    ∧ ∀ a b, a ∈ take 1 (sort_Reverse ByMaxExecTotalTime queries) →
             b ∈ drop 1 (sort_Reverse ByMaxExecTotalTime queries) →
             ByMaxExecTotalTime a b = false.
Proof.
  destruct (LoadQueriesFromLog Sample.Unmarshal Sample.rangeOrder
              [Sample.lineUp; Sample.lineRate; Sample.lineEmptyQuery; Sample.lineUpLater] None
              None None) as [[[queries logs] logged]| |] eqn:Hload;
    [| vm_compute in Hload; discriminate..].
  assert (Hnum : Forall numericGroup queries).
  { vm_compute in Hload. injection Hload as <- _ _. repeat constructor. }
  exists queries, logs, logged. split; [done |]. split; [exact Hnum |].
  exact (proj2 (proj2 (ranking_puts_greatest_first ByMaxExecTotalTime queries 1
                         ltac:(unfold rankings; repeat constructor) Hnum))).
Defined.

(** ** Report of the load-statistics revision *)

Lemma appendTo_stamped (m : gmap string (list LogEntry)) (e : LogEntry) :
  entryQuery e ≠ "" → is_Some (TS e) → stampedBuckets m → stampedBuckets (appendTo m e).
Proof.
  intros Hq Ht Hm. unfold appendTo. apply map_Forall_insert_2; [| done].
  split; [done |]. split; [by destruct (default [] (m !! entryQuery e)) |].
  apply Forall_app. split; [| by apply Forall_singleton].
  destruct (m !! entryQuery e) as [v|] eqn:Hv; simpl; [| done].
  by destruct (Hm _ _ Hv) as (_ & _ & ?).
Qed.

Lemma LoadStats_scanLine_stamped (Unmarshal : string → option LogEntry)
    (from to : option Time) (n : Z) (line : string) (st st' : LoadStatsRev.loader) :
  LoadStatsRev.scanLine Unmarshal from to n line st = Ok st' →
  stampedBuckets (LoadStatsRev.qMap st) → stampedBuckets (LoadStatsRev.qMap st').
Proof.
  unfold LoadStatsRev.scanLine. destruct (Unmarshal line) as [e|]; [| done].
  case_bool_decide as Hq; [by intros [= <-] |].
  destruct (beforeFrom from e) as [[]| |]; simpl; [by intros [= <-] | | done..].
  destruct (afterTo to e) as [[]| |]; simpl; [by intros [= <-] | | done..].
  destruct (LoadStatsRev.updateStats (LoadStatsRev.stats st) e) as [stats'| |] eqn:Hup;
    simpl; [| done..].
  intros [= <-] Hm. simpl. apply appendTo_stamped; [done | | done].
  unfold LoadStatsRev.updateStats, Before in Hup. destruct (TS e); [by eexists | done].
Qed.

Lemma LoadStats_scanLines_stamped (Unmarshal : string → option LogEntry)
    (from to : option Time) (n : Z) (lines : list string) (st st' : LoadStatsRev.loader) :
  LoadStatsRev.scanLines Unmarshal from to n lines st = Ok st' →
  stampedBuckets (LoadStatsRev.qMap st) → stampedBuckets (LoadStatsRev.qMap st').
Proof.
  revert n st. induction lines as [|line lines IH]; intros n st; simpl.
  - by intros [= <-].
  - destruct (LoadStatsRev.scanLine Unmarshal from to n line st) as [st1| |] eqn:Hline;
      simpl; [| done..].
    intros Hrest Hm. apply (IH _ _ Hrest).
    by apply (LoadStats_scanLine_stamped _ _ _ _ _ _ _ Hline).
Qed.

Lemma NewQuery_printable (query : string) (logs : list LogEntry) (q : QueryGroup) :
  Forall (λ e, is_Some (TS e)) logs → NewQuery query logs = Ok q → printable q.
Proof.
  intros Hts. unfold NewQuery. case_bool_decide as Hq; [done |].
  destruct logs as [|first rest]; [done |]. intros [= <-]. unfold printable.
  cbn [MaxExecTotalTimeEntry MaxTotalQueryableSamplesEntry MaxPeakSamplesEntry Logs].
  rewrite newQueryLoop_maxExec, newQueryLoop_maxTotal, newQueryLoop_maxPeak.
  cbn [maxExecTotalTimeEntry maxTotalQueryableSamplesEntry maxPeakSamplesEntry].
  assert (Hin : ∀ {M : Type} (lt : M → M → bool) (metric : LogEntry → M),
            is_Some (TS (fold_left (pickMax lt metric) (first :: rest) first))).
  { intros M lt metric. rewrite Forall_forall in Hts. apply Hts.
    pose proof (pickMax_fold_in lt metric (first :: rest) first) as Hin.
    apply elem_of_cons in Hin as [-> | Hin]; [by left | done]. }
  split; [done |]. repeat split; apply Hin.
Qed.

Lemma rangeNewQuery_printable (pairs : list (string * list LogEntry))
    (acc qs : list QueryGroup) :
  Forall (λ kv, Forall (λ e, is_Some (TS e)) kv.2) pairs →
  Forall printable acc →
  rangeNewQuery pairs acc = Ok qs → Forall printable qs.
Proof.
  revert acc. induction pairs as [|[k v] pairs IH]; intros acc Hall Hacc; simpl.
  - by intros [= <-].
  - apply Forall_cons in Hall as [Hv Hall]. simpl in Hv.
    destruct (NewQuery k v) as [q| |] eqn:Hq; [| done..].
    apply IH; [done |]. apply Forall_app. split; [done |].
    apply Forall_singleton. by apply (NewQuery_printable k v).
Qed.

Lemma LoadStats_load_printable
    (Unmarshal : string → option LogEntry)
    (rangeOrder : gmap string (list LogEntry) → list (string * list LogEntry))
    (now : Time) (lines : list string) (scanErr : option error) (from to : option Time)
    (queries : list QueryGroup) (loadStats : LoadStatsRev.LoadStats)
    (logged : list log_line) :
  (∀ m, rangeOrder m ≡ₚ map_to_list m) →
  LoadStatsRev.LoadQueriesFromLog Unmarshal rangeOrder now lines scanErr from to
    = Ok (queries, loadStats, logged) →
  Forall printable queries.
Proof.
  intros Hperm. unfold LoadStatsRev.LoadQueriesFromLog.
  destruct (LoadStatsRev.scanLines _ _ _ _ _ _) as [st| |] eqn:Hscan; simpl; [| done..].
  destruct scanErr; [done |].
  destruct (rangeNewQuery _ _) as [qs| |] eqn:Hqs; simpl; [| done..].
  intros [= <- _ _].
  apply (rangeNewQuery_printable (rangeOrder (LoadStatsRev.qMap st)) [] qs);
    [| constructor | done].
  apply LoadStats_scanLines_stamped in Hscan; [| apply map_Forall_empty].
  rewrite Hperm. apply Forall_forall. intros [k v] Hkv.
  apply elem_of_map_to_list in Hkv. by destruct (Hscan k v Hkv) as (_ & _ & ?).
Qed.

(** X18.  Once the load-statistics revision has loaded at least one group, its
    report never fails on the data: for a non-negative count it prints the
    six tables, each with [min count (number of groups)] rows, after the
    summary line that closes the log; for a negative count it panics on the
    first slice, whatever was loaded. *)
Theorem load_stats_report_depends_on_count_only
    (Unmarshal : string → option LogEntry)
    (rangeOrder : gmap string (list LogEntry) → list (string * list LogEntry))
    (now : Time) (from to : option Time) (argTop : Z) (lines : list string)
    (scanErr : option error)
    (queries : list QueryGroup) (loadStats : LoadStatsRev.LoadStats)
    (logged : list log_line) :
  (∀ m, rangeOrder m ≡ₚ map_to_list m) →
  LoadStatsRev.LoadQueriesFromLog Unmarshal rangeOrder now lines scanErr from to
    = Ok (queries, loadStats, logged) →
  queries ≠ [] →
  (0 ≤ argTop →
     ∃ rep, LoadStatsRev.main Unmarshal rangeOrder now from to argTop lines scanErr = Ok rep
       ∧ length (stdout rep) = 6%nat
       ∧ Forall (λ t, len (tableRows t) = Z.min argTop (len queries)) (stdout rep)
       ∧ stderr rep = logged ++ [LogLoaded (LoadStatsRev.Num loadStats)
                                   (Some (LoadStatsRev.From loadStats))
                                   (Some (LoadStatsRev.To loadStats))])
  ∧ (argTop < 0 →
     LoadStatsRev.main Unmarshal rangeOrder now from to argTop lines scanErr
       = Panic (SliceBoundsOutOfRange argTop (len queries))).
Proof.
  intros Hperm Hload Hne.
  assert (Hlen : (len queries =? 0) = false)
    by (apply Z.eqb_neq; unfold len; destruct queries; [done | simpl; lia]).
  split.
  - intros Htop.
    pose proof (LoadStats_load_printable _ _ _ _ _ _ _ _ _ _ Hperm Hload) as Hprint.
    destruct (LoadStats_main_tables _ _ _ _ _ _ _ _ _ _ _ Htop Hload Hne Hprint)
      as (rep & Hmain & Hsix & Hrows).
    exists rep. split; [done |]. split; [done |]. split; [done |].
    unfold LoadStatsRev.main in Hmain. rewrite Hload, Hlen in Hmain.
    destruct (avgExecTable _ _) as [[q1 t1]| |]; simpl in Hmain; [| done..].
    destruct (maxExecTable _ _) as [[q2 t2]| |]; simpl in Hmain; [| done..].
    destruct (avgTotalTable _ _) as [[q3 t3]| |]; simpl in Hmain; [| done..].
    destruct (maxTotalTable _ _) as [[q4 t4]| |]; simpl in Hmain; [| done..].
    destruct (avgPeakTable _ _) as [[q5 t5]| |]; simpl in Hmain; [| done..].
    destruct (maxPeakTable _ _) as [[q6 t6]| |]; simpl in Hmain; [| done..].
    by injection Hmain as <-.
  - intros Htop. unfold LoadStatsRev.main. rewrite Hload, Hlen.
    assert (Hclamp : clampTop argTop queries = argTop).
    { unfold clampTop. replace (len queries <? argTop) with false; [done |].
      symmetry. apply Z.ltb_ge. unfold len. lia. }
    rewrite Hclamp. unfold avgExecTable, printAvgTable, slice_to.
    replace (0 <=? argTop) with false by (symmetry; apply Z.leb_gt; lia).
    simpl. by rewrite (len_Permutation _ _ (sort_Reverse_Permutation _ _)).
Qed.

Lemma load_stats_report_depends_on_count_only_witness :
  (∃ rep,
     LoadStatsRev.main Sample.Unmarshal Sample.rangeOrder Sample.t0 None None 1
       [Sample.lineUp; Sample.lineRate; Sample.lineEmptyQuery; Sample.lineUpLater] None = Ok rep
     ∧ length (stdout rep) = 6%nat
     ∧ stderr rep = [LogEmptyQuery 2;
                     LogLoaded 3 (Some Sample.t0) (Some (Sample.t0 + Sample.seconds 120))])
  ∧ LoadStatsRev.main Sample.Unmarshal Sample.rangeOrder Sample.t0 None None (-1)
      [Sample.lineUp; Sample.lineRate; Sample.lineEmptyQuery; Sample.lineUpLater] None
    = Panic (SliceBoundsOutOfRange (-1) 2).
Proof.
  destruct (LoadStatsRev.LoadQueriesFromLog Sample.Unmarshal Sample.rangeOrder Sample.t0
              [Sample.lineUp; Sample.lineRate; Sample.lineEmptyQuery; Sample.lineUpLater] None
              None None) as [[[queries loadStats] logged]| |] eqn:Hload;
    [| vm_compute in Hload; discriminate..].
  assert (Hfacts : queries ≠ [] ∧ len queries = 2 ∧ logged = [LogEmptyQuery 2]
            ∧ loadStats = {| LoadStatsRev.Num := 3; LoadStatsRev.From := Sample.t0;
                             LoadStatsRev.To := Sample.t0 + Sample.seconds 120 |}).
  { vm_compute in Hload. injection Hload as <- <- <-. by vm_compute. }
  destruct Hfacts as (Hne & Hlen & Hlogged & Hstats).
  split.
  - destruct (proj1 (load_stats_report_depends_on_count_only Sample.Unmarshal
                       Sample.rangeOrder Sample.t0 None None 1 _ None queries loadStats logged
                       ltac:(intros m; reflexivity) Hload Hne) ltac:(lia))
      as (rep & Hmain & Hsix & _ & Herr).
    exists rep. split; [exact Hmain |]. split; [exact Hsix |].
    by rewrite Herr, Hlogged, Hstats.
  - rewrite <- Hlen.
    exact (proj2 (load_stats_report_depends_on_count_only Sample.Unmarshal
                    Sample.rangeOrder Sample.t0 None None (-1) _ None queries loadStats logged
                    ltac:(intros m; reflexivity) Hload Hne) ltac:(lia)).
Defined.

(** ** Summary line of the percentile revision *)

Lemma sortByTime_Ok (logs sorted : list LogEntry) :
  sortByTime logs = Ok sorted →
  sorted ≡ₚ logs
  ∧ StronglySorted (λ a b, default 0 (TS a) ≤ default 0 (TS b)) sorted
  ∧ (2 ≤ len logs → Forall (λ e, is_Some (TS e)) logs).
Proof.
  unfold sortByTime.
  destruct ((2 <=? len logs) && existsb (λ e, bool_decide (TS e = None)) logs) eqn:Hcheck;
    [done |].
  intros [= <-]. split; [apply merge_sort_Permutation |]. split.
  - assert (Htrans : Transitive (descending (λ a b : LogEntry, byTime b a))).
    { intros a b c. unfold descending, byTime. rewrite !Z.ltb_ge. lia. }
    assert (Htotal : Total (descending (λ a b : LogEntry, byTime b a))).
    { intros a b. unfold descending, byTime. rewrite !Z.ltb_ge. lia. }
    pose proof (StronglySorted_merge_sort (descending (λ a b : LogEntry, byTime b a)) logs)
      as Hsorted.
    induction Hsorted as [|x l _ IH Hall]; constructor; [done |].
    eapply Forall_impl; [exact Hall |].
    intros e. unfold descending, byTime. by rewrite Z.ltb_ge.
  - intros Hlen. apply andb_false_iff in Hcheck as [Hshort | Hnone].
    + apply Z.leb_gt in Hshort. lia.
    + apply Forall_forall. intros e He.
      destruct (TS e) as [t|] eqn:Ht; [by eexists |].
      assert (existsb (λ e, bool_decide (TS e = None)) logs = true); [| congruence].
      apply existsb_exists. exists e. split; [by apply list_elem_of_In |].
      by apply bool_decide_eq_true_2.
Qed.

Lemma percentile_Ok_two_samples {T : Type} `{Number T} (p : Z) (nums : list T) (x : T) :
  1 ≤ p ≤ 100 → orFatal (percentile p nums) = Ok x → 2 ≤ len nums.
Proof.
  intros Hp Hx.
  destruct nums as [|a [|b nums]]; [| | unfold len; simpl; lia].
  - unfold percentile in Hx.
    replace ((p <=? 0) || (100 <? p)) with false in Hx; [done |].
    symmetry. apply orb_false_iff. split; [apply Z.leb_gt | apply Z.ltb_ge]; lia.
  - rewrite percentile_valid in Hx by (done || lia).
    destruct (indexChecked_spec p 1 Hp ltac:(lia)) as (_ & Hle & Hiff).
    change (len [a]) with 1 in Hx.
    assert (Hk : percentile_index p 1 = 1) by lia.
    rewrite Hk, index_out_of_range in Hx; [done |].
    rewrite slices_Sort_length. change (len [a]) with 1. lia.
Qed.

(** X19.  Whenever [main] of the percentile revision completes, the summary line
    that closes its log counts the aggregated records and gives the range
    of their timestamps: every record is dated inside it, and each end is
    the timestamp of a record.  There are at least two records, since the
    percentiles of a single one always panic. *)
Theorem summary_line_spans_aggregated_timestamps
    (Unmarshal : string → option LogEntry)
    (rangeOrder : gmap string (list LogEntry) → list (string * list LogEntry))
    (from to : option Time) (argTop argPerc : Z) (lines : list string)
    (scanErr : option error) (rep : report) :
  main Unmarshal rangeOrder from to argTop argPerc lines scanErr = Ok rep →
  ∃ queries logs logged lo hi,
    LoadQueriesFromLog Unmarshal rangeOrder lines scanErr from to = Ok (queries, logs, logged)
    ∧ stderr rep = logged ++ [LogLoaded (len logs) (Some lo) (Some hi)]
    ∧ 2 ≤ len logs
    ∧ Forall (λ e, ∃ t, TS e = Some t ∧ lo ≤ t ≤ hi) logs
    ∧ Exists (λ e, TS e = Some lo) logs
    ∧ Exists (λ e, TS e = Some hi) logs.
Proof.
  unfold main.
  destruct ((argPerc <=? 0) || (100 <? argPerc)) eqn:Hrange; [done |].
  apply orb_false_iff in Hrange as [Hlo%Z.leb_gt Hhi%Z.ltb_ge].
  destruct (LoadQueriesFromLog Unmarshal rangeOrder lines scanErr from to)
    as [[[queries logs] logged]| |]; [| done..].
  destruct (len queries =? 0); [done |].
  destruct (sortByTime logs) as [sorted| |] eqn:Hsort; simpl; [| done..].
  apply sortByTime_Ok in Hsort as (Hperm & Hsorted & Hdated).
  destruct (index sorted 0) as [first| |] eqn:Hfirst; simpl; [| done..].
  destruct (index sorted (len sorted - 1)) as [last| |] eqn:Hlast; simpl; [| done..].
  destruct (orFatal (percentile argPerc (GetExecTotalTimeValues sorted)))
    as [p1| |] eqn:Hp1; simpl; [| done..].
  apply percentile_Ok_two_samples in Hp1; [| lia].
  assert (Hlen : len sorted = len logs) by by apply len_Permutation.
  assert (Htwo : 2 ≤ len logs).
  { rewrite <- Hlen. unfold GetExecTotalTimeValues, len in *.
    by rewrite length_fmap in Hp1. }
  specialize (Hdated Htwo).
  destruct (avgExecTable _ _) as [[q1 t1]| |]; simpl; [| done..].
  destruct (maxExecTable _ _) as [[q2 t2]| |]; simpl; [| done..].
  destruct (orFatal (percentile argPerc (GetTotalQueryableSamplesValues sorted)))
    as [p2| |]; simpl; [| done..].
  destruct (avgTotalTable _ _) as [[q3 t3]| |]; simpl; [| done..].
  destruct (maxTotalTable _ _) as [[q4 t4]| |]; simpl; [| done..].
  destruct (orFatal (percentile argPerc (GetPeakSamplesValues sorted)))
    as [p3| |]; simpl; [| done..].
  destruct (avgPeakTable _ _) as [[q5 t5]| |]; simpl; [| done..].
  destruct (maxPeakTable _ _) as [[q6 t6]| |]; simpl; [| done..].
  intros [= <-]. simpl.
  apply index_Ok in Hfirst as [_ Hfirst]. apply index_Ok in Hlast as [_ Hlast].
  change (Z.to_nat 0) with 0%nat in Hfirst.
  assert (Hin_first : first ∈ logs) by (rewrite <- Hperm; by eapply list_elem_of_lookup_2).
  assert (Hin_last : last ∈ logs) by (rewrite <- Hperm; by eapply list_elem_of_lookup_2).
  rewrite Forall_forall in Hdated.
  destruct (Hdated first Hin_first) as [lo Hts_lo].
  destruct (Hdated last Hin_last) as [hi Hts_hi].
  exists queries, logs, logged, lo, hi. rewrite Hlen, Hts_lo, Hts_hi.
  split; [done |]. split; [done |]. split; [done |].
  split; [| split; apply Exists_exists; eauto].
  apply Forall_forall. intros e He. destruct (Hdated e He) as [t Ht].
  exists t. split; [done |].
  rewrite <- Hperm in He. apply list_elem_of_lookup in He as [i Hi].
  assert (Hi_lt : (i < length sorted)%nat) by by eapply lookup_lt_Some.
  unfold len in *.
  split.
  - destruct (decide (i = 0%nat)) as [-> | Hne].
    + rewrite Hfirst in Hi. injection Hi as <-. rewrite Hts_lo in Ht. injection Ht as <-. lia.
    + assert (Hlt : (0 < i)%nat) by lia.
      pose proof (StronglySorted_lookup_lt _ _ _ _ first e Hsorted Hlt Hfirst Hi) as Hle.
      simpl in Hle. by rewrite Hts_lo, Ht in Hle.
  - destruct (decide (i = Z.to_nat (Z.of_nat (length sorted) - 1))) as [-> | Hne].
    + rewrite Hlast in Hi. injection Hi as <-. rewrite Hts_hi in Ht. injection Ht as <-. lia.
    + assert (Hlt : (i < Z.to_nat (Z.of_nat (length sorted) - 1))%nat) by lia.
      pose proof (StronglySorted_lookup_lt _ _ _ _ e last Hsorted Hlt Hi Hlast) as Hle.
      simpl in Hle. by rewrite Hts_hi, Ht in Hle.
Qed.

Lemma summary_line_spans_aggregated_timestamps_witness :
  ∃ rep lo hi,
    main Sample.Unmarshal Sample.rangeOrder None None 10 50
      [Sample.lineUp; Sample.lineRate; Sample.lineEmptyQuery; Sample.lineUpLater] None = Ok rep
    ∧ stderr rep = [LogEmptyQuery 2; LogLoaded 3 (Some lo) (Some hi)]
    ∧ lo ≤ Sample.t0 ∧ Sample.t0 + Sample.seconds 120 ≤ hi.
Proof.
  destruct (main Sample.Unmarshal Sample.rangeOrder None None 10 50
              [Sample.lineUp; Sample.lineRate; Sample.lineEmptyQuery; Sample.lineUpLater] None)
    as [rep| |] eqn:Hmain; [| vm_compute in Hmain; discriminate..].
  destruct (summary_line_spans_aggregated_timestamps _ _ _ _ _ _ _ _ _ Hmain)
    as (queries & logs & logged & lo & hi & Hload & Herr & _ & Hall & _).
  vm_compute in Hload. injection Hload as <- <- <-.
  exists rep, lo, hi. split; [done |]. split; [exact Herr |].
  apply Forall_cons in Hall as [(t1 & Ht1 & Hb1) Hall].
  apply Forall_cons in Hall as [_ Hall].
  apply Forall_cons in Hall as [(t3 & Ht3 & Hb3) _].
  injection Ht1 as <-. injection Ht3 as <-.
  change (Sample.t0) with 63873595304000000000.
  change (Sample.seconds 120) with 120000000000. lia.
Defined.

(** ** Report of the percentile revision *)

Lemma percentile_room {T : Type} `{Number T} (p : Z) (nums : list T) :
  1 ≤ p ≤ 100 → 1 ≤ len nums ≤ 200 → 100 ≤ len nums * (100 - p) →
  ∃ x, percentile p nums = Ok x.
Proof.
  intros Hp Hn Hroom.
  destruct (indexChecked_spec p (len nums) Hp Hn) as (Hrank & Hle & Hiff).
  assert (Hrank0 : 0 ≤ nearestRank p (len nums))
    by (unfold nearestRank; apply Z.div_pos; nia).
  rewrite (percentile_valid p nums) by (lia || (intros ->; unfold len in Hn; simpl in Hn; lia)).
  destruct (index_in_range (slices_Sort nums) (percentile_index p (len nums)))
    as (x & Hx & _); [rewrite slices_Sort_length; lia | by exists x].
Qed.

Lemma percentile_no_room {T : Type} `{Number T} (p : Z) (nums : list T) :
  1 ≤ p ≤ 100 → 1 ≤ len nums ≤ 200 → len nums * (100 - p) < 100 →
  percentile p nums = Panic (IndexOutOfRange (len nums) (len nums)).
Proof.
  intros Hp Hn Hroom.
  destruct (indexChecked_spec p (len nums) Hp Hn) as (Hrank & Hle & Hiff).
  rewrite (percentile_valid p nums) by (lia || (intros ->; unfold len in Hn; simpl in Hn; lia)).
  assert (Hk : percentile_index p (len nums) = len nums) by lia.
  rewrite Hk, index_out_of_range by (rewrite slices_Sort_length; lia).
  by rewrite slices_Sort_length.
Qed.

Lemma sortByTime_dated (logs : list LogEntry) :
  Forall (λ e, is_Some (TS e)) logs →
  sortByTime logs = Ok (merge_sort (descending (λ a b, byTime b a)) logs).
Proof.
  intros Hdated. unfold sortByTime.
  replace (existsb (λ e, bool_decide (TS e = None)) logs) with false;
    [by rewrite andb_false_r |].
  symmetry. apply not_true_is_false. intros (e & He & Hnone)%existsb_exists.
  apply list_elem_of_In in He. rewrite Forall_forall in Hdated.
  destruct (Hdated e He) as [t Ht]. apply bool_decide_eq_true_1 in Hnone. congruence.
Qed.

Lemma load_printable
    (Unmarshal : string → option LogEntry)
    (rangeOrder : gmap string (list LogEntry) → list (string * list LogEntry))
    (lines : list string) (scanErr : option error) (from to : option Time)
    (queries : list QueryGroup) (logs : list LogEntry) (logged : list log_line) :
  (∀ m, rangeOrder m ≡ₚ map_to_list m) →
  LoadQueriesFromLog Unmarshal rangeOrder lines scanErr from to = Ok (queries, logs, logged) →
  Forall (λ e, is_Some (TS e)) logs →
  Forall printable queries ∧ (logs ≠ [] → queries ≠ []).
Proof.
  intros Hperm Hload Hdated.
  destruct (load_Ok_state _ _ _ _ _ _ _ _ _ Hperm Hload)
    as (st & Hscan & -> & _ & [Hb Hc] & _ & _ & Hlen).
  apply LoadQueriesFromLog_Ok_inv in Hload as (st' & Hscan' & Hqs & _ & _).
  assert (st' = st) as -> by congruence.
  split.
  - apply (rangeNewQuery_printable (rangeOrder (qMap st)) [] queries);
      [| constructor | done].
    rewrite Hperm. apply Forall_forall. intros [k v] Hkv. simpl.
    apply Forall_forall. intros e He. rewrite Forall_forall in Hdated. apply Hdated.
    rewrite <- Hc. unfold bucketRecords. apply list_elem_of_In, in_concat.
    exists v. split; [| by apply list_elem_of_In].
    apply list_elem_of_In, list_elem_of_fmap. by exists (k, v).
  - intros Hne ->. simpl in Hlen.
    assert (Hnil : map_to_list (qMap st) = []) by (by destruct (map_to_list (qMap st))).
    rewrite Hnil in Hc. by apply Permutation.Permutation_nil in Hc.
Qed.

(** X20.  Whether the report of the percentile revision completes is decided by
    the number [n] of aggregated records and the rank [p] alone, for dated
    records (up to 200 of them): when [n * (100 - p) < 100] the first
    percentile reads one past the end and [main] panics, so with the
    default rank 95 every log of fewer than 20 records panics; otherwise
    [main] prints the three percentile lines and the six tables. *)
Theorem report_completes_iff_room_above_rank
    (Unmarshal : string → option LogEntry)
    (rangeOrder : gmap string (list LogEntry) → list (string * list LogEntry))
    (from to : option Time) (argTop argPerc : Z) (lines : list string) (scanErr : option error)
    (queries : list QueryGroup) (logs : list LogEntry) (logged : list log_line) :
  (∀ m, rangeOrder m ≡ₚ map_to_list m) →
  1 ≤ argPerc ≤ 100 →
  LoadQueriesFromLog Unmarshal rangeOrder lines scanErr from to = Ok (queries, logs, logged) →
  Forall (λ e, is_Some (TS e)) logs →
  1 ≤ len logs ≤ 200 →
  (len logs * (100 - argPerc) < 100 →
     main Unmarshal rangeOrder from to argTop argPerc lines scanErr
       = Panic (IndexOutOfRange (len logs) (len logs)))
  ∧ (100 ≤ len logs * (100 - argPerc) → 0 ≤ argTop →
     ∃ rep, main Unmarshal rangeOrder from to argTop argPerc lines scanErr = Ok rep
       ∧ length (stdout rep) = 9%nat).
Proof.
  intros Hperm Hp Hload Hdated Hn.
  destruct (load_printable _ _ _ _ _ _ _ _ _ Hperm Hload Hdated) as [Hprint Hne].
  assert (Hqueries : queries ≠ [])
    by (apply Hne; intros ->; unfold len in Hn; simpl in Hn; lia).
  assert (Hstart : main Unmarshal rangeOrder from to argTop argPerc lines scanErr
            = let logs := merge_sort (descending (λ a b, byTime b a)) logs in
              do first <- index logs 0;
              do last <- index logs (len logs - 1);
              let logged := logged ++ [LogLoaded (len logs) (TS first) (TS last)] in
              let argTop := clampTop argTop queries in
              do p1 <- orFatal (percentile argPerc (GetExecTotalTimeValues logs));
              do '(queries, t1) <- avgExecTable argTop queries;
              do '(queries, t2) <- maxExecTable argTop queries;
              do p2 <- orFatal (percentile argPerc (GetTotalQueryableSamplesValues logs));
              do '(queries, t3) <- avgTotalTable argTop queries;
              do '(queries, t4) <- maxTotalTable argTop queries;
              do p3 <- orFatal (percentile argPerc (GetPeakSamplesValues logs));
              do '(queries, t5) <- avgPeakTable argTop queries;
              do '(queries, t6) <- maxPeakTable argTop queries;
              Ok {| stdout := [PercentileLine argPerc (FloatValue p1); t1; t2;
                               PercentileLine argPerc (IntValue p2); t3; t4;
                               PercentileLine argPerc (IntValue p3); t5; t6];
                    stderr := logged |}).
  { unfold main. rewrite Hload.
    replace ((argPerc <=? 0) || (100 <? argPerc)) with false
      by (symmetry; apply orb_false_iff; split; [apply Z.leb_gt | apply Z.ltb_ge]; lia).
    replace (len queries =? 0) with false
      by (symmetry; apply Z.eqb_neq; unfold len; destruct queries; [done | simpl; lia]).
    by rewrite (sortByTime_dated logs Hdated). }
  rewrite Hstart. clear Hstart. cbv zeta.
  set (sorted := merge_sort (descending (λ a b, byTime b a)) logs).
  assert (Hlen : len sorted = len logs) by (apply len_Permutation, merge_sort_Permutation).
  assert (Hvals : ∀ {M : Type} (f : LogEntry → M), len (f <$> sorted) = len logs)
    by (intros M f; unfold len in *; by rewrite length_fmap).
  destruct (index_in_range sorted 0) as (first & -> & _); [lia |].
  destruct (index_in_range sorted (len sorted - 1)) as (last & -> & _); [lia |]. simpl.
  split.
  - intros Hroom. unfold GetExecTotalTimeValues.
    rewrite percentile_no_room by (rewrite ?Hvals; lia). simpl. by rewrite Hvals.
  - intros Hroom Htop.
    unfold GetExecTotalTimeValues, GetTotalQueryableSamplesValues, GetPeakSamplesValues.
    destruct (percentile_room argPerc (execTotalTime <$> sorted))
      as (p1 & ->); [lia | rewrite Hvals; lia.. |].
    destruct (percentile_room argPerc (totalQueryableSamples <$> sorted))
      as (p2 & ->); [lia | rewrite Hvals; lia.. |].
    destruct (percentile_room argPerc (peakSamples <$> sorted))
      as (p3 & ->); [lia | rewrite Hvals; lia.. |]. simpl.
    assert (Hclamp : 0 ≤ clampTop argTop queries ≤ len queries)
      by (rewrite clampTop_min; unfold len; lia).
    set (top := clampTop argTop queries) in *.
    assert (Hstep : ∀ qs table, qs ≡ₚ queries → table ∈ rankedTables →
              ∃ qs' t, table top qs = Ok (qs', t) ∧ qs' ≡ₚ queries).
    { intros qs table Hqs Htable.
      destruct (ranked_step_Ok top qs table) as (qs' & t & Hrun & Hperm' & _);
        [by rewrite (len_Permutation _ _ Hqs) | by rewrite Hqs | done |].
      exists qs', t. split; [done |]. by rewrite Hperm'. }
    destruct (Hstep queries avgExecTable) as (q1 & t1 & -> & Hp1);
      [done | unfold rankedTables; repeat constructor |]. simpl.
    destruct (Hstep q1 maxExecTable) as (q2 & t2 & -> & Hp2);
      [done | unfold rankedTables; repeat constructor |]. simpl.
    destruct (Hstep q2 avgTotalTable) as (q3 & t3 & -> & Hp3);
      [done | unfold rankedTables; repeat constructor |]. simpl.
    destruct (Hstep q3 maxTotalTable) as (q4 & t4 & -> & Hp4);
      [done | unfold rankedTables; repeat constructor |]. simpl.
    destruct (Hstep q4 avgPeakTable) as (q5 & t5 & -> & Hp5);
      [done | unfold rankedTables; repeat constructor |]. simpl.
    destruct (Hstep q5 maxPeakTable) as (q6 & t6 & -> & Hp6);
      [done | unfold rankedTables; repeat constructor |]. simpl.
    eexists. by split.
Qed.

Lemma report_completes_iff_room_above_rank_witness :
  main Sample.Unmarshal Sample.rangeOrder None None 10 95
    [Sample.lineUp; Sample.lineRate; Sample.lineEmptyQuery; Sample.lineUpLater] None
    = Panic (IndexOutOfRange 3 3)
  ∧ ∃ rep, main Sample.Unmarshal Sample.rangeOrder None None 10 50
             [Sample.lineUp; Sample.lineRate; Sample.lineEmptyQuery; Sample.lineUpLater] None
           = Ok rep
      ∧ length (stdout rep) = 9%nat.
Proof.
  destruct (LoadQueriesFromLog Sample.Unmarshal Sample.rangeOrder
              [Sample.lineUp; Sample.lineRate; Sample.lineEmptyQuery; Sample.lineUpLater] None
              None None) as [[[queries logs] logged]| |] eqn:Hload;
    [| vm_compute in Hload; discriminate..].
  assert (Hlogs : Forall (λ e, is_Some (TS e)) logs ∧ len logs = 3).
  { vm_compute in Hload. injection Hload as _ <- _.
    split; [| reflexivity]. repeat constructor; by eexists. }
  destruct Hlogs as [Hdated Hlen].
  split.
  - rewrite <- Hlen.
    apply (report_completes_iff_room_above_rank Sample.Unmarshal Sample.rangeOrder
             None None 10 95 _ None queries logs logged);
      [intros m; reflexivity | lia | exact Hload | exact Hdated | lia | lia].
  - apply (report_completes_iff_room_above_rank Sample.Unmarshal Sample.rangeOrder
             None None 10 50 _ None queries logs logged);
      [intros m; reflexivity | lia | exact Hload | exact Hdated | lia | lia | lia].
Defined.
